(** * hseg: corpus ingestion, annotation trees and transition labels

    A shallow embedding of the two dataset loaders of the repository,
    [datasets/icsi.py] (class [ICSIDataset]) and [datasets/ami.py]
    (class [AMIDataset]), together with the properties their
    specification states about them.

    Python values are modelled as follows.
    - [str] is [string]; a value that may be [None] is an [option].
    - a [list] is a [list]; [l[i] = v] is stdpp's [<[i:=v]> l], used only
      at indices that are in range.
    - a [dict] used as a map is a [gmap]; a dict that is a record (a word
      entry, an utterance) is a [Record].
    - an exception is the [Raise] case of [outcome]; [exit(-1)] is the
      exception [SystemExit].
    - the structlog logger is a list of log records threaded through the
      functions that log.
    - timestamps are floats in the source and are left out of the records:
      nothing below depends on their values. Where the source reads a
      time attribute or converts it, the read and the conversion are kept,
      since either can raise. *)

From Stdlib Require Import ZArith List String Ascii Lia Bool DecimalString.
From stdpp Require Import base gmap strings list fin_maps.
From Equations Require Import Equations.
Import ListNotations.

Set Warnings "-register-all".

Local Open Scope string_scope.
Local Open Scope list_scope.
Local Open Scope Z_scope.

(** ** Python primitives *)

Module Py.

(** Exceptions the loaders can raise. *)
Inductive exn : Type :=
| TypeError
| IndexError
| KeyError (k : string)
| ValueError
| AssertionError
| RecursionError
| SystemExit
| UnsupportedType (word_type : string)
| NodeNoKeys (tag : string)
| NonSupportedNodetype (tag : string).

Inductive outcome (A : Type) : Type :=
| Ok (a : A)
| Raise (e : exn).
Arguments Ok {A} a.
Arguments Raise {A} e.

Definition bind {A B} (m : outcome A) (k : A -> outcome B) : outcome B :=
  match m with
  | Ok a => k a
  | Raise e => Raise e
  end.

Definition is_ok {A} (m : outcome A) : bool :=
  match m with Ok _ => true | Raise _ => false end.

(** [sum(l)] on a list of integers. *)
Definition sum (l : list Z) : Z := fold_left Z.add l 0.

(** [l[a:b]], with Python's treatment of negative and out-of-range
    bounds: a negative bound counts from the end and is then clamped
    to [0]; a bound beyond the end is clamped to [len(l)]. *)
Definition slice_bound (n a : Z) : Z :=
  if a <? 0 then Z.max (a + n) 0 else Z.min a n.

Definition slice {A} (l : list A) (a b : Z) : list A :=
  let n := Z.of_nat (length l) in
  let lo := slice_bound n a in
  let hi := slice_bound n b in
  firstn (Z.to_nat (hi - lo)) (skipn (Z.to_nat lo) l).

(** [p] is a prefix of [s]: the rest of [s] after [p], if so. *)
Fixpoint strip_prefix (p s : string) : option string :=
  match p, s with
  | EmptyString, _ => Some s
  | String a p', String b s' =>
      if Ascii.eqb a b then strip_prefix p' s' else None
  | String _ _, EmptyString => None
  end.

(** [sub in s] on strings. *)
Fixpoint contains (sub s : string) : bool :=
  match strip_prefix sub s with
  | Some _ => true
  | None =>
      match s with
      | EmptyString => false
      | String _ s' => contains sub s'
      end
  end.

(** [s.split(sep)] for a non-empty separator: scan left to right, cut at
    every occurrence of [sep] and resume after it. [skip] counts the
    characters of a separator still to be passed over; [cur] is the
    piece being read. *)
Fixpoint split_from (sep : string) (skip : nat) (cur : string) (s : string)
  : list string :=
  match s with
  | EmptyString => [cur]
  | String c s' =>
      match skip with
      | S k => split_from sep k cur s'
      | O =>
          match strip_prefix sep s with
          | Some _ =>
              cur :: split_from sep (String.length sep - 1) EmptyString s'
          | None => split_from sep 0 (cur +:+ String c EmptyString) s'
          end
      end
  end.

Definition split (sep s : string) : list string :=
  split_from sep 0 EmptyString s.

(** [sep.join(l)]. *)
Fixpoint join (sep : string) (l : list string) : string :=
  match l with
  | [] => EmptyString
  | [x] => x
  | x :: rest => x +:+ sep +:+ join sep rest
  end.

(** [str(n)] for a non-negative integer. *)
Definition str (n : nat) : string :=
  DecimalString.NilZero.string_of_uint (Nat.to_uint n).

(** What an f-string prints for a value that may be [None]. *)
Definition fmt (s : option string) : string :=
  match s with Some x => x | None => "None" end.

(** Records written by the structlog logger. *)
Inductive level : Type := Info | Warning | Error.
Definition log : Type := list (level * string).

End Py.
Export Py.

(** [outcome] is a monad; stdpp's [x ← m; k] is used for sequencing. *)
#[global] Instance outcome_bind : MBind outcome := fun A B k m => Py.bind m k.
#[global] Instance outcome_ret : MRet outcome := fun A a => Ok a.

(** ** Transition smoothing ([compose_meeting_notes], second half)

    The code is the same in both loaders:
<<
    raw_transitions = self.raw_transitions[meeting]
    transitions = raw_transitions.copy()
    for i, _ in enumerate(raw_transitions):
        if sum(transitions[i - self.MIN_SEGMENT_SIZE : i]) > 0:
            transitions[i] = 0
>>
    [MIN_SEGMENT_SIZE] is the constant 10 of both constructors; it is a
    parameter here. *)

Module Smoothing.

Definition MIN_SEGMENT_SIZE : Z := 10.

(** One iteration of the loop, at index [i]. *)
Definition smooth_step (M : Z) (transitions : list Z) (i : nat) : list Z :=
  if Py.sum (Py.slice transitions (Z.of_nat i - M) (Z.of_nat i)) >? 0
  then <[i := 0]> transitions
  else transitions.

(** The loop over [enumerate(raw_transitions)], on the working copy. *)
Definition smooth (M : Z) (raw_transitions : list Z) : list Z :=
  fold_left (smooth_step M) (seq 0 (length raw_transitions)) raw_transitions.

End Smoothing.

(** ** Parsed XML documents ([xml.etree.ElementTree]) *)

Module Xml.

(** An [Element]: its tag, attributes, text and child elements. *)
Inductive Element : Type := mkElement {
  etag : string;
  attrib : gmap string string;
  etext : option string;
  children : list Element
}.

(** [e.attrib[k]]. *)
Definition attr (e : Element) (k : string) : outcome string :=
  match attrib e !! k with
  | Some v => Ok v
  | None => Raise (KeyError k)
  end.

Definition nite_id : string := "{http://nite.sourceforge.net/}id".

(** Number of elements of a document, and of a list of documents. *)
Fixpoint element_count (e : Element) : nat :=
  S (list_sum (map element_count (children e))).

Definition forest_count (l : list Element) : nat :=
  list_sum (map element_count l).

(** The corpus directory: [os.path.isfile(f)] holds when [f] is bound,
    and [ET.parse(f).getroot()] is then the element it is bound to. *)
Definition files : Type := gmap string Element.

End Xml.
Export Xml.

(** ** Annotation trees (shared by both loaders) *)

Module Anno.

(** Modelled from the spec: the class [AnnoTreeNode] of [data_utils],
    which is not part of the sources at hand. The fields are the ones the
    loaders read and write; a fresh node has no children, no keys, no
    utterances, and is not a leaf until a loader says so. [U] is the
    type of the utterances in [convo]. *)
Inductive AnnoTreeNode (U : Type) : Type := mkNode {
  tag : string;
  key : string;
  keys : list string;
  nn : list (AnnoTreeNode U);
  path : string;
  is_leaf : bool;
  convo : list U;
  composed : bool
}.
Arguments mkNode {U}.
Arguments tag {U}.
Arguments key {U}.
Arguments keys {U}.
Arguments nn {U}.
Arguments path {U}.
Arguments is_leaf {U}.
Arguments convo {U}.
Arguments composed {U}.

Section Nodes.
Context {U : Type}.
Abbreviation node := (AnnoTreeNode U).

(** [AnnoTreeNode()]. *)
Definition fresh : node :=
  mkNode EmptyString EmptyString [] [] EmptyString false [] false.

Definition set_nn (l : list node) (n : node) : node :=
  mkNode (tag n) (key n) (keys n) l (path n) (is_leaf n) (convo n)
         (composed n).
Definition set_keys (k : list string) (n : node) : node :=
  mkNode (tag n) (key n) k (nn n) (path n) (is_leaf n) (convo n)
         (composed n).
Definition set_convo (c : list U) (n : node) : node :=
  mkNode (tag n) (key n) (keys n) (nn n) (path n) (is_leaf n) c
         (composed n).
Definition set_path (p : string) (n : node) : node :=
  mkNode (tag n) (key n) (keys n) (nn n) p (is_leaf n) (convo n)
         (composed n).
Definition set_is_leaf (b : bool) (n : node) : node :=
  mkNode (tag n) (key n) (keys n) (nn n) (path n) b (convo n)
         (composed n).
Definition set_tag (t : string) (n : node) : node :=
  mkNode t (key n) (keys n) (nn n) (path n) (is_leaf n) (convo n)
         (composed n).
Definition set_composed (b : bool) (n : node) : node :=
  mkNode (tag n) (key n) (keys n) (nn n) (path n) (is_leaf n) (convo n) b.

(** Number of nodes of a tree. *)
Fixpoint size (n : node) : nat :=
  S (list_sum (map size (nn n))).

Definition stack_size (stack : list node) : nat :=
  list_sum (map size stack).

(** The annotation index of a meeting, a dict from path to the node
    object registered under it. The objects are the nodes of the tree
    itself; the model keeps the set of registered paths. *)
Definition anno_index : Type := gset string.

(** [register_anno_node(anno_index, node)]: a path already present is
    logged and ends the run with [exit(-1)]. *)
Definition register_anno_node (index : gset string) (n : node)
    : outcome (gset string) :=
  if decide (path n ∈ index) then Raise SystemExit
  else Ok ({[path n]} ∪ index).

(** [for child in node.nn[::-1]: stack.append(child)]. The head of the
    model's list is the top of the stack. *)
Definition push_all (children : list node) (stack : list node)
    : list node :=
  fold_left (fun st child => child :: st) (rev children) stack.

(** The loop [while stack] of [discover_anno_leaves]. *)
Equations? discover_loop (stack leaves : list node) : list node
    by wf (stack_size stack) lt :=
  discover_loop [] leaves := leaves;
  discover_loop (n :: stack) leaves :=
    discover_loop (push_all (nn n) stack)
      (if is_leaf n then leaves ++ [n] else leaves).
Proof.
  assert (Hpush : forall l st, stack_size (fold_left (fun st child => child :: st) l st)
                  = (stack_size l + stack_size st)%nat).
  { unfold stack_size. induction l as [|x l IHl]; intros st; simpl; [reflexivity|].
    rewrite IHl. simpl. lia. }
  unfold push_all. rewrite Hpush.
  assert (Hrev : stack_size (rev (nn n)) = stack_size (nn n)).
  { unfold stack_size. rewrite map_rev.
    generalize (map size (nn n)) as l.
    induction l as [|x l IHl]; simpl; [reflexivity|].
    rewrite list_sum_app. simpl. lia. }
  rewrite Hrev. unfold stack_size at 3. simpl.
  destruct n as [t k ks children p lf c cp]. simpl.
  unfold stack_size. lia.
Qed.

(** [discover_anno_leaves(anno_root)]. *)
Definition discover_anno_leaves (anno_root : node) : list node :=
  discover_loop [anno_root] [].

(** The leaves in pre-order, left to right, by structural recursion:
    a node marked as a leaf, then the leaves of each child in turn. *)
Fixpoint preorder_leaves (n : node) : list node :=
  (if is_leaf n then [n] else []) ++ flat_map preorder_leaves (nn n).

(** All the nodes of a tree, in pre-order, and their paths. *)
Fixpoint nodes (n : node) : list node :=
  n :: flat_map nodes (nn n).

Definition paths (n : node) : list string := map path (nodes n).

(** The path of a child is the path of its parent followed by a dot and
    one ordinal. *)
Definition extends_path (parent child : string) : Prop :=
  exists k : nat, child = parent +:+ "." +:+ Py.str k.

Definition children_extend (n : node) : Prop :=
  Forall (fun child => extends_path (path n) (path child)) (nn n).

(** What a loader that ends well has done to the index [idx] it started
    from: the tree [n'] has path [p], the children of every node extend
    its path, the paths of the tree are pairwise distinct and new to
    [idx], and [idx'] is [idx] with exactly these paths added. *)
Definition registered_from (idx : gset string) (p : string)
    (n' : node) (idx' : gset string) : Prop :=
  path n' = p /\
  Forall children_extend (nodes n') /\
  NoDup (paths n') /\
  (forall q, q ∈ paths n' -> q ∉ idx) /\
  idx' = list_to_set (paths n') ∪ idx.

(** The same for a loop that appends children to the list [acc]: [added]
    are the paths it registers. *)
Definition loop_registered_from (idx : gset string) (p : string)
    (acc : list node) (n' : node) (idx' : gset string) : Prop :=
  exists added,
    map path (flat_map nodes (nn n')) =
      map path (flat_map nodes acc) ++ added /\
    NoDup added /\
    (forall q, q ∈ added -> q ∉ idx) /\
    idx' = list_to_set added ∪ idx /\
    path n' = p /\
    children_extend n' /\
    Forall children_extend (flat_map nodes (nn n')).

(** A leaf that carries at least one key and one utterance. *)
Definition leaf_resolved (n : node) : Prop :=
  is_leaf n = true -> keys n <> [] /\ convo n <> [].

End Nodes.

End Anno.

(** ** Raw transitions ([compose_meeting_notes], first half)

    The code is the same in both loaders:
<<
    prev_leaf_id = 0
    anno_leaves = self.discover_anno_leaves(anno_root)
    for leaf_id, leaf in enumerate(anno_leaves):
        for utt in leaf.convo:
            if leaf_id!=prev_leaf_id:
                self.raw_transitions[meeting].append(1)
                prev_leaf_id = leaf_id
            else:
                self.raw_transitions[meeting].append(0)
            utt["composite"] = self.compose_utterance(utt)
            self.notes[meeting].append(utt)
>> *)

Module Notes.

(** What the two loaders need of an utterance dict. *)
Class Utterance (U : Type) : Type := {
  utt_text : U -> option string;
  utt_set_composite : string -> U -> U
}.

Section Compose.
Context {U : Type} `{Utterance U}.
Abbreviation node := (Anno.AnnoTreeNode U).

(** [compose_utterance(utterance)] for [timed_utterances = False], the
    default of both constructors and the value [main.py] runs with. *)
Definition compose_utterance (utterance : U) : string :=
  "-" +:+ Py.fmt (utt_text utterance).

Record labelling : Type := mk_labelling {
  notes : list U;
  raw_transitions : list Z;
  prev_leaf_id : nat
}.

(** The body of the inner loop, for one utterance of leaf [leaf_id]. *)
Definition label_utterance (leaf_id : nat) (st : labelling) (utt : U)
    : labelling :=
  let utt' := utt_set_composite (compose_utterance utt) utt in
  if negb (leaf_id =? prev_leaf_id st)%nat
  then mk_labelling (notes st ++ [utt']) (raw_transitions st ++ [1]) leaf_id
  else mk_labelling (notes st ++ [utt']) (raw_transitions st ++ [0])
                    (prev_leaf_id st).

(** The outer loop over [enumerate(anno_leaves)], from index [leaf_id]. *)
Fixpoint label_leaves (leaf_id : nat) (anno_leaves : list node)
    (st : labelling) : labelling :=
  match anno_leaves with
  | [] => st
  | leaf :: rest =>
      label_leaves (S leaf_id) rest
        (fold_left (label_utterance leaf_id) (Anno.convo leaf) st)
  end.

Record meeting_notes : Type := mk_meeting_notes {
  m_notes : list U;
  m_raw_transitions : list Z;
  m_transitions : list Z
}.

(** [compose_meeting_notes] for one meeting with annotation tree
    [anno_root]. *)
Definition compose_meeting_notes (M : Z) (anno_root : node) : meeting_notes :=
  let anno_leaves := Anno.discover_anno_leaves anno_root in
  let st := label_leaves 0 anno_leaves (mk_labelling [] [] 0) in
  mk_meeting_notes (notes st) (raw_transitions st)
                   (Smoothing.smooth M (raw_transitions st)).

(** The flattened utterance sequence of a list of leaves, and for each of
    its positions the index of the leaf that owns the utterance there. *)
Definition flattened (anno_leaves : list node) : list U :=
  flat_map Anno.convo anno_leaves.

Fixpoint owners_from (leaf_id : nat) (anno_leaves : list node) : list nat :=
  match anno_leaves with
  | [] => []
  | leaf :: rest =>
      repeat leaf_id (length (Anno.convo leaf)) ++ owners_from (S leaf_id) rest
  end.

Definition owners (anno_leaves : list node) : list nat :=
  owners_from 0 anno_leaves.

(** What the spec asks of the raw vector at position [i], given the owners
    of the utterances. *)
Definition spec_raw_at (own : list nat) (i : nat) : Z :=
  match i with
  | O => 0
  | S j => if decide (own !! i = own !! j) then 0 else 1
  end.

(** The labels as a function of the owners alone, [prev] being the owner
    of the utterance before. *)
Fixpoint raw_of_owners (prev : nat) (own : list nat) : list Z :=
  match own with
  | [] => []
  | o :: rest => (if (o =? prev)%nat then 0 else 1) :: raw_of_owners o rest
  end.

(** Every leaf carries at least one utterance. *)
Definition leaves_resolved (anno_leaves : list node) : Prop :=
  Forall (fun leaf => Anno.convo leaf <> []) anno_leaves.

(** The raw vector of a meeting is as the spec asks: one label for each
    utterance of the flattened sequence, [0] at position 0, and from then
    on [1] exactly where the owner changes. *)
Definition raw_follows_owners (M : Z) (anno_root : node) : Prop :=
  let anno_leaves := Anno.discover_anno_leaves anno_root in
  let r := compose_meeting_notes M anno_root in
  length (m_raw_transitions r) = length (flattened anno_leaves) /\
  forall i, (i < length (flattened anno_leaves))%nat ->
    m_raw_transitions r !! i = Some (spec_raw_at (owners anno_leaves) i).

End Compose.

End Notes.

(** ** ICSI: token classification and absorption *)

Module ICSI.

(** A word entry, the dict built by [make_word_entry]. *)
Record entry : Type := mk_entry {
  tag : option string;
  lspace : bool;
  rspace : bool;
  text : option string;
  (* keys added once the entry has become an utterance *)
  speaker : option string;
  key : option string;
  composite : option string
}.

Definition set_tag (t : option string) (e : entry) : entry :=
  mk_entry t (lspace e) (rspace e) (text e)
           (speaker e) (key e) (composite e).
Definition set_lspace (b : bool) (e : entry) : entry :=
  mk_entry (tag e) b (rspace e) (text e)
           (speaker e) (key e) (composite e).
Definition set_rspace (b : bool) (e : entry) : entry :=
  mk_entry (tag e) (lspace e) b (text e)
           (speaker e) (key e) (composite e).
Definition set_text (t : option string) (e : entry) : entry :=
  mk_entry (tag e) (lspace e) (rspace e) t
           (speaker e) (key e) (composite e).
Definition set_speaker_key (sp k : string) (e : entry) : entry :=
  mk_entry (tag e) (lspace e) (rspace e) (text e)
           (Some sp) (Some k) (composite e).
Definition set_composite (c : string) (e : entry) : entry :=
  mk_entry (tag e) (lspace e) (rspace e) (text e)
           (speaker e) (key e) (Some c).

(** The state [make_word_entry] works on: the speaker's quote stack,
    which it mutates, and the log. *)
Record state : Type := mk_state {
  quote_stack : list string;
  logged : Py.log
}.

(** [text[0] == "'"]: indexing [None] is a [TypeError], indexing the
    empty string an [IndexError]. *)
Definition first_is_apostrophe (text : option string) : outcome bool :=
  match text with
  | None => Raise TypeError
  | Some EmptyString => Raise IndexError
  | Some (String c _) => Ok (Ascii.eqb c "'"%char)
  end.

(** [text == s] for a [text] that may be [None]. *)
Definition text_is (text : option string) (s : string) : bool :=
  match text with
  | Some t => String.eqb t s
  | None => false
  end.

Definition type_is (word_type : option string) (s : string) : bool :=
  text_is word_type s.

Definition mismatched_quotes : string :=
  "Mismatched quotes. Found closing quote with no opening quote.".

(** [make_word_entry(word_type, text, quote_stack)]. The function calls
    itself on a rewritten type ([W] to [APOSS], [SYM] to [HYPH], [QUOTE]
    to [LQUOTE] or [RQUOTE]); [depth] bounds the nesting of these calls,
    and [RecursionError] is what Python raises beyond its own bound. The
    result is the returned value ([None] for a gap) and the state. *)
Fixpoint make_word_entry_rec (depth : nat) (word_type text : option string)
    (st : state) : outcome (option entry * state) :=
  match depth with
  | O => Raise RecursionError
  | S depth' =>
      let self := make_word_entry_rec depth' in
      let entry := mk_entry word_type true true text None None None in
      if type_is word_type "W" || type_is word_type "TRUNCW" then
        b ← first_is_apostrophe text;
        if b : bool then self (Some "APOSS") text st
        else Ok (Some entry, st)
      else if type_is word_type "ABBR" then Ok (Some entry, st)
      else if type_is word_type "LET" then Ok (Some entry, st)
      else if type_is word_type "CD" then Ok (Some entry, st)
      else if type_is word_type "SYM" then
        if text_is text "-" then self (Some "HYPH") text st
        else Ok (None, st)
      else if type_is word_type "HYPH" then
        Ok (Some (set_rspace false (set_lspace false entry)), st)
      else if type_is word_type "CM" then
        Ok (Some (set_lspace false entry), st)
      else if type_is word_type "." then
        Ok (Some (set_lspace false entry), st)
      else if type_is word_type "APOSS" then
        Ok (Some (set_lspace false entry), st)
      else if type_is word_type "LQUOTE" then
        if text_is text "'" then
          Ok (Some (set_rspace false (set_lspace false
                      (set_tag (Some "APOSS") entry))), st)
        else
          Ok (Some (set_rspace false entry),
              mk_state (quote_stack st ++ ["LEFT"]) (logged st))
      else if type_is word_type "RQUOTE" then
        if text_is text "'" then
          Ok (Some (set_rspace false (set_lspace false
                      (set_tag (Some "APOSS") entry))), st)
        else
          let entry := set_lspace false entry in
          match quote_stack st with
          | [] =>
              Ok (Some entry,
                  mk_state (quote_stack st)
                           (logged st ++ [(Py.Error, mismatched_quotes)]))
          | _ :: _ =>
              Ok (Some entry,
                  mk_state (removelast (quote_stack st)) (logged st))
          end
      else if type_is word_type "QUOTE" then
        if text_is text "'" then
          Ok (Some (set_rspace false (set_lspace false
                      (set_tag (Some "APOSS") entry))), st)
        else
          match quote_stack st with
          | [] => self (Some "LQUOTE") text st
          | _ :: _ => self (Some "RQUOTE") text st
          end
      else
        match word_type with
        | None => Ok (None, st)
        | Some ty => Raise (UnsupportedType ty)
        end
  end.

(** No chain of self-calls is longer than two. *)
Definition make_word_entry : option string -> option string -> state ->
    outcome (option entry * state) :=
  make_word_entry_rec 2.

(** A speaker's word file once loaded: the entries in file order, [None]
    for a gap, and the position of each key. The entries are objects
    that later code mutates through references, so the list is also the
    store of those objects and a reference is a position in it. *)
Record word_index : Type := mk_word_index {
  words : list (option entry);
  index : gmap string nat
}.

(** The body of the loop over the children of the root of a word file, in
    [load_meeting_words]. *)
Definition load_word (acc : word_index * state) (child : Element)
    : outcome (word_index * state) :=
  let '(wi, st) := acc in
  key ← attr child nite_id;
  let word_type := attrib child !! "c" in
  let text := etext child in
  '(word, st') ← make_word_entry word_type text st;
  let words' := words wi ++ [word] in
  Ok (mk_word_index words' (<[key := (length words' - 1)%nat]> (index wi)),
      st').

Fixpoint load_words (acc : word_index * state) (l : list Element)
    : outcome (word_index * state) :=
  match l with
  | [] => Ok acc
  | child :: rest => acc' ← load_word acc child; load_words acc' rest
  end.

(** [load_meeting_words] for one speaker whose word file is [root]: the
    quote stack starts empty, and the two assertions close the loop. *)
Definition load_speaker_words (root : Element) (lg : Py.log)
    : outcome (word_index * Py.log) :=
  '(wi, st) ← load_words (mk_word_index [] ∅, mk_state [] lg)
                          (children root);
  if negb (length (words wi) =? length (children root))%nat
  then Raise AssertionError
  else if negb (size (index wi) =? length (children root))%nat
  then Raise AssertionError
  else Ok (wi, logged st).

(** [load_meeting_words(meeting)]: speakers without a word file are
    skipped with a warning. *)
Section LoadWords.
Variable word_dir : string.
Variable fs : files.

Definition words_xml_fnm (meeting speaker : string) : string :=
  word_dir +:+ "/" +:+ meeting +:+ "." +:+ speaker +:+ ".words.xml".

Fixpoint load_meeting_words_from (meeting : string)
    (speakers : list string) (meeting_words : gmap string word_index)
    (lg : Py.log) : outcome (gmap string word_index * Py.log) :=
  match speakers with
  | [] => Ok (meeting_words, lg)
  | speaker :: rest =>
      match fs !! words_xml_fnm meeting speaker with
      | None =>
          load_meeting_words_from meeting rest meeting_words
            (lg ++ [(Py.Warning,
                     "File not found: " +:+ words_xml_fnm meeting speaker
                     +:+ " => Skipping")])
      | Some root =>
          '(wi, lg') ← load_speaker_words root lg;
          load_meeting_words_from meeting rest
            (<[speaker := wi]> meeting_words) lg'
      end
  end.

Definition load_meeting_words (meeting : string) (speakers : list string)
    (lg : Py.log) : outcome (gmap string word_index * Py.log) :=
  load_meeting_words_from meeting speakers ∅ lg.
End LoadWords.

(** [absorb_token(utterance, token)]. Both arguments are references into
    the word store [heap]; the first may be [None]. The utterance object
    is updated in place and returned. *)
Definition absorb_token (heap : list (option entry))
    (utterance : option nat) (token : nat)
    : outcome (list (option entry) * nat) :=
  match utterance with
  | None => Ok (heap, token)
  | Some u =>
      match heap !! u, heap !! token with
      | Some (Some U), Some (Some T) =>
          let spaced := rspace U && lspace T in
          let suffix := if spaced then " " else EmptyString in
          suffix ← match text T with
                   | Some t => Ok (suffix +:+ t)
                   | None => Raise TypeError
                   end;
          text' ← match text U with
                  | Some t => Ok (t +:+ suffix)
                  | None => Raise TypeError
                  end;
          Ok (<[u := Some (set_rspace (rspace T) (set_text (Some text') U))]>
                heap, u)
      | _, _ => Raise TypeError
      end
  end.

(** The loop [for t in range(start_idx, end_idx+1)] of
    [load_meeting_utterances], over the positions [ts]. *)
Fixpoint absorb_range (heap : list (option entry)) (utterance : option nat)
    (ts : list nat) : outcome (list (option entry) * option nat) :=
  match ts with
  | [] => Ok (heap, utterance)
  | t :: rest =>
      match heap !! t with
      | None => Raise IndexError
      | Some None => absorb_range heap utterance rest
      | Some (Some _) =>
          '(heap', u) ← absorb_token heap utterance t;
          absorb_range heap' (Some u) rest
      end
  end.

(** [range(a, b+1)]. *)
Definition range_incl (a b : nat) : list nat := seq a (b + 1 - a).

Section Utterances.
(** [strip_key] comes from [data_utils], which is not part of the
    sources at hand; it is a parameter. *)
Variable strip_key : string -> string.

(** [start_key, end_key] of a segment, from the [href] of its first
    child. *)
Definition word_range_keys (word_range : string)
    : outcome (string * string) :=
  if Py.contains ".." word_range then
    match Py.split ".." word_range with
    | [start_key; end_key] => Ok (strip_key start_key, strip_key end_key)
    | _ => Raise ValueError
    end
  else Ok (strip_key word_range, strip_key word_range).

Definition lookup_index (wi : word_index) (k : string) : outcome nat :=
  match index wi !! k with
  | Some i => Ok i
  | None => Raise (KeyError k)
  end.

(** [float] on a string is a builtin that raises [ValueError] on a string
    that is no numeral; which strings it accepts is a parameter. *)
Variable is_float : string -> bool.

(** [float(s) if s else None] for an attribute [s]: [true] stands for a
    float and [false] for [None]. *)
Definition float_or_none (s : string) : outcome bool :=
  if String.eqb s EmptyString then Ok false
  else if is_float s then Ok true
  else Raise ValueError.

(** The body of the loop over [segs], for one speaker. [utterances]
    holds references into the store. A segment without children is
    passed over before anything is read from it. The two time attributes
    are read next to the id, so that a segment without them is a
    [KeyError]. Once the range has composed an utterance, the times are
    converted: a time that is no numeral is a [ValueError], and with both
    times empty [utterance["start"] + 1.0] adds to [None], a
    [TypeError]. The floats themselves are written to the fields [start]
    and [end] of the utterance, which the record does not carry. *)
Definition load_segment (speaker : string)
    (acc : word_index * list nat) (seg : Element)
    : outcome (word_index * list nat) :=
  let '(wi, utterances) := acc in
  match children seg with
  | [] => Ok acc
  | first :: _ =>
      seg_id ← attr seg nite_id;
      seg_start ← attr seg "starttime";
      seg_end ← attr seg "endtime";
      href ← attr first "href";
      let word_range := List.last (Py.split "#" href) EmptyString in
      '(start_key, end_key) ← word_range_keys word_range;
      start_idx ← lookup_index wi start_key;
      end_idx ← lookup_index wi end_key;
      '(heap, utterance) ←
        absorb_range (words wi) None (range_incl start_idx end_idx);
      match utterance with
      | None => Ok (mk_word_index heap (index wi), utterances)
      | Some u =>
          match heap !! u with
          | Some (Some U) =>
              has_start ← float_or_none seg_start;
              has_end ← float_or_none seg_end;
              if negb has_end && negb has_start then Raise TypeError
              else
                Ok (mk_word_index
                      (<[u := Some (set_speaker_key speaker seg_id U)]> heap)
                      (index wi),
                    utterances ++ [u])
          | _ => Raise TypeError
          end
      end
  end.

Fixpoint load_segments (speaker : string) (acc : word_index * list nat)
    (segs : list Element) : outcome (word_index * list nat) :=
  match segs with
  | [] => Ok acc
  | seg :: rest =>
      acc' ← load_segment speaker acc seg;
      load_segments speaker acc' rest
  end.

(** The segments of a segment file: the children of a supersegment
    stand for it. *)
Definition collect_segs (root : Element) : list Element :=
  flat_map (fun child =>
              if text_is (attrib child !! "type") "supersegment"
              then children child else [child])
           (children root).

(** [load_meeting_utterances] for one speaker with segment file
    [root]. *)
Definition load_speaker_utterances (speaker : string) (wi : word_index)
    (root : Element) : outcome (word_index * list nat) :=
  load_segments speaker (wi, []) (collect_segs root).

End Utterances.

(** *** Absorb-all composition, as the spec words it

    The text of a token range is the concatenation of the texts of its
    non-gap tokens, with a single space wherever the right-space flag of
    the token before and the left-space flag of the token both hold. *)

Definition text_of (e : entry) : string := default EmptyString (text e).

Fixpoint spec_compose_from (prev_rspace : bool) (toks : list entry) : string :=
  match toks with
  | [] => EmptyString
  | t :: rest =>
      (if prev_rspace && lspace t then " " else EmptyString)
      +:+ text_of t +:+ spec_compose_from (rspace t) rest
  end.

Definition spec_compose (toks : list entry) : string :=
  match toks with
  | [] => EmptyString
  | t :: rest => text_of t +:+ spec_compose_from (rspace t) rest
  end.

(** The non-gap tokens at the positions [ts] of a word store. *)
Definition non_gap (heap : list (option entry)) (ts : list nat) : list entry :=
  omap (fun t => mjoin (heap !! t)) ts.

(** *** The annotation tree of a meeting *)

#[global] Instance entry_utterance : Notes.Utterance entry := {
  utt_text := text;
  utt_set_composite := set_composite
}.

Abbreviation node := (Anno.AnnoTreeNode entry).

Definition is_utterance (child : node) : bool :=
  String.eqb (Anno.tag child) "utterance".

(** The inner loop of [normalize_anno_tree]:
<<
    while nn and nn[0].tag=="utterance":
        composed_topic_keys.append(nn.pop(0).key)
>>
    It returns the keys popped and what is left of [nn]. *)
Fixpoint pop_utterances (nn : list node) : list string * list node :=
  match nn with
  | [] => ([], [])
  | child :: rest =>
      if is_utterance child then
        let '(ks, nn') := pop_utterances rest in (Anno.key child :: ks, nn')
      else ([], nn)
  end.

(** The synthetic leaf made of a run of utterance children. *)
Definition composed_topic (path : string) (branch_id : nat)
    (composed_topic_keys : list string) : node :=
  Anno.mkNode "topic" EmptyString composed_topic_keys []
              (path +:+ "." +:+ Py.str branch_id) true [] true.

(** [normalize_anno_tree(path, node, anno_index)], and its loop
    [while nn]. [fuel] bounds the number of calls and iterations; running
    out of it is reported as [RecursionError]. *)
Fixpoint normalize_anno_tree (fuel : nat) (path : string) (node0 : node)
    (anno_index : gset string) {struct fuel}
    : outcome (node * gset string) :=
  match fuel with
  | O => Raise RecursionError
  | S fuel' =>
      let nn := Anno.nn node0 in
      let node1 := Anno.set_path path node0 in
      anno_index ← Anno.register_anno_node anno_index node1;
      let node2 := Anno.set_is_leaf (forallb is_utterance nn) node1 in
      normalize_loop fuel' path node2 nn [] 0 anno_index
  end
with normalize_loop (fuel : nat) (path : string) (node0 : node)
    (nn normalized_nn : list node) (branch_id : nat)
    (anno_index : gset string) {struct fuel}
    : outcome (node * gset string) :=
  match fuel with
  | O => Raise RecursionError
  | S fuel' =>
      match nn with
      | [] => Ok (Anno.set_nn normalized_nn node0, anno_index)
      | first :: rest =>
          if is_utterance first then
            let '(composed_topic_keys, nn') := pop_utterances nn in
            if Anno.is_leaf node0 then
              Ok (Anno.set_nn [] (Anno.set_keys composed_topic_keys node0),
                  anno_index)
            else
              let topic_node := composed_topic path branch_id
                                  composed_topic_keys in
              anno_index ← Anno.register_anno_node anno_index topic_node;
              normalize_loop fuel' path node0 nn'
                (normalized_nn ++ [topic_node]) (S branch_id) anno_index
          else
            '(child, anno_index) ←
              normalize_anno_tree fuel'
                (path +:+ "." +:+ Py.str branch_id) first anno_index;
            normalize_loop fuel' path (Anno.set_is_leaf false node0) rest
              (normalized_nn ++ [child]) (S branch_id) anno_index
      end
  end.

(** Fuel that is enough for a tree. *)
Definition normalize_fuel (n : node) : nat := 2 * Anno.size n.

(** *** Resolution of the utterance keys of the leaves *)

(** [self.index[meeting]]: for each speaker, the utterances by key. *)
Definition meeting_index : Type := gmap string (gmap string entry).

Record attach_state : Type := mk_attach_state {
  duplicate_check_list : gmap string string;
  attach_log : Py.log
}.

Record resolved : Type := mk_resolved {
  filtered_keys : list string;
  r_convo : list entry
}.

(** The body of the loop over [leaf.keys] in [attach_meeting_notes]. *)
Definition attach_key (index : meeting_index) (leaf_path : string)
    (acc : resolved * attach_state) (key : string)
    : outcome (resolved * attach_state) :=
  let '(r, st) := acc in
  match Py.split ":" key with
  | [speaker; utt_key] =>
      match index !! speaker with
      | None => Raise (KeyError speaker)
      | Some utts =>
          match utts !! utt_key with
          | None => Ok acc
          | Some utt =>
              let lg :=
                match duplicate_check_list st !! key with
                | Some other =>
                    attach_log st ++
                      [(Py.Warning,
                        "Duplicate key: " +:+ key +:+ " " +:+ leaf_path
                        +:+ " and " +:+ other)]
                | None => attach_log st
                end in
              Ok (mk_resolved (filtered_keys r ++ [key]) (r_convo r ++ [utt]),
                  mk_attach_state
                    (<[key := leaf_path]> (duplicate_check_list st)) lg)
          end
      end
  | _ => Raise ValueError
  end.

Fixpoint attach_keys (index : meeting_index) (leaf_path : string)
    (acc : resolved * attach_state) (ks : list string)
    : outcome (resolved * attach_state) :=
  match ks with
  | [] => Ok acc
  | key :: rest =>
      acc' ← attach_key index leaf_path acc key;
      attach_keys index leaf_path acc' rest
  end.

(** The body of the loop over the leaves: the leaf with its keys and
    utterances replaced. *)
Definition attach_leaf (index : meeting_index) (st : attach_state)
    (leaf : node) : outcome (node * attach_state) :=
  '(r, st') ← attach_keys index (Anno.path leaf) (mk_resolved [] [], st)
                          (Anno.keys leaf);
  Ok (Anno.set_convo (r_convo r) (Anno.set_keys (filtered_keys r) leaf), st').

Fixpoint attach_leaves (index : meeting_index) (st : attach_state)
    (anno_leaves : list node) : outcome (list node * attach_state) :=
  match anno_leaves with
  | [] => Ok ([], st)
  | leaf :: rest =>
      '(leaf', st') ← attach_leaf index st leaf;
      '(rest', st'') ← attach_leaves index st' rest;
      Ok (leaf' :: rest', st'')
  end.

(** A key that [attach_key] can read: it splits at its colon into a speaker
    of the meeting and an utterance key. *)
Definition key_readable (index : meeting_index) (key : string) : Prop :=
  exists speaker utt_key,
    Py.split ":" key = [speaker; utt_key] /\ is_Some (index !! speaker).

(** A key that resolves to an utterance of the meeting. *)
Definition resolves (index : meeting_index) (key : string) : bool :=
  match Py.split ":" key with
  | [speaker; utt_key] =>
      match index !! speaker with
      | Some utts => bool_decide (is_Some (utts !! utt_key))
      | None => false
      end
  | _ => false
  end.

(** How many claims of a sequence repeat a key claimed before, [seen]
    holding the keys claimed so far. *)
Fixpoint repeated_claims (seen : gset string) (claims : list string) : nat :=
  match claims with
  | [] => 0
  | k :: rest =>
      ((if decide (k ∈ seen) then 1 else 0)
       + repeated_claims ({[k]} ∪ seen) rest)%nat
  end.

(** The claims that a leaf makes good: its keys that resolve, each with
    the path of the leaf. *)
Definition leaf_claims (index : meeting_index) (leaf : node)
    : list (string * string) :=
  map (fun key => (Anno.path leaf, key))
      (List.filter (resolves index) (Anno.keys leaf)).

(** The last claimant of every key once a sequence of claims is through,
    [seen] holding the claimants so far. *)
Definition claimants (seen : gmap string string)
    (claims : list (string * string)) : gmap string string :=
  fold_left (fun m c => <[c.2 := c.1]> m) claims seen.

(** The warnings that a sequence of claims calls for: one for each claim
    of a key that has a claimant, naming the key, the path of the claiming
    leaf and the path of the claimant before it. *)
Fixpoint claim_warnings (seen : gmap string string)
    (claims : list (string * string)) : Py.log :=
  match claims with
  | [] => []
  | (leaf_path, key) :: rest =>
      match seen !! key with
      | Some other =>
          [(Py.Warning,
            "Duplicate key: " +:+ key +:+ " " +:+ leaf_path
            +:+ " and " +:+ other)]
      | None => []
      end ++ claim_warnings (<[key := leaf_path]> seen) rest
  end.

(** [attach_meeting_notes(meeting, anno_root)], as far as the leaves go:
    the leaves in discovery order, after resolution, and the log. *)
Definition attach_meeting_notes (index : meeting_index) (anno_root : node)
    : outcome (list node * attach_state) :=
  attach_leaves index (mk_attach_state ∅ [])
                (Anno.discover_anno_leaves anno_root).

(** The leaves are objects of the tree, and [attach_meeting_notes] writes
    their keys and utterances in place. In the model the new keys and
    utterances are written back to the leaves of the tree in the order of
    discovery, which is pre-order: [new] holds the leaves still to be
    written. *)
Fixpoint write_back (n : node) (new : list node) {struct n}
    : node * list node :=
  let '(n1, new1) :=
    if Anno.is_leaf n then
      match new with
      | x :: rest =>
          (Anno.set_convo (Anno.convo x) (Anno.set_keys (Anno.keys x) n), rest)
      | [] => (n, [])
      end
    else (n, new) in
  let '(children, new2) :=
    (fix write_children (l : list node) (new : list node)
       : list node * list node :=
       match l with
       | [] => ([], new)
       | c :: rest =>
           let '(c', new') := write_back c new in
           let '(rest', new'') := write_children rest new' in
           (c' :: rest', new'')
       end) (Anno.nn n) new1 in
  (Anno.set_nn children n1, new2).

(** The same for a list of children, one after the other. *)
Fixpoint write_children (l : list node) (new : list node)
    : list node * list node :=
  match l with
  | [] => ([], new)
  | c :: rest =>
      let '(c', new') := write_back c new in
      let '(rest', new'') := write_children rest new' in
      (c' :: rest', new'')
  end.

(** What writing back establishes: the paths and leaf marks stay, the
    shape of the paths stays, [rest] is [new] without the leaves written,
    and a leaf has as many keys as utterances if the written leaves
    do. *)
Definition keys_match (x : node) : Prop :=
  length (Anno.keys x) = length (Anno.convo x).

Definition leaf_keys_match (x : node) : Prop :=
  Anno.is_leaf x = true -> keys_match x.

Definition written (n n' : node) (new rest : list node) : Prop :=
  Anno.path n' = Anno.path n /\
  Anno.is_leaf n' = Anno.is_leaf n /\
  (Forall Anno.children_extend (Anno.nodes n) ->
   Forall Anno.children_extend (Anno.nodes n')) /\
  (length rest + length (Anno.preorder_leaves n) = length new)%nat /\
  Forall keys_match rest /\
  Forall leaf_keys_match (Anno.nodes n').

Definition written_children (l l' : list node) (new rest : list node) : Prop :=
  Forall2 (fun c' c => Anno.path c' = Anno.path c) l' l /\
  (Forall (fun c => Forall Anno.children_extend (Anno.nodes c)) l ->
   Forall (fun c' => Forall Anno.children_extend (Anno.nodes c')) l') /\
  (length rest + length (flat_map Anno.preorder_leaves l) = length new)%nat /\
  Forall keys_match rest /\
  Forall leaf_keys_match (flat_map Anno.nodes l').

(** The tree after [attach_meeting_notes], and the log. *)
Definition attach_meeting_notes_tree (index : meeting_index)
    (anno_root : node) : outcome (node * Py.log) :=
  '(leaves', st) ← attach_meeting_notes index anno_root;
  Ok (fst (write_back anno_root leaves'), attach_log st).

(** *** Finalization *)

(** [get_parent_path(path)]. *)
Definition get_parent_path (path : string) : string :=
  Py.join "." (removelast (Py.split "." path)).

(** [parent.nn = [node for node in parent.nn if node.path!=path]], where
    [parent] is the object the index holds under [parent_path]: the node
    of the tree that was registered with that path. *)
Fixpoint prune (parent_path path : string) (n : node) {struct n} : node :=
  let children := map (prune parent_path path) (Anno.nn n) in
  Anno.set_nn
    (if String.eqb (Anno.path n) parent_path
     then List.filter (fun c => negb (String.eqb (Anno.path c) path)) children
     else children)
    n.

(** Two nodes that agree on everything but their children, and the nodes
    of a tree below its root. *)
Definition same_payload (x' x : node) : Prop :=
  Anno.path x' = Anno.path x /\ Anno.is_leaf x' = Anno.is_leaf x /\
  Anno.keys x' = Anno.keys x /\ Anno.convo x' = Anno.convo x.

Definition inner (n : node) : list node := flat_map Anno.nodes (Anno.nn n).

(** The node of a tree that carries a path, the first in pre-order. *)
Definition node_at (p : string) (n : node) : option node :=
  List.find (fun x => String.eqb (Anno.path x) p) (Anno.nodes n).

Record tree_state : Type := mk_tree_state {
  ts_index : gset string;
  ts_root : node;
  ts_log : Py.log
}.

(** [delete_anno_leaf(anno_index, path)]: both lookups in the index can
    be a [KeyError]. *)
Definition delete_anno_leaf (st : tree_state) (path : string)
    : outcome tree_state :=
  let lg := ts_log st ++ [(Py.Info, "Deleting " +:+ path)] in
  if decide (path ∈ ts_index st) then
    let parent_path := get_parent_path path in
    if decide (parent_path ∈ ts_index st) then
      let root := prune parent_path path (ts_root st) in
      let lg :=
        match node_at parent_path root with
        | Some parent =>
            match Anno.nn parent with
            | [] => lg ++ [(Py.Error,
                            "Unsupported case: Parent node now has no children.")]
            | _ :: _ => lg
            end
        | None => lg
        end in
      Ok (mk_tree_state (ts_index st ∖ {[path]}) root lg)
    else Raise (KeyError parent_path)
  else Raise (KeyError path).

(** The loop of [finalize_anno_tree] over the leaves found before any
    deletion. *)
Fixpoint delete_empty_leaves (st : tree_state) (anno_leaves : list node)
    : outcome tree_state :=
  match anno_leaves with
  | [] => Ok st
  | leaf :: rest =>
      match Anno.keys leaf with
      | [] =>
          st' ← delete_anno_leaf st (Anno.path leaf);
          delete_empty_leaves st' rest
      | _ :: _ => delete_empty_leaves st rest
      end
  end.

(** [finalize_anno_tree(anno_index, anno_root)]. *)
Definition finalize_anno_tree (anno_index : gset string) (anno_root : node)
    (lg : Py.log) : outcome tree_state :=
  delete_empty_leaves (mk_tree_state anno_index anno_root lg)
                      (Anno.discover_anno_leaves anno_root).

(** The body of the loop of [load_anno_tree] for one meeting, from the
    tree [built] that [build_anno] returns. *)
Definition load_anno_tree (index : meeting_index) (built : node)
    : outcome tree_state :=
  '(anno_root, anno_index) ←
    normalize_anno_tree (normalize_fuel built) "*" built ∅;
  '(anno_root, lg) ← attach_meeting_notes_tree index anno_root;
  finalize_anno_tree anno_index anno_root lg.

End ICSI.

(** ** AMI: utterances and the annotation tree *)

Module AMI.

(** A word of a speaker's word file, as [load_meeting_words] stores it:
    the stripped text and the two spacing flags. *)
Record word : Type := mk_word {
  text : string;
  lspace : bool;
  rspace : bool
}.

Record word_index : Type := mk_word_index {
  words : list (option word);
  index : gmap string nat
}.

Record utterance : Type := mk_utterance {
  u_key : string;
  u_speaker : string;
  u_meeting : string;
  u_text : string;
  u_composite : option string
}.

#[global] Instance utterance_utterance : Notes.Utterance utterance := {
  utt_text := fun u => Some (u_text u);
  utt_set_composite := fun c u =>
    mk_utterance (u_key u) (u_speaker u) (u_meeting u) (u_text u) (Some c)
}.

Abbreviation node := (Anno.AnnoTreeNode utterance).

(** The loop of [mint_utterance] over [utt_words]. *)
Fixpoint mint_text (utt_text : string) (rspace0 : bool) (utt_words : list word)
    : string :=
  match utt_words with
  | [] => utt_text
  | w :: rest =>
      let utt_text := if lspace w && rspace0 then utt_text +:+ " "
                      else utt_text in
      mint_text (utt_text +:+ text w) (rspace w) rest
  end.

(** [mint_utterance(utt_content, speaker, meeting, utt_words)];
    [utt_words[0]] is an [IndexError] on an empty list. *)
Definition mint_utterance (utt_content speaker meeting : string)
    (utt_words : list word) : outcome utterance :=
  let utt_text := mint_text EmptyString false utt_words in
  match utt_words with
  | [] => Raise IndexError
  | _ :: _ => Ok (mk_utterance utt_content speaker meeting utt_text None)
  end.

(** [text[-1] in [".", "!", "?"]]. *)
Definition ends_sentence (text : string) : outcome bool :=
  match rev (list_ascii_of_string text) with
  | [] => Raise IndexError
  | c :: _ =>
      Ok (Ascii.eqb c "."%char || Ascii.eqb c "!"%char || Ascii.eqb c "?"%char)
  end.

Section Segments.
Variable strip_key : string -> string.
(** [self.words]: by meeting, then by speaker. *)
Variable all_words : gmap string (gmap string word_index).

Definition lookup_index (wi : word_index) (k : string) : outcome nat :=
  match index wi !! k with
  | Some i => Ok i
  | None => Raise (KeyError k)
  end.

(** The loop [for i in range(start_idx, end_idx + 1)] of
    [segment_to_utterances], over the positions [ts]: the utterances
    minted so far and the words of the open one. *)
Fixpoint split_range (utt_content speaker meeting : string)
    (wi : word_index) (ts : list nat)
    (utterances : list utterance) (utt_words : list word)
    : outcome (list utterance * list word) :=
  match ts with
  | [] => Ok (utterances, utt_words)
  | i :: rest =>
      match words wi !! i with
      | None => Raise IndexError
      | Some None =>
          split_range utt_content speaker meeting wi rest utterances utt_words
      | Some (Some w) =>
          let utt_words := utt_words ++ [w] in
          b ← ends_sentence (text w);
          if b : bool then
            u ← mint_utterance utt_content speaker meeting utt_words;
            split_range utt_content speaker meeting wi rest
                        (utterances ++ [u]) []
          else
            split_range utt_content speaker meeting wi rest
                        utterances utt_words
      end
  end.

(** The body of the loop over [entries]. *)
Definition segment_entry (utterances : list utterance) (entry : Element)
    : outcome (list utterance) :=
  href ← attr entry "href";
  match Py.split "#" href with
  | [meta; utt_content] =>
      match Py.split "." meta with
      | meeting :: speaker :: _ =>
          match all_words !! meeting with
          | None => Raise (KeyError meeting)
          | Some by_speaker =>
              match by_speaker !! speaker with
              | None => Raise (KeyError speaker)
              | Some wi =>
                  if Py.contains ".." utt_content then
                    match Py.split ".." utt_content with
                    | [start_word; end_word] =>
                        start_idx ← lookup_index wi (strip_key start_word);
                        end_idx ← lookup_index wi (strip_key end_word);
                        '(utterances, utt_words) ←
                          split_range utt_content speaker meeting wi
                            (seq start_idx (end_idx + 1 - start_idx))
                            utterances [];
                        match utt_words with
                        | [] => Ok utterances
                        | _ :: _ =>
                            u ← mint_utterance utt_content speaker meeting
                                               utt_words;
                            Ok (utterances ++ [u])
                        end
                    | _ => Raise ValueError
                    end
                  else
                    word_idx ← lookup_index wi (strip_key utt_content);
                    match words wi !! word_idx with
                    | None => Raise IndexError
                    | Some None => Ok utterances
                    | Some (Some w) =>
                        Ok (utterances ++
                            [mk_utterance utt_content speaker meeting
                                          (text w) None])
                    end
              end
          end
      | _ => Raise IndexError
      end
  | _ => Raise ValueError
  end.

Fixpoint segment_entries (utterances : list utterance)
    (entries : list Element) : outcome (list utterance) :=
  match entries with
  | [] => Ok utterances
  | entry :: rest =>
      utterances ← segment_entry utterances entry;
      segment_entries utterances rest
  end.

(** [segment_to_utterances(entries)]: the keys and the utterances, each
    with its composite line. *)
Definition segment_to_utterances (entries : list Element)
    : outcome (list string * list utterance) :=
  utterances ← segment_entries [] entries;
  let utterances :=
    map (fun u => Notes.utt_set_composite (Notes.compose_utterance u) u)
        utterances in
  Ok (map u_key utterances, utterances).

(** The inner loop of [build_anno]:
<<
    while children and "child" in children[0].tag:
        segments.append(children.pop(0))
>> *)
Fixpoint pop_segments (children : list Element)
    : list Element * list Element :=
  match children with
  | [] => ([], [])
  | c :: rest =>
      if Py.contains "child" (etag c) then
        let '(segs, children') := pop_segments rest in (c :: segs, children')
      else ([], children)
  end.

Definition node_tag (xml_node : Element) (is_leaf : bool) : string :=
  if Py.contains "root" (etag xml_node) then "root"
  else if is_leaf then "leaf" else "topic".

(** [build_anno(anno_index, path, xml_node)] and its loop
    [while children]. [fuel] bounds the number of calls and iterations;
    running out of it is reported as [RecursionError]. *)
Fixpoint build_anno (fuel : nat) (anno_index : gset string) (path : string)
    (xml_node : Element) {struct fuel} : outcome (node * gset string) :=
  match fuel with
  | O => Raise RecursionError
  | S fuel' =>
      let anno_node : node := Anno.set_path path Anno.fresh in
      anno_index ← Anno.register_anno_node anno_index anno_node;
      let children := Xml.children xml_node in
      let is_leaf := negb (existsb (fun child => String.eqb (etag child) "topic")
                                   children) in
      let anno_node :=
        Anno.set_tag (node_tag xml_node is_leaf)
                     (Anno.set_is_leaf is_leaf anno_node) in
      '(anno_node, anno_index) ←
        build_loop fuel' anno_index xml_node anno_node 0 children;
      if Anno.is_leaf anno_node &&
         match Anno.keys anno_node with [] => true | _ => false end
      then Raise (NodeNoKeys (etag xml_node))
      else Ok (anno_node, anno_index)
  end
with build_loop (fuel : nat) (anno_index : gset string) (xml_node : Element)
    (anno_node : node) (branch_id : nat) (children : list Element)
    {struct fuel} : outcome (node * gset string) :=
  match fuel with
  | O => Raise RecursionError
  | S fuel' =>
      match children with
      | [] => Ok (anno_node, anno_index)
      | first :: rest =>
          if Py.contains "pointer" (etag first) then
            build_loop fuel' anno_index xml_node anno_node branch_id rest
          else if Py.contains "topic" (etag first) then
            let nn_path := Anno.path anno_node +:+ "." +:+ Py.str branch_id in
            '(child, anno_index) ← build_anno fuel' anno_index nn_path first;
            build_loop fuel' anno_index xml_node
              (Anno.set_nn (Anno.nn anno_node ++ [child]) anno_node)
              (S branch_id) rest
          else if Py.contains "child" (etag first) then
            let '(segments, children') := pop_segments children in
            '(keys, convo) ← segment_to_utterances segments;
            match keys with
            | [] => Raise (NodeNoKeys (etag xml_node))
            | _ :: _ =>
                if negb (Anno.is_leaf anno_node) then
                  let composed_topic : node :=
                    Anno.mkNode "leaf" EmptyString keys []
                      (Anno.path anno_node +:+ "." +:+ Py.str branch_id)
                      true convo false in
                  anno_index ←
                    Anno.register_anno_node anno_index composed_topic;
                  build_loop fuel' anno_index xml_node
                    (Anno.set_nn (Anno.nn anno_node ++ [composed_topic])
                                 anno_node)
                    (S branch_id) children'
                else
                  Ok (Anno.set_convo convo (Anno.set_keys keys anno_node),
                      anno_index)
            end
          else Raise (NonSupportedNodetype (etag first))
      end
  end.

(** Fuel that is enough for a document. *)
Definition build_fuel (xml_node : Element) : nat :=
  2 * Xml.element_count xml_node.

End Segments.

End AMI.

(** ** Sample corpus data *)

Module Samples.

(** A meeting of three leaves with one, three and eight utterances. *)
Definition sample_utterance (k : string) : AMI.utterance :=
  AMI.mk_utterance k "A" "ES2002a" "ok." (Some "-ok.").

Definition sample_leaf (p : string) (n : nat) : AMI.node :=
  Anno.mkNode "leaf" EmptyString (repeat p n) [] p true
              (repeat (sample_utterance p) n) false.

Definition sample_meeting : AMI.node :=
  Anno.mkNode "root" EmptyString []
    [sample_leaf "*.0" 1; sample_leaf "*.1" 3; sample_leaf "*.2" 8]
    "*" false [] false.

(** The raw vector of the smoothing example of the spec. *)
Definition example_raw : list Z := [0; 1; 0; 0; 1; 0; 0; 0; 0; 0; 0; 1].

(** An ICSI word file: a word element with key [i], type [c] and text
    [t]; a non-verbal element has no type and no text. *)
Definition w (i c t : string) : Element :=
  mkElement "w" (<[nite_id := i]> {[ "c" := c ]}) (Some t) [].

Definition nonverbal (i : string) : Element :=
  mkElement "vocalsound" {[ nite_id := i ]} None [].

Definition segment (i href : string) : Element :=
  mkElement "segment"
            (<[nite_id := i]> (<["starttime" := "0.0"]>
                                 {[ "endtime" := "1.5" ]}))
            None
            [mkElement "nite:child" {[ "href" := href ]} None []].

Definition root_of (l : list Element) : Element :=
  mkElement "nite:root" ∅ None l.

(** The words [flag], [-], [sign] and a segment over the three. *)
Definition flag_sign_words : Element :=
  root_of [w "w1" "W" "flag"; w "w2" "HYPH" "-"; w "w3" "W" "sign"].

Definition flag_sign_segs : Element :=
  root_of [segment "s1" "Bed002.A.words.xml#w1..w3"].

(** Two non-verbal elements and a segment over the two. *)
Definition gap_words : Element :=
  root_of [nonverbal "v1"; nonverbal "v2"].

Definition gap_segs : Element :=
  root_of [segment "s1" "Bed002.A.words.xml#v1..v2"].

(** The word index of [gap_words]: two gaps. *)
Definition gap_index : ICSI.word_index :=
  ICSI.mk_word_index [None; None] (<["v1" := 0%nat]> {[ "v2" := 1%nat ]}).

(** A word store with a gap: [so], a gap, a comma and [yes]. *)
Definition so_yes_heap : list (option ICSI.entry) :=
  [Some (ICSI.mk_entry (Some "W") true true (Some "so") None None None);
   None;
   Some (ICSI.mk_entry (Some "CM") false true (Some ",") None None None);
   Some (ICSI.mk_entry (Some "W") true true (Some "yes") None None None)].

(** Key stripping that leaves a key as it is. *)
Definition keep_key (k : string) : string := k.

(** The numerals of the form [12.5], digits on both sides of one point:
    strings that [float] accepts. *)
Definition is_digit (c : ascii) : bool :=
  ((48 <=? nat_of_ascii c) && (nat_of_ascii c <=? 57))%nat.

Fixpoint all_digits (s : string) : bool :=
  match s with
  | EmptyString => true
  | String c rest => is_digit c && all_digits rest
  end.

Definition plain_decimal (s : string) : bool :=
  match Py.split "." s with
  | [a; b] =>
      negb (String.eqb a EmptyString) && all_digits a &&
      negb (String.eqb b EmptyString) && all_digits b
  | _ => false
  end.

(** Load the words of a speaker, then the utterances. *)
Definition load_icsi (words_root segs_root : Element)
    : outcome (ICSI.word_index * list nat) :=
  '(wi, lg) ← ICSI.load_speaker_words words_root [];
  ICSI.load_speaker_utterances keep_key plain_decimal "A" wi segs_root.

(** Two leaves that claim the same utterance key. *)
Definition sample_index : ICSI.meeting_index :=
  {[ "A" := {[ "k1" := ICSI.mk_entry (Some "W") true true (Some "hello")
                                     (Some "A") (Some "k1") None ]} ]}.

Definition claiming_leaf (p : string) : ICSI.node :=
  Anno.mkNode "topic" EmptyString ["A:k1"] [] p true [] true.

Definition sample_claims : ICSI.node :=
  Anno.mkNode "root" EmptyString [] [claiming_leaf "*.0"; claiming_leaf "*.1"]
              "*" false [] false.

(** An AMI meeting: four word slots of speaker [A], the third a gap, and
    a topic document with a root, one pointer, one topic of two segment
    references and a run of one reference directly under the root. *)
Definition ami_words : gmap string (gmap string AMI.word_index) :=
  {[ "ES2002a" :=
       {[ "A" := AMI.mk_word_index
                   [Some (AMI.mk_word "Hello" true true);
                    Some (AMI.mk_word "there." true true);
                    None;
                    Some (AMI.mk_word "Bye" true true)]
                   (<["w0" := 0%nat]> (<["w1" := 1%nat]>
                      (<["w2" := 2%nat]> {[ "w3" := 3%nat ]}))) ]} ]}.

Definition child_ref (href : string) : Element :=
  mkElement "nite:child" {[ "href" := href ]} None [].

Definition ami_topics : Element :=
  mkElement "nite:root" ∅ None
    [mkElement "topic" ∅ None
       [mkElement "nite:pointer" ∅ None [];
        child_ref "ES2002a.A.words.xml#w0..w1";
        child_ref "ES2002a.A.words.xml#w2"];
     child_ref "ES2002a.A.words.xml#w2..w3"].

(** The same document with a run that holds nothing but the gap. *)
Definition ami_gap_topics : Element :=
  mkElement "nite:root" ∅ None
    [mkElement "topic" ∅ None [child_ref "ES2002a.A.words.xml#w2..w2"]].

(** A topic whose run holds a range of two words and a range that is
    nothing but the gap. *)
Definition ami_mixed_topics : Element :=
  mkElement "nite:root" ∅ None
    [mkElement "topic" ∅ None
       [child_ref "ES2002a.A.words.xml#w0..w1";
        child_ref "ES2002a.A.words.xml#w2..w2"]].

(** An ICSI tree as [build_anno] leaves it: utterance placeholders under
    a topic and directly under the root. *)
Definition placeholder (k : string) : ICSI.node :=
  Anno.mkNode "utterance" k [] [] EmptyString false [] false.

(** Utterances of speaker [A] for three of the four keys of the tree
    below. *)
Definition icsi_index : ICSI.meeting_index :=
  {[ "A" :=
       <["k1" := ICSI.mk_entry (Some "W") true true (Some "one")
                               (Some "A") (Some "k1") None]>
       (<["k2" := ICSI.mk_entry (Some "W") true true (Some "two")
                                (Some "A") (Some "k2") None]>
        {[ "k3" := ICSI.mk_entry (Some "W") true true (Some "three")
                                 (Some "A") (Some "k3") None ]}) ]}.

Definition icsi_built : ICSI.node :=
  Anno.mkNode "root" EmptyString []
    [placeholder "A:k1";
     Anno.mkNode "topic" EmptyString []
       [placeholder "A:k2"; placeholder "A:k3"] EmptyString false [] false;
     placeholder "A:k4"]
    EmptyString false [] false.

End Samples.

(** ** Baseline segmenters ([baselines.py]) *)

Module Baselines.

(** What the two baselines can raise. *)
Inductive error : Type :=
| ZeroDivisionError
| IndexError.

Inductive result (A : Type) : Type :=
| Ret (a : A)
| Err (e : error).
Arguments Ret {A} a.
Arguments Err {A} e.

(** [a // b] and [a % b] on integers: both round towards minus infinity,
    as [Z.div] and [Z.modulo] do, and raise on a zero divisor. *)
Definition floordiv (a b : Z) : result Z :=
  if b =? 0 then Err ZeroDivisionError else Ret (a / b).

Definition pymod (a b : Z) : result Z :=
  if b =? 0 then Err ZeroDivisionError else Ret (a mod b).

(** The loop of [EquiSeg.segment_meeting] over [range(len(entries))], on
    the indices [todo]. *)
Fixpoint equi_loop (offset period : Z) (transitions : list Z) (todo : list nat)
    : result (list Z) :=
  match todo with
  | [] => Ret transitions
  | i :: rest =>
      match pymod (Z.of_nat i + offset) period with
      | Err e => Err e
      | Ret r =>
          equi_loop offset period
            (transitions ++ [if r =? 0 then 1 else 0]) rest
      end
  end.

(** [EquiSeg(entries).segment_meeting(K)], for [N = len(entries)]. *)
Definition equi_segment_meeting (N : nat) (K : Z) : result (list Z) :=
  match floordiv (Z.of_nat N) (K - 1) with
  | Err e => Err e
  | Ret period =>
      match floordiv period 2 with
      | Err e => Err e
      | Ret offset => equi_loop offset period [] (seq 0 N)
      end
  end.

(** The loop of [RandomSeg.segment_meeting] over the indices that
    [np.random.choice(N, K-1, replace=False)] has drawn: [transitions[idx]
    = 1] is an [IndexError] beyond the end of the list. *)
Fixpoint random_loop (transitions : list Z) (indices : list nat)
    : result (list Z) :=
  match indices with
  | [] => Ret transitions
  | idx :: rest =>
      if (idx <? length transitions)%nat
      then random_loop (<[idx := 1]> transitions) rest
      else Err IndexError
  end.

(** [RandomSeg(entries).segment_meeting(K)] for [N = len(entries)], given
    the draw [indices]. *)
Definition random_segment_meeting (N : nat) (indices : list nat)
    : result (list Z) :=
  random_loop (repeat 0 N) indices.

End Baselines.

(** ** The evaluation script ([main.py]) *)

Module Main.

(** [true_K = int(sum(transitions)) + 1]. *)
Definition true_K (transitions : list Z) : Z := Py.sum transitions + 1.

Section Run.
Context {U : Type} `{Notes.Utterance U}.

(** [transitions_hat] for [--model equi]: the notes of the meeting are the
    entries of the model, and the smoothed vector gives [true_K]. *)
Definition equi_transitions_hat (M : Z) (anno_root : Anno.AnnoTreeNode U)
    : Baselines.result (list Z) :=
  let r := Notes.compose_meeting_notes M anno_root in
  let entries := Notes.m_notes r in
  let transitions := Notes.m_transitions r in
  Baselines.equi_segment_meeting (length entries) (true_K transitions).

End Run.

End Main.

(** ** Word files of ICSI, seen from outside *)

Module WordFile.

(** The word types [make_word_entry] has a branch for. *)
Definition supported_types : list string :=
  ["W"; "TRUNCW"; "ABBR"; "LET"; "CD"; "SYM"; "HYPH"; "CM"; ".";
   "APOSS"; "LQUOTE"; "RQUOTE"; "QUOTE"].

(** The ids of the children of a word file, in file order; [None] for a
    child without the attribute. *)
Definition ids (root : Element) : list (option string) :=
  map (fun child => attrib child !! nite_id) (children root).

(** Two slots of the word store: both gaps, or both words with the same
    tag and left-space flag. *)
Definition same_word (a b : option ICSI.entry) : Prop :=
  match a, b with
  | None, None => True
  | Some U, Some U' =>
      ICSI.tag U' = ICSI.tag U /\ ICSI.lspace U' = ICSI.lspace U
  | _, _ => False
  end.

(** Two slots that differ at most in the text and the right-space flag
    of the word they hold. *)
Definition same_but_text (a b : option ICSI.entry) : Prop :=
  match a, b with
  | None, None => True
  | Some U, Some U' =>
      ICSI.tag U' = ICSI.tag U /\ ICSI.lspace U' = ICSI.lspace U /\
      ICSI.speaker U' = ICSI.speaker U /\ ICSI.key U' = ICSI.key U /\
      ICSI.composite U' = ICSI.composite U
  | _, _ => False
  end.

(** The position [t] of the store holds a word, not a gap. *)
Definition holds_word (heap : list (option ICSI.entry)) (t : nat) : bool :=
  match heap !! t with
  | Some (Some _) => true
  | _ => false
  end.

(** A segment whose times an utterance can take: both time attributes
    are there, each is empty or a numeral, and they are not both empty. *)
Definition timed (is_float : string -> bool) (seg : Element) : Prop :=
  exists seg_start seg_end,
    attrib seg !! "starttime" = Some seg_start /\
    attrib seg !! "endtime" = Some seg_end /\
    (seg_start = EmptyString \/ is_float seg_start = true) /\
    (seg_end = EmptyString \/ is_float seg_end = true) /\
    (seg_start <> EmptyString \/ seg_end <> EmptyString).

(** The reference [u] points at a word of the store that carries the
    speaker and the id of one of the segments [segs], a segment with
    children and with times that the utterance can take. *)
Definition refers_to_segment (is_float : string -> bool) (speaker : string)
    (segs : list Element) (heap : list (option ICSI.entry)) (u : nat)
    : Prop :=
  exists U seg seg_id,
    heap !! u = Some (Some U) /\ seg ∈ segs /\
    children seg <> [] /\ timed is_float seg /\
    attr seg nite_id = Ok seg_id /\
    ICSI.speaker U = Some speaker /\ ICSI.key U = Some seg_id.

End WordFile.

(** ** The utterance keys of an ICSI annotation tree *)

Module Keys.

(** The keys of the utterance nodes below a node as [build_anno] leaves
    them, in document order: an utterance child gives its key, any other
    child the keys below it. *)
Fixpoint utterance_keys (n : ICSI.node) : list string :=
  flat_map (fun child => if ICSI.is_utterance child then [Anno.key child]
                         else utterance_keys child)
           (Anno.nn n).

(** The utterance of the meeting that a key names, if there is one. *)
Definition utterance_of (index : ICSI.meeting_index) (key : string)
    : option ICSI.entry :=
  match Py.split ":" key with
  | [speaker; utt_key] => index !! speaker ≫= (fun utts => utts !! utt_key)
  | _ => None
  end.

(** The keys that the leaves of a tree hold, leaf after leaf. *)
Definition leaf_keys {U : Type} (n : Anno.AnnoTreeNode U) : list string :=
  flat_map Anno.keys (Anno.preorder_leaves n).

End Keys.

(** ** The shape of a normalized tree *)

Module Shape.

(** A node is marked as a leaf exactly when it has no children. *)
Definition leaf_iff_childless {U : Type} (n : Anno.AnnoTreeNode U) : Prop :=
  Anno.is_leaf n = true <-> Anno.nn n = [].

(** A node below the root of a normalized tree: no utterance placeholder,
    and a leaf exactly when childless. *)
Definition settled (n : ICSI.node) : Prop :=
  ICSI.is_utterance n = false /\ leaf_iff_childless n.

End Shape.

(** ** What the AMI loader mints *)

Module Minted.

(** An utterance minted for one of the entries of a run: its key is the
    fragment of the [href] of the entry, its meeting and speaker are the
    two names before the fragment. *)
Definition minted_from (entries : list Element) (u : AMI.utterance) : Prop :=
  exists entry href meta rest,
    entry ∈ entries /\ attr entry "href" = Ok href /\
    Py.split "#" href = [meta; AMI.u_key u] /\
    Py.split "." meta = AMI.u_meeting u :: AMI.u_speaker u :: rest.

(** The composite line of an utterance is set, a dash before the text. *)
Definition composed_line (u : AMI.utterance) : Prop :=
  AMI.u_composite u = Some ("-" +:+ AMI.u_text u).

(** A node of the tree [build_anno] returns: its keys are the keys of its
    utterances, each utterance has its composite line, and only a leaf
    holds any. *)
Definition carries_own_keys (n : AMI.node) : Prop :=
  Anno.keys n = map AMI.u_key (Anno.convo n) /\
  Forall composed_line (Anno.convo n) /\
  (Anno.is_leaf n = false -> Anno.keys n = []) /\
  Anno.composed n = false.

End Minted.

(** ** Paths that are still free *)

Module Fresh.

(** The path [q] is [p] itself or lies below it. *)
Definition at_or_under (p q : string) : Prop :=
  q = p \/ exists s, q = p +:+ "." +:+ s.

(** Nothing is registered at the path [p] or below it. *)
Definition clear_of (p : string) (idx : gset string) : Prop :=
  forall q, q ∈ idx -> ~ at_or_under p q.

(** Of the paths below [p], only those at or under one of the first [b]
    children of [p] are registered. *)
Definition children_before (p : string) (b : nat) (idx : gset string) : Prop :=
  forall q s, q ∈ idx -> q = p +:+ "." +:+ s ->
  exists b', (b' < b)%nat /\ at_or_under (p +:+ "." +:+ Py.str b') q.

End Fresh.

(** ** The errors of the AMI loader *)

Module Errors.



End Errors.

(** * Properties *)

Local Set Warnings "-clear-no-such-hyp".

(** ** Strings *)

Section StringFacts.

Lemma string_app_nil_r (s : string) : s +:+ EmptyString = s.
Proof.
  induction s as [|a s IH]; [reflexivity|].
  change (String a (s +:+ EmptyString) = String a s). rewrite IH. reflexivity.
Qed.

Lemma string_app_assoc (a b c : string) : (a +:+ b) +:+ c = a +:+ b +:+ c.
Proof.
  induction a as [|x a IH]; [reflexivity|].
  change (String x ((a +:+ b) +:+ c) = String x (a +:+ b +:+ c)).
  rewrite IH. reflexivity.
Qed.

End StringFacts.

(** ** The smoothing loop *)

Section SmoothingFacts.
Import Smoothing.
Variable M : Z.

Lemma sum_from (l : list Z) (a : Z) : fold_left Z.add l a = a + Py.sum l.
Proof.
  unfold Py.sum. revert a.
  induction l as [|x l IHl]; intros a; simpl; [lia|].
  rewrite IHl, (IHl (0 + x)). lia.
Qed.

Lemma sum_cons (x : Z) (l : list Z) : Py.sum (x :: l) = x + Py.sum l.
Proof. unfold Py.sum at 1. simpl. rewrite sum_from. lia. Qed.

Lemma sum_nonneg (l : list Z) : Forall (fun x => 0 <= x) l -> 0 <= Py.sum l.
Proof.
  induction 1 as [|x l Hx _ IH]; [unfold Py.sum; simpl; lia|].
  rewrite sum_cons. lia.
Qed.

Lemma sum_zero_entries (l : list Z) (i : nat) (x : Z) :
  Forall (fun x => 0 <= x) l -> Py.sum l <= 0 -> l !! i = Some x -> x = 0.
Proof.
  intros Hl. revert i.
  induction Hl as [|y l Hy Hl IH]; intros i Hs Hi; [discriminate|].
  rewrite sum_cons in Hs. pose proof (sum_nonneg l Hl).
  destruct i as [|i]; simpl in Hi.
  - injection Hi as <-. lia.
  - apply (IH i); [lia|exact Hi].
Qed.

(** Inside the list, a slice with bounds [0 <= a <= b <= len] is the plain
    window. *)
Lemma slice_window {A} (l : list A) (a b i : nat) :
  (a <= i < b)%nat -> (b <= length l)%nat ->
  Py.slice l (Z.of_nat a) (Z.of_nat b) !! (i - a)%nat = l !! i.
Proof.
  intros Hi Hb. unfold Py.slice, Py.slice_bound.
  destruct (Z.ltb_spec (Z.of_nat a) 0) as [?|_]; [lia|].
  destruct (Z.ltb_spec (Z.of_nat b) 0) as [?|_]; [lia|].
  rewrite !Z.min_l by lia.
  replace (Z.to_nat (Z.of_nat b - Z.of_nat a)) with (b - a)%nat by lia.
  rewrite Nat2Z.id.
  rewrite lookup_take_lt by lia.
  rewrite lookup_drop. f_equal. lia.
Qed.

Lemma smooth_step_length t i : length (smooth_step M t i) = length t.
Proof. unfold smooth_step. destruct (_ >? _); [apply length_insert|reflexivity]. Qed.

Lemma smooth_step_other t i j : i <> j -> smooth_step M t i !! j = t !! j.
Proof.
  intros Hne. unfold smooth_step.
  destruct (_ >? _); [apply list_lookup_insert_ne; exact Hne|reflexivity].
Qed.

Lemma smooth_step_nonneg t i :
  Forall (fun x => 0 <= x) t -> Forall (fun x => 0 <= x) (smooth_step M t i).
Proof.
  intros Ht. unfold smooth_step. destruct (_ >? _); [|exact Ht].
  apply Forall_insert; [exact Ht|lia].
Qed.

Lemma smooth_from_length m k t :
  length (fold_left (smooth_step M) (seq k m) t) = length t.
Proof.
  revert k t. induction m as [|m IH]; intros k t; simpl; [reflexivity|].
  rewrite IH. apply smooth_step_length.
Qed.

(** Iterations from [k] on leave the positions before [k] alone. *)
Lemma smooth_from_before m k t i :
  (i < k)%nat -> fold_left (smooth_step M) (seq k m) t !! i = t !! i.
Proof.
  revert k t. induction m as [|m IH]; intros k t Hi; simpl; [reflexivity|].
  rewrite IH by lia. apply smooth_step_other. lia.
Qed.

Lemma smooth_from_nonneg m k t :
  Forall (fun x => 0 <= x) t ->
  Forall (fun x => 0 <= x) (fold_left (smooth_step M) (seq k m) t).
Proof.
  revert k t. induction m as [|m IH]; intros k t Ht; simpl; [exact Ht|].
  apply IH, smooth_step_nonneg, Ht.
Qed.

(** A boundary that survives at [j] saw an empty window when the loop
    reached [j]. *)
Lemma smooth_survivor_window raw j :
  smooth M raw !! j = Some 1 ->
  Py.sum (Py.slice (fold_left (smooth_step M) (seq 0 j) raw)
                   (Z.of_nat j - M) (Z.of_nat j)) <= 0.
Proof.
  intros Hj.
  assert (Hlt : (j < length raw)%nat).
  { apply lookup_lt_Some in Hj. unfold smooth in Hj.
    rewrite smooth_from_length in Hj. exact Hj. }
  unfold smooth in Hj.
  replace (length raw) with (j + S (length raw - S j))%nat in Hj by lia.
  rewrite seq_app, fold_left_app in Hj. simpl in Hj.
  rewrite smooth_from_before in Hj by lia.
  set (t := fold_left (smooth_step M) (seq 0 j) raw) in *.
  unfold smooth_step in Hj.
  destruct (Z.gtb_spec (Py.sum (Py.slice t (Z.of_nat j - M) (Z.of_nat j))) 0)
    as [Hpos|Hle]; [|lia].
  rewrite list_lookup_insert_eq in Hj; [discriminate|].
  unfold t. rewrite smooth_from_length. exact Hlt.
Qed.

(** What the loop guarantees: a surviving boundary at a position [j >= M]
    has no surviving boundary among the [M] positions before it. *)
Lemma smooth_min_distance raw (i j : nat) :
  Forall (fun x => 0 <= x) raw ->
  1 <= M -> M <= Z.of_nat j -> (i < j)%nat ->
  smooth M raw !! i = Some 1 -> smooth M raw !! j = Some 1 ->
  M < Z.of_nat j - Z.of_nat i.
Proof.
  intros Hraw HM HMj Hij Hi Hj.
  destruct (Z.ltb_spec M (Z.of_nat j - Z.of_nat i)) as [|Hclose]; [assumption|].
  exfalso.
  pose proof (smooth_survivor_window raw j Hj) as Hwin.
  assert (Hlt : (j < length raw)%nat).
  { apply lookup_lt_Some in Hj. unfold smooth in Hj.
    rewrite smooth_from_length in Hj. exact Hj. }
  set (t := fold_left (smooth_step M) (seq 0 j) raw) in *.
  assert (Hti : t !! i = Some 1).
  { unfold smooth in Hi.
    replace (length raw) with (j + (length raw - j))%nat in Hi by lia.
    rewrite seq_app, fold_left_app in Hi. simpl in Hi.
    rewrite smooth_from_before in Hi by lia. exact Hi. }
  assert (Hnn : Forall (fun x => 0 <= x) (Py.slice t (Z.of_nat j - M) (Z.of_nat j))).
  { unfold Py.slice. apply Forall_take, Forall_drop.
    unfold t. apply smooth_from_nonneg, Hraw. }
  assert (Hlen : length t = length raw) by (unfold t; apply smooth_from_length).
  pose proof (slice_window t (Z.to_nat (Z.of_nat j - M)) j i) as Hw.
  rewrite Z2Nat.id in Hw by lia.
  rewrite Hti in Hw.
  specialize (Hw ltac:(lia) ltac:(lia)).
  pose proof (sum_zero_entries _ _ _ Hnn Hwin Hw). lia.
Qed.

End SmoothingFacts.

(** C1 (refuted on the code). The spec asks that any two boundaries left in
    the smoothed vector lie at least [M] positions apart. For a meeting of
    three leaves with one, three and eight utterances and the loaders' own
    [MIN_SEGMENT_SIZE = 10], the boundaries at positions 1 and 4 both
    survive: at [i = 4] the slice [transitions[-6:4]] starts six places
    from the end of the list and is empty. *)
Theorem smoothing_keeps_boundaries_closer_than_minimum :
  let r := Notes.compose_meeting_notes Smoothing.MIN_SEGMENT_SIZE
                                       Samples.sample_meeting in
  Notes.m_raw_transitions r = [0; 1; 0; 0; 1; 0; 0; 0; 0; 0; 0; 0] /\
  Py.slice (Notes.m_raw_transitions r) (4 - Smoothing.MIN_SEGMENT_SIZE) 4 = [] /\
  Notes.m_transitions r !! 1%nat = Some 1 /\
  Notes.m_transitions r !! 4%nat = Some 1 /\
  4 - 1 < Smoothing.MIN_SEGMENT_SIZE.
Proof. vm_compute. repeat split; reflexivity. Qed.

(** C2 (refuted on the code). On the raw vector of the spec's example and
    [M = 10] the code returns [[0,1,0,0,1,0,0,0,0,0,0,0]], which departs
    from the vector the spec prints at index 4 and at index 11, and each
    departure is a defect of the code. At index 4 the slice
    [transitions[-6:4]] starts six places from the end of the list and is
    empty, so the boundary stays, three positions after the one at index
    1. At index 11 the window [transitions[1:11]] reaches back to position
    [i - M] itself: run on a vector whose only boundaries are at 1 and 11,
    exactly [M] apart, the code clears the one at 11 as well, although the
    comment on [MIN_SEGMENT_SIZE] and the distance [j - i >= M] let it
    stand. *)
Theorem smoothing_example_departs_twice :
  Smoothing.smooth 10 Samples.example_raw
  = [0; 1; 0; 0; 1; 0; 0; 0; 0; 0; 0; 0] /\
  Smoothing.smooth 10 Samples.example_raw
  <> [0; 1; 0; 0; 0; 0; 0; 0; 0; 0; 0; 1] /\
  Py.slice Samples.example_raw (4 - 10) 4 = [] /\
  4 - 1 < 10 /\
  Py.slice [0; 1; 0; 0; 0; 0; 0; 0; 0; 0; 0; 1] (11 - 10) 11
  = [1; 0; 0; 0; 0; 0; 0; 0; 0; 0] /\
  Smoothing.smooth 10 [0; 1; 0; 0; 0; 0; 0; 0; 0; 0; 0; 1]
  = [0; 1; 0; 0; 0; 0; 0; 0; 0; 0; 0; 0] /\
  11 - 1 >= 10.
Proof.
  split; [vm_compute; reflexivity|].
  split; [vm_compute; intros H; discriminate H|].
  split; [vm_compute; reflexivity|].
  split; [lia|].
  split; [vm_compute; reflexivity|].
  split; [vm_compute; reflexivity|lia].
Qed.
(** ** Leaf discovery *)

Section AnnoFacts.
Context {U : Type}.
Abbreviation node := (Anno.AnnoTreeNode U).
Import Anno.

(** Structural induction with the hypothesis on every child. *)
Lemma node_ind' (P : node -> Prop) :
  (forall n, Forall P (nn n) -> P n) -> forall n, P n.
Proof.
  intros step.
  fix IH 1.
  intros [t k ks children p lf c cp].
  apply step. simpl.
  induction children as [|child rest IHrest].
  - constructor.
  - constructor; [apply IH | exact IHrest].
Qed.

Lemma push_all_app (children stack : list node) :
  push_all children stack = children ++ stack.
Proof.
  unfold push_all. rewrite <- (rev_involutive children) at 2.
  generalize (rev children) as l. intros l. revert stack.
  induction l as [|x l IHl]; intros stack; simpl; [reflexivity|].
  rewrite IHl. rewrite <- app_assoc. reflexivity.
Qed.

Lemma preorder_leaves_unfold (n : node) :
  preorder_leaves n =
  (if is_leaf n then [n] else []) ++ flat_map preorder_leaves (nn n).
Proof. destruct n; reflexivity. Qed.

(** The stack loop appends, to the leaves found so far, the pre-order
    leaves of the trees on the stack, top first. *)
Lemma discover_loop_preorder (stack leaves : list node) :
  discover_loop stack leaves = leaves ++ flat_map preorder_leaves stack.
Proof.
  funelim (discover_loop stack leaves).
  - simp discover_loop. simpl. rewrite app_nil_r. reflexivity.
  - simp discover_loop. rewrite H.
    rewrite push_all_app, flat_map_app.
    cbn [flat_map]. rewrite (preorder_leaves_unfold n).
    destruct (is_leaf n); simpl; rewrite <- ?app_assoc; reflexivity.
Qed.

Lemma discover_preorder (anno_root : node) :
  discover_anno_leaves anno_root = preorder_leaves anno_root.
Proof.
  unfold discover_anno_leaves. rewrite discover_loop_preorder.
  simpl. apply app_nil_r.
Qed.

Lemma nodes_unfold (n : node) :
  nodes n = n :: flat_map nodes (nn n).
Proof. destruct n; reflexivity. Qed.

Lemma paths_unfold (n : node) :
  paths n = path n :: map path (flat_map nodes (nn n)).
Proof. unfold paths. rewrite nodes_unfold. reflexivity. Qed.

(** The leaves are the nodes marked as leaves, in the order of the
    nodes. *)
Lemma preorder_leaves_nodes (n : node) :
  preorder_leaves n = List.filter is_leaf (nodes n).
Proof.
  induction n as [n IH] using node_ind'.
  rewrite preorder_leaves_unfold, nodes_unfold. cbn [List.filter].
  assert (Hch : flat_map preorder_leaves (nn n)
                = List.filter is_leaf (flat_map nodes (nn n))).
  { induction IH as [|c l Hc _ IHl]; [reflexivity|].
    cbn [flat_map]. rewrite List.filter_app, Hc, IHl. reflexivity. }
  rewrite Hch. destruct (is_leaf n); reflexivity.
Qed.

Lemma register_ok (index : gset string) (n : node) index' :
  register_anno_node index n = Ok index' ->
  (path n ∉ index) /\ index' = {[path n]} ∪ index.
Proof.
  unfold register_anno_node. destruct (decide _); [discriminate|].
  intros [= <-]. auto.
Qed.

(** Registering a path that is already in the index ends the run. *)
Lemma register_duplicate (index : gset string) (n : node) :
  path n ∈ index <-> register_anno_node index n = Raise SystemExit.
Proof.
  unfold register_anno_node.
  destruct (decide _); split; intros; try tauto; discriminate.
Qed.

Lemma size_unfold (n : node) : size n = S (stack_size (nn n)).
Proof. destruct n; reflexivity. Qed.

Lemma stack_size_cons (n : node) (l : list node) :
  stack_size (n :: l) = (size n + stack_size l)%nat.
Proof. reflexivity. Qed.

End AnnoFacts.

(** ** Raw transitions *)

Section NotesFacts.
Context {U : Type} `{Notes.Utterance U}.
Import Notes.


Lemma last_cons (x d : nat) (l : list nat) :
  List.last (x :: l) d = List.last l x.
Proof.
  revert x d. induction l as [|y l IH]; intros x d; [reflexivity|].
  change (List.last (x :: y :: l) d) with (List.last (y :: l) d).
  rewrite !IH. reflexivity.
Qed.

Lemma label_utterances_spec (leaf_id : nat) (convo : list U) (st : labelling) :
  let st' := fold_left (label_utterance leaf_id) convo st in
  notes st' = notes st ++
              map (fun u => utt_set_composite (compose_utterance u) u) convo /\
  raw_transitions st' =
    raw_transitions st ++ raw_of_owners (prev_leaf_id st)
                                        (repeat leaf_id (length convo)) /\
  prev_leaf_id st' = List.last (repeat leaf_id (length convo)) (prev_leaf_id st).
Proof.
  revert st. induction convo as [|u convo IH]; intros st.
  - simpl. rewrite !app_nil_r. auto.
  - cbn [fold_left].
    specialize (IH (label_utterance leaf_id st u)).
    cbv zeta in IH. destruct IH as (Hn & Hr & Hp).
    cbv zeta. rewrite Hn, Hr, Hp. clear Hn Hr Hp.
    unfold label_utterance.
    destruct (Nat.eqb_spec leaf_id (prev_leaf_id st)) as [Heq|Hne];
      cbn [negb notes raw_transitions prev_leaf_id length repeat
           raw_of_owners map].
    + rewrite <- !app_assoc. cbn [app].
      destruct (Nat.eqb_spec leaf_id (prev_leaf_id st)) as [_|?]; [|contradiction].
      rewrite last_cons, <- Heq. auto.
    + rewrite <- !app_assoc. cbn [app].
      destruct (Nat.eqb_spec leaf_id (prev_leaf_id st)) as [?|_]; [contradiction|].
      rewrite last_cons. auto.
Qed.

Lemma raw_of_owners_app (prev : nat) (a b : list nat) :
  raw_of_owners prev (a ++ b) =
  raw_of_owners prev a ++ raw_of_owners (List.last a prev) b.
Proof.
  revert prev. induction a as [|x a IH]; intros prev; [reflexivity|].
  cbn [app raw_of_owners]. rewrite IH, last_cons. reflexivity.
Qed.

Lemma last_app_default (a b : list nat) (d : nat) :
  List.last (a ++ b) d = List.last b (List.last a d).
Proof.
  revert d. induction a as [|x a IH]; intros d; [reflexivity|].
  cbn [app]. rewrite !last_cons. apply IH.
Qed.

Lemma label_leaves_spec (anno_leaves : list (Anno.AnnoTreeNode U))
    (leaf_id : nat) (st : labelling) :
  let st' := label_leaves leaf_id anno_leaves st in
  notes st' = notes st ++
              map (fun u => utt_set_composite (compose_utterance u) u)
                  (flattened anno_leaves) /\
  raw_transitions st' =
    raw_transitions st ++ raw_of_owners (prev_leaf_id st)
                                        (owners_from leaf_id anno_leaves) /\
  prev_leaf_id st' = List.last (owners_from leaf_id anno_leaves) (prev_leaf_id st).
Proof.
  revert leaf_id st.
  induction anno_leaves as [|leaf rest IH]; intros leaf_id st.
  - simpl. rewrite !app_nil_r. auto.
  - cbn [label_leaves owners_from flattened flat_map].
    destruct (label_utterances_spec leaf_id (Anno.convo leaf) st) as (Hn & Hr & Hp).
    specialize (IH (S leaf_id) (fold_left (label_utterance leaf_id) (Anno.convo leaf) st)).
    cbv zeta in IH. destruct IH as (Hn' & Hr' & Hp').
    cbv zeta. rewrite Hn', Hr', Hp', Hn, Hr, Hp.
    rewrite map_app, raw_of_owners_app, last_app_default, <- !app_assoc.
    auto.
Qed.

Lemma raw_of_owners_length (prev : nat) (own : list nat) :
  length (raw_of_owners prev own) = length own.
Proof.
  revert prev. induction own as [|o own IH]; intros prev; simpl; [reflexivity|].
  rewrite IH. reflexivity.
Qed.

Lemma owners_from_length (anno_leaves : list (Anno.AnnoTreeNode U)) (leaf_id : nat) :
  length (owners_from leaf_id anno_leaves) = length (flattened anno_leaves).
Proof.
  revert leaf_id. induction anno_leaves as [|leaf rest IH]; intros leaf_id; [reflexivity|].
  cbn [owners_from flattened flat_map]. rewrite !length_app, repeat_length.
  f_equal. apply IH.
Qed.

(** After the first position a label compares the owners of two
    neighbours. *)
Lemma raw_of_owners_succ (prev : nat) (own : list nat) (j : nat) :
  (S j < length own)%nat ->
  raw_of_owners prev own !! S j = Some (spec_raw_at own (S j)).
Proof.
  revert prev j. induction own as [|o own IH]; intros prev j Hj; [simpl in Hj; lia|].
  destruct own as [|o' own]; [simpl in Hj; lia|].
  destruct j as [|j].
  - cbn. destruct (Nat.eqb_spec o' o) as [->|Hne].
    + destruct (decide _) as [_|Hd]; [reflexivity|]. exfalso. apply Hd. reflexivity.
    + destruct (decide _) as [Hd|_]; [|reflexivity]. congruence.
  - change (raw_of_owners prev (o :: o' :: own) !! S (S j))
      with (raw_of_owners o (o' :: own) !! S j).
    rewrite IH by (simpl in *; lia). reflexivity.
Qed.

Lemma raw_of_owners_zero (prev o : nat) (own : list nat) :
  raw_of_owners prev (o :: own) !! 0%nat = Some (if (o =? prev)%nat then 0 else 1).
Proof. reflexivity. Qed.

(** The first utterance belongs to leaf [0] when the leaves carry
    utterances. *)
Lemma owners_head (anno_leaves : list (Anno.AnnoTreeNode U)) :
  leaves_resolved anno_leaves ->
  forall o, owners anno_leaves !! 0%nat = Some o -> o = 0%nat.
Proof.
  intros Hres o. unfold owners.
  destruct Hres as [|leaf rest Hleaf _]; [discriminate|].
  cbn [owners_from]. destruct (Anno.convo leaf); [contradiction|].
  simpl. congruence.
Qed.

(** The raw vector has one label for each utterance of the flattened
    sequence, and from the second position on the label tells whether the
    owner changes, whatever the leaves are. *)
Lemma raw_transitions_after_first (M : Z) (anno_root : Anno.AnnoTreeNode U) :
  let anno_leaves := Anno.discover_anno_leaves anno_root in
  let r := compose_meeting_notes M anno_root in
  length (m_raw_transitions r) = length (flattened anno_leaves) /\
  forall j, (S j < length (flattened anno_leaves))%nat ->
    m_raw_transitions r !! S j = Some (spec_raw_at (owners anno_leaves) (S j)).
Proof.
  cbv zeta. unfold compose_meeting_notes. cbn [m_raw_transitions].
  destruct (label_leaves_spec (Anno.discover_anno_leaves anno_root) 0
              (mk_labelling [] [] 0)) as (_ & Hr & _).
  rewrite Hr. cbn [raw_transitions app prev_leaf_id].
  fold (owners (Anno.discover_anno_leaves anno_root)).
  split.
  - rewrite raw_of_owners_length. apply owners_from_length.
  - intros j Hj. apply raw_of_owners_succ.
    unfold owners. rewrite owners_from_length. exact Hj.
Qed.

(** The raw vector is as the spec asks when the leaves all carry
    utterances. *)
Lemma raw_transitions_of_resolved_leaves (M : Z)
    (anno_root : Anno.AnnoTreeNode U) :
  leaves_resolved (Anno.discover_anno_leaves anno_root) ->
  raw_follows_owners M anno_root.
Proof.
  unfold raw_follows_owners. cbv zeta. intros Hres.
  destruct (raw_transitions_after_first M anno_root) as [Hlen Hsucc].
  split; [exact Hlen|].
  intros [|j] Hi; [|apply Hsucc, Hi].
  unfold compose_meeting_notes. cbn [m_raw_transitions].
  destruct (label_leaves_spec (Anno.discover_anno_leaves anno_root) 0
              (mk_labelling [] [] 0)) as (_ & Hr & _).
  rewrite Hr. cbn [raw_transitions app prev_leaf_id].
  fold (owners (Anno.discover_anno_leaves anno_root)).
  pose proof (owners_head _ Hres) as Hhead.
  rewrite <- (owners_from_length _ 0) in Hi.
  fold (owners (Anno.discover_anno_leaves anno_root)) in Hi.
  destruct (owners (Anno.discover_anno_leaves anno_root)) as [|o own];
    [simpl in Hi; lia|].
  rewrite raw_of_owners_zero, (Hhead o eq_refl). reflexivity.
Qed.

(** C4. The stack traversal returns the leaves in pre-order, left to
    right, as the recursive traversal does, and the notes of a meeting are
    the utterances of these leaves, concatenated in that order, each with
    its composite line attached. *)
Theorem discovery_is_preorder (M : Z) (anno_root : Anno.AnnoTreeNode U) :
  Anno.discover_anno_leaves anno_root = Anno.preorder_leaves anno_root /\
  m_notes (compose_meeting_notes M anno_root) =
    map (fun u => utt_set_composite (compose_utterance u) u)
        (flat_map Anno.convo (Anno.preorder_leaves anno_root)).
Proof.
  split; [apply discover_preorder|].
  unfold compose_meeting_notes. cbn [m_notes].
  destruct (label_leaves_spec (Anno.discover_anno_leaves anno_root) 0
              (mk_labelling [] [] 0)) as (Hn & _ & _).
  rewrite Hn, discover_preorder. reflexivity.
Qed.

End NotesFacts.

(** ** Token classification *)

Section TokenFacts.
Import ICSI.

(** C6. A token typed [QUOTE] whose text is not a lone apostrophe is an
    opening quote when the quote stack is empty (the entry is tagged
    [LQUOTE], has no space after it, and [LEFT] is pushed) and a closing
    quote otherwise (tagged [RQUOTE], no space before it, one state
    popped). A closing quote met with an empty stack is logged as an error
    and the entry is returned all the same. A token of any of the three
    quote types whose text is a lone apostrophe becomes an [APOSS] entry,
    with the stack and the log untouched. *)
Theorem quote_classification (text : option string) (st : state) :
  let apostrophe :=
    mk_entry (Some "APOSS") false false text None None None in
  let opening := mk_entry (Some "LQUOTE") true false text None None None in
  let closing := mk_entry (Some "RQUOTE") false true text None None None in
  make_word_entry (Some "QUOTE") text st =
    (if text_is text "'" then Ok (Some apostrophe, st)
     else match quote_stack st with
          | [] => Ok (Some opening,
                      mk_state (quote_stack st ++ ["LEFT"]) (logged st))
          | _ :: _ => Ok (Some closing,
                          mk_state (removelast (quote_stack st)) (logged st))
          end) /\
  make_word_entry (Some "LQUOTE") text st =
    (if text_is text "'" then Ok (Some apostrophe, st)
     else Ok (Some opening,
              mk_state (quote_stack st ++ ["LEFT"]) (logged st))) /\
  make_word_entry (Some "RQUOTE") text st =
    (if text_is text "'" then Ok (Some apostrophe, st)
     else match quote_stack st with
          | [] => Ok (Some closing,
                      mk_state []
                        (logged st ++ [(Py.Error, mismatched_quotes)]))
          | _ :: _ => Ok (Some closing,
                          mk_state (removelast (quote_stack st)) (logged st))
          end).
Proof.
  cbv zeta. unfold make_word_entry.
  destruct st as [stack lg].
  destruct text as [t|]; [destruct (String.eqb_spec t "'") as [->|Hne]|].
  - repeat split; reflexivity.
  - apply String.eqb_neq in Hne.
    repeat split; destruct stack as [|q qs];
      cbn -[removelast mismatched_quotes]; rewrite ?Hne; reflexivity.
  - repeat split; destruct stack as [|q qs]; reflexivity.
Qed.

Lemma load_words_raises wi st child rest e :
  load_word (wi, st) child = Raise e ->
  load_words (wi, st) (child :: rest) = Raise e.
Proof. intros H. cbn [load_words]. rewrite H. reflexivity. Qed.

(** C10. For a token typed [W] or [TRUNCW], [make_word_entry] reads
    [text[0]] before anything else: with the text absent it raises a
    [TypeError], with the empty text an [IndexError], and only with a
    non-empty text does it return an entry. Nothing catches the exception:
    loading a word file that holds such a token raises it too. *)
Theorem word_without_text_raises (ty : string) (text : option string)
    (st : state) :
  ty = "W" \/ ty = "TRUNCW" ->
  make_word_entry (Some ty) text st =
    match text with
    | None => Raise TypeError
    | Some EmptyString => Raise IndexError
    | Some (String c rest) =>
        Ok (Some (if Ascii.eqb c "'"%char
                  then mk_entry (Some "APOSS") false true text None None None
                  else mk_entry (Some ty) true true text None None None), st)
    end /\
  forall (child : Element) (wi : word_index) (rest : list Element)
         (k : string) (e : Py.exn),
    attrib child !! nite_id = Some k ->
    attrib child !! "c" = Some ty ->
    etext child = text ->
    make_word_entry (Some ty) text st = Raise e ->
    load_words (wi, st) (child :: rest) = Raise e.
Proof.
  intros Hty. split.
  - destruct Hty as [-> | ->]; unfold make_word_entry;
      destruct text as [[|c rest]|]; try reflexivity;
      cbn; destruct (Ascii.eqb c "'"); reflexivity.
  - intros child wi rest k e Hid Hc Htext Hraise.
    apply load_words_raises. unfold load_word, attr.
    rewrite Hid, Hc, Htext. cbn [mbind outcome_bind Py.bind].
    rewrite Hraise. reflexivity.
Qed.

End TokenFacts.

Lemma word_without_text_raises_witness :
  ICSI.make_word_entry (Some "W") None (ICSI.mk_state [] []) = Raise TypeError /\
  ICSI.load_words (ICSI.mk_word_index [] ∅, ICSI.mk_state [] [])
    [mkElement "w" (<[nite_id := "w1"]> {[ "c" := "W" ]}) None []]
  = Raise TypeError.
Proof.
  pose proof (word_without_text_raises "W" None (ICSI.mk_state [] [])
                (or_introl eq_refl)) as [Hraise Hload].
  split; [exact Hraise|].
  apply (Hload _ _ _ "w1"); [reflexivity|reflexivity|reflexivity|exact Hraise].
Defined.

(** ** Absorption of tokens into utterances *)

Section AbsorbFacts.
Import ICSI.

Lemma non_gap_cons heap t ts :
  non_gap heap (t :: ts) =
  match mjoin (heap !! t) with
  | Some T => T :: non_gap heap ts
  | None => non_gap heap ts
  end.
Proof. reflexivity. Qed.

Lemma non_gap_cons_gap heap t ts :
  heap !! t = Some None -> non_gap heap (t :: ts) = non_gap heap ts.
Proof. intros Ht. unfold non_gap. simpl. rewrite Ht. reflexivity. Qed.

Lemma non_gap_cons_token heap t ts T :
  heap !! t = Some (Some T) -> non_gap heap (t :: ts) = T :: non_gap heap ts.
Proof. intros Ht. unfold non_gap. simpl. rewrite Ht. reflexivity. Qed.

(** Updating the store at [u] does not change what lies at other
    positions. *)
Lemma non_gap_insert_other heap u x ts :
  Forall (fun t => t <> u) ts ->
  non_gap (<[u := x]> heap) ts = non_gap heap ts.
Proof.
  induction 1 as [|t ts Ht _ IH]; [reflexivity|].
  rewrite !non_gap_cons, IH.
  rewrite list_lookup_insert_ne by congruence. reflexivity.
Qed.

(** With an utterance already open at [u], walking positions beyond [u]
    appends to its text what the spec describes. *)
Lemma absorb_range_open (ts : list nat) :
  forall heap u U acc,
  heap !! u = Some (Some U) -> text U = Some acc ->
  Forall (fun t => (u < t < length heap)%nat) ts ->
  Forall (fun T => text T <> None) (non_gap heap ts) ->
  exists heap' U',
    absorb_range heap (Some u) ts = Ok (heap', Some u) /\
    heap' !! u = Some (Some U') /\
    text U' = Some (acc +:+ spec_compose_from (rspace U) (non_gap heap ts)) /\
    forall t, t <> u -> heap' !! t = heap !! t.
Proof.
  induction ts as [|t ts IH]; intros heap u U acc Hu Hacc Hts Htext.
  - exists heap, U. simpl. repeat split; try assumption.
    rewrite Hacc. f_equal. symmetry. apply string_app_nil_r.
  - inversion Hts as [|? ? Ht Hts']; subst.
    destruct (lookup_lt_is_Some_2 heap t ltac:(lia)) as [[T|] HT].
    + rewrite (non_gap_cons_token _ _ _ _ HT) in Htext |- *.
      inversion Htext as [|? ? HTtext Htext']; subst.
      destruct (text T) as [tt|] eqn:ETt; [|congruence].
      cbn [absorb_range]. rewrite HT.
      unfold absorb_token. rewrite Hu, HT, ETt, Hacc.
      cbn [mbind outcome_bind Py.bind].
      set (U1 := set_rspace (rspace T) (set_text _ U)).
      set (heap1 := <[u := Some U1]> heap).
      assert (Hu1 : heap1 !! u = Some (Some U1)).
      { unfold heap1. apply list_lookup_insert_eq. apply lookup_lt_Some in Hu. exact Hu. }
      assert (Hts1 : Forall (fun t => (u < t < length heap1)%nat) ts).
      { unfold heap1. rewrite length_insert. exact Hts'. }
      assert (Hsame : non_gap heap1 ts = non_gap heap ts).
      { unfold heap1. apply non_gap_insert_other.
        eapply Forall_impl; [exact Hts'|]. cbv beta. intros; lia. }
      destruct (IH heap1 u U1 _ Hu1 eq_refl Hts1) as (heap' & U' & Hrun & Hu' & HU' & Hother).
      { rewrite Hsame. exact Htext'. }
      exists heap', U'. repeat split; try assumption.
      * rewrite HU', Hsame. f_equal.
        cbn [spec_compose_from]. unfold text_of. rewrite ETt. cbn [default].
        unfold U1. cbn [rspace set_rspace].
        rewrite !string_app_assoc. reflexivity.
      * intros t' Ht'. rewrite Hother by exact Ht'.
        unfold heap1. apply list_lookup_insert_ne. congruence.
    + rewrite (non_gap_cons_gap _ _ _ HT) in Htext |- *.
      cbn [absorb_range]. rewrite HT.
      apply (IH heap u U acc); assumption.
Qed.

(** Walking positions in increasing order with no utterance open yet. *)
Lemma absorb_range_seq (n : nat) :
  forall a heap,
  (n = 0 \/ a + n <= length heap)%nat ->
  Forall (fun T => text T <> None) (non_gap heap (seq a n)) ->
  match non_gap heap (seq a n) with
  | [] => absorb_range heap None (seq a n) = Ok (heap, None)
  | toks =>
      exists heap' u U,
        absorb_range heap None (seq a n) = Ok (heap', Some u) /\
        heap' !! u = Some (Some U) /\
        text U = Some (spec_compose toks)
  end.
Proof.
  induction n as [|n IH]; intros a heap Hlen Htext; [reflexivity|].
  destruct Hlen as [Hlen|Hlen]; [discriminate|].
  cbn [seq] in Htext |- *.
  destruct (lookup_lt_is_Some_2 heap a ltac:(lia)) as [[T|] HT].
  - rewrite (non_gap_cons_token _ _ _ _ HT) in Htext |- *.
    inversion Htext as [|? ? HTtext Htext']; subst.
    destruct (text T) as [tt|] eqn:ETt; [|congruence].
    destruct (absorb_range_open (seq (S a) n) heap a T tt HT ETt)
      as (heap' & U' & Hrun & Hu' & HU' & _).
    + apply Forall_forall. intros t Ht. apply elem_of_seq in Ht. lia.
    + exact Htext'.
    + exists heap', a, U'. cbn [absorb_range]. rewrite HT.
      cbn [absorb_token mbind outcome_bind Py.bind].
      repeat split; try assumption.
      rewrite HU'. cbn [spec_compose]. unfold text_of. rewrite ETt.
      reflexivity.
  - rewrite (non_gap_cons_gap _ _ _ HT) in Htext |- *.
    specialize (IH (S a) heap ltac:(lia) Htext).
    cbn [absorb_range]. rewrite HT. exact IH.
Qed.

(** C7. Walking a token range while skipping the gaps gives the text the
    spec describes: the texts of the non-gap tokens one after the other,
    with a single space exactly where the right-space flag of the token
    before and the left-space flag of the token both hold; a range without
    non-gap tokens gives no utterance. The words [flag], [-] and [sign],
    typed [W], [HYPH] and [W], compose to [flag-sign]. *)
Theorem absorb_all_composition :
  (forall (heap : list (option entry)) (start_idx end_idx : nat),
     (end_idx < length heap)%nat ->
     Forall (fun T => text T <> None)
            (non_gap heap (range_incl start_idx end_idx)) ->
     match non_gap heap (range_incl start_idx end_idx) with
     | [] =>
         absorb_range heap None (range_incl start_idx end_idx)
         = Ok (heap, None)
     | toks =>
         exists heap' u U,
           absorb_range heap None (range_incl start_idx end_idx)
           = Ok (heap', Some u) /\
           heap' !! u = Some (Some U) /\
           text U = Some (spec_compose toks)
     end) /\
  (exists wi,
     Samples.load_icsi Samples.flag_sign_words Samples.flag_sign_segs
     = Ok (wi, [0%nat]) /\
     text <$> mjoin (words wi !! 0%nat) = Some (Some "flag-sign")).
Proof.
  split.
  - intros heap start_idx end_idx Hend Htext. unfold range_incl in *.
    apply absorb_range_seq; [|exact Htext].
    destruct (Nat.le_gt_cases start_idx (end_idx + 1)) as [Hle|Hgt].
    + right. lia.
    + left. lia.
  - eexists. split; vm_compute; reflexivity.
Qed.

End AbsorbFacts.

Lemma absorb_all_composition_witness :
  exists heap' u U,
    ICSI.absorb_range Samples.so_yes_heap None (ICSI.range_incl 0 3)
    = Ok (heap', Some u) /\
    heap' !! u = Some (Some U) /\
    ICSI.text U = Some "so, yes".
Proof.
  assert (Hend : (3 < length Samples.so_yes_heap)%nat) by (vm_compute; lia).
  assert (Htext : Forall (fun T => ICSI.text T <> None)
                    (ICSI.non_gap Samples.so_yes_heap (ICSI.range_incl 0 3))).
  { vm_compute. repeat constructor; discriminate. }
  exact (proj1 absorb_all_composition Samples.so_yes_heap 0%nat 3%nat
               Hend Htext).
Defined.
(** ** Resolution of utterance keys *)

Section AttachFacts.
Import ICSI.

(** One key: a key that resolves is appended whatever the duplicate list
    says, and the log grows by one record exactly when the key was claimed
    before. *)
Lemma attach_key_step index leaf_path r st key :
  key_readable index key ->
  exists r' st',
    attach_key index leaf_path (r, st) key = Ok (r', st') /\
    filtered_keys r' = filtered_keys r ++ List.filter (resolves index) [key] /\
    dom (duplicate_check_list st') =
      list_to_set (List.filter (resolves index) [key])
      ∪ dom (duplicate_check_list st) /\
    length (attach_log st') =
      (length (attach_log st) +
       repeated_claims (dom (duplicate_check_list st))
                       (List.filter (resolves index) [key]))%nat.
Proof.
  intros (speaker & utt_key & Hsplit & [utts Hutts]).
  cbn [List.filter].
  unfold attach_key, resolves. rewrite Hsplit, Hutts.
  destruct (utts !! utt_key) as [utt|] eqn:E.
  - rewrite bool_decide_eq_true_2 by (eexists; reflexivity).
    eexists _, _. split; [reflexivity|].
    cbn [filtered_keys duplicate_check_list attach_log repeated_claims].
    split; [reflexivity|]. split.
    + rewrite dom_insert_L. set_solver.
    + destruct (duplicate_check_list st !! key) as [other|] eqn:Ed.
      * rewrite length_app. cbn [length].
        destruct (decide (key ∈ dom (duplicate_check_list st))) as [_|Hn]; [lia|].
        exfalso. apply Hn. apply elem_of_dom. eexists; eassumption.
      * destruct (decide (key ∈ dom (duplicate_check_list st))) as [Hin|_]; [|lia].
        apply elem_of_dom in Hin. rewrite Ed in Hin. destruct Hin; discriminate.
  - rewrite bool_decide_eq_false_2 by (intros [? ?]; discriminate).
    exists r, st. split; [reflexivity|].
    cbn [repeated_claims]. rewrite app_nil_r.
    repeat split; [set_solver|lia].
Qed.

Lemma repeated_claims_app seen a b :
  repeated_claims seen (a ++ b) =
  (repeated_claims seen a + repeated_claims (list_to_set a ∪ seen) b)%nat.
Proof.
  revert seen. induction a as [|x a IH]; intros seen.
  - cbn. f_equal. set_solver.
  - cbn [app repeated_claims]. rewrite IH.
    replace (list_to_set a ∪ ({[x]} ∪ seen)) with (list_to_set (x :: a) ∪ seen)
      by set_solver.
    lia.
Qed.

Lemma filter_cons_app {A} (f : A -> bool) (x : A) (l : list A) :
  List.filter f (x :: l) = List.filter f [x] ++ List.filter f l.
Proof. cbn. destruct (f x); reflexivity. Qed.

Lemma attach_keys_spec index leaf_path ks :
  forall r st,
  Forall (key_readable index) ks ->
  exists r' st',
    attach_keys index leaf_path (r, st) ks = Ok (r', st') /\
    filtered_keys r' = filtered_keys r ++ List.filter (resolves index) ks /\
    dom (duplicate_check_list st') =
      list_to_set (List.filter (resolves index) ks)
      ∪ dom (duplicate_check_list st) /\
    length (attach_log st') =
      (length (attach_log st) +
       repeated_claims (dom (duplicate_check_list st))
                       (List.filter (resolves index) ks))%nat.
Proof.
  induction ks as [|key ks IH]; intros r st Hks.
  - exists r, st. cbn. rewrite app_nil_r. repeat split; [set_solver|lia].
  - inversion Hks as [|? ? Hkey Hks']; subst.
    destruct (attach_key_step index leaf_path r st key Hkey)
      as (r1 & st1 & Hrun1 & Hk1 & Hd1 & Hl1).
    destruct (IH r1 st1 Hks') as (r2 & st2 & Hrun2 & Hk2 & Hd2 & Hl2).
    exists r2, st2. rewrite (filter_cons_app _ key ks).
    cbn [attach_keys]. rewrite Hrun1.
    split; [exact Hrun2|].
    rewrite Hk2, Hk1, Hd2, Hd1, Hl2, Hl1, Hd1, repeated_claims_app.
    rewrite <- app_assoc. repeat split; [set_solver|lia].
Qed.

(** The keys that the leaves keep, the keys claimed and the number of
    records logged. *)
Lemma attach_leaves_spec index (anno_leaves : list node) :
  forall st,
  Forall (fun leaf => Forall (key_readable index) (Anno.keys leaf)) anno_leaves ->
  exists leaves' st',
    attach_leaves index st anno_leaves = Ok (leaves', st') /\
    map Anno.keys leaves' =
      map (fun leaf => List.filter (resolves index) (Anno.keys leaf))
          anno_leaves /\
    dom (duplicate_check_list st') =
      list_to_set (flat_map (fun leaf => List.filter (resolves index)
                                                     (Anno.keys leaf))
                            anno_leaves)
      ∪ dom (duplicate_check_list st) /\
    length (attach_log st') =
      (length (attach_log st) +
       repeated_claims
         (dom (duplicate_check_list st))
         (flat_map (fun leaf => List.filter (resolves index) (Anno.keys leaf))
                   anno_leaves))%nat.
Proof.
  induction anno_leaves as [|leaf rest IH]; intros st Hall.
  - exists [], st. cbn. repeat split; [set_solver|lia].
  - inversion Hall as [|? ? Hleaf Hrest]; subst.
    destruct (attach_keys_spec index (Anno.path leaf) (Anno.keys leaf)
                (mk_resolved [] []) st Hleaf)
      as (r1 & st1 & Hrun1 & Hk1 & Hd1 & Hl1).
    destruct (IH st1 Hrest) as (rest' & st2 & Hrun2 & Hk2 & Hd2 & Hl2).
    eexists _, st2. cbn [attach_leaves map flat_map]. unfold attach_leaf.
    rewrite Hrun1. cbn [mbind outcome_bind Py.bind]. rewrite Hrun2.
    split; [reflexivity|].
    cbn [map flat_map Anno.keys Anno.set_convo Anno.set_keys].
    rewrite Hk2, Hk1, Hd2, Hd1, Hl2, Hl1, Hd1, repeated_claims_app.
    cbn [filtered_keys app].
    repeat split; [rewrite list_to_set_app_L; set_solver|lia].
Qed.

(** The claims seen so far, the claimants and the warnings, over two
    sequences of claims one after the other. *)
Lemma claimants_app seen (a b : list (string * string)) :
  claimants seen (a ++ b) = claimants (claimants seen a) b.
Proof. unfold claimants. apply fold_left_app. Qed.

Lemma claim_warnings_app (a b : list (string * string)) :
  forall seen,
  claim_warnings seen (a ++ b)
  = claim_warnings seen a ++ claim_warnings (claimants seen a) b.
Proof.
  induction a as [|[p k] a IH]; intros seen; [reflexivity|].
  cbn [app claim_warnings]. rewrite IH, <- app_assoc. reflexivity.
Qed.

Lemma claimants_dom (claims : list (string * string)) :
  forall seen p k,
  (p, k) ∈ claims \/ k ∈ dom seen -> k ∈ dom (claimants seen claims).
Proof.
  induction claims as [|[p0 k0] claims IH]; intros seen p k Hin.
  - destruct Hin as [Hin|Hin]; [|exact Hin]. inversion Hin.
  - cbn [claimants fold_left]. apply (IH _ p k).
    destruct Hin as [Hin|Hin].
    + apply elem_of_cons in Hin as [Heq|Hin]; [|left; exact Hin].
      injection Heq as -> ->. right. cbn. rewrite dom_insert_L. set_solver.
    + right. cbn. rewrite dom_insert_L. set_solver.
Qed.

(** A claim of a key that has a claimant is warned of. *)
Lemma claim_warnings_member (claims : list (string * string)) :
  forall seen p k,
  k ∈ dom seen -> (p, k) ∈ claims ->
  exists other,
    (Py.Warning,
     "Duplicate key: " +:+ k +:+ " " +:+ p +:+ " and " +:+ other)
    ∈ claim_warnings seen claims.
Proof.
  induction claims as [|[p0 k0] claims IH]; intros seen p k Hseen Hin.
  - inversion Hin.
  - cbn [claim_warnings].
    apply elem_of_cons in Hin as [Heq|Hin].
    + injection Heq as <- <-.
      apply elem_of_dom in Hseen as [other Hother]. rewrite Hother.
      exists other. apply elem_of_app. left. apply list_elem_of_singleton.
      reflexivity.
    + destruct (IH (<[k0 := p0]> seen) p k) as [other Hother];
        [rewrite dom_insert_L; set_solver|exact Hin|].
      exists other. apply elem_of_app. right. exact Hother.
Qed.

Lemma unresolved_no_utterance index (key : string) :
  resolves index key = false -> Keys.utterance_of index key = None.
Proof.
  unfold resolves, Keys.utterance_of.
  destruct (Py.split ":" key) as [|speaker [|utt_key [|x l]]]; try reflexivity.
  destruct (index !! speaker) as [utts|]; [|reflexivity].
  cbn [mbind option_bind].
  destruct (utts !! utt_key); [|reflexivity].
  rewrite bool_decide_eq_true_2 by eauto. discriminate.
Qed.

(** One key, exactly: a key that resolves is appended with its utterance
    whatever the duplicate list says, the leaf becomes its claimant, and a
    key that had a claimant is warned of. *)
Lemma attach_key_exact index leaf_path r st key :
  key_readable index key ->
  let claims := map (fun key => (leaf_path, key))
                    (List.filter (resolves index) [key]) in
  attach_key index leaf_path (r, st) key
  = Ok (mk_resolved
          (filtered_keys r ++ List.filter (resolves index) [key])
          (r_convo r ++ omap (Keys.utterance_of index) [key]),
        mk_attach_state
          (claimants (duplicate_check_list st) claims)
          (attach_log st ++ claim_warnings (duplicate_check_list st) claims)).
Proof.
  intros (speaker & utt_key & Hsplit & [utts Hutts]).
  cbn [List.filter omap list_omap].
  unfold attach_key, resolves, Keys.utterance_of. rewrite Hsplit, Hutts.
  cbn [mbind option_bind].
  destruct (utts !! utt_key) as [utt|] eqn:E.
  - rewrite bool_decide_eq_true_2 by (eexists; reflexivity).
    cbn [map claimants fold_left claim_warnings fst snd].
    destruct (duplicate_check_list st !! key); rewrite ?app_nil_r; reflexivity.
  - rewrite bool_decide_eq_false_2 by (intros [? ?]; discriminate).
    cbn [map claimants fold_left claim_warnings]. rewrite !app_nil_r.
    destruct r, st. reflexivity.
Qed.

Lemma attach_keys_exact index leaf_path ks :
  forall r st,
  Forall (key_readable index) ks ->
  let claims := map (fun key => (leaf_path, key))
                    (List.filter (resolves index) ks) in
  attach_keys index leaf_path (r, st) ks
  = Ok (mk_resolved
          (filtered_keys r ++ List.filter (resolves index) ks)
          (r_convo r ++ omap (Keys.utterance_of index) ks),
        mk_attach_state
          (claimants (duplicate_check_list st) claims)
          (attach_log st ++ claim_warnings (duplicate_check_list st) claims)).
Proof.
  induction ks as [|key ks IH]; intros r st Hks.
  - cbn. rewrite !app_nil_r. destruct r, st. reflexivity.
  - inversion Hks as [|? ? Hkey Hks']; subst.
    cbn [attach_keys]. rewrite (attach_key_exact _ _ _ _ _ Hkey).
    cbn [mbind outcome_bind Py.bind]. rewrite (IH _ _ Hks').
    cbn [filtered_keys r_convo duplicate_check_list attach_log].
    rewrite (filter_cons_app _ key ks), map_app, claimants_app,
            claim_warnings_app, <- !app_assoc.
    replace (omap (Keys.utterance_of index) (key :: ks))
      with (omap (Keys.utterance_of index) [key]
            ++ omap (Keys.utterance_of index) ks)
      by (cbn [omap list_omap]; destruct (Keys.utterance_of index key);
          reflexivity).
    reflexivity.
Qed.

(** The leaves, exactly: every leaf comes back with its keys that resolve
    and the utterances they name, and the state with the claimants and
    the warnings of all the claims, leaf after leaf. *)
Lemma attach_leaves_exact index (anno_leaves : list node) :
  forall st,
  Forall (fun leaf => Forall (key_readable index) (Anno.keys leaf)) anno_leaves ->
  attach_leaves index st anno_leaves
  = Ok (map (fun leaf =>
               Anno.set_convo (omap (Keys.utterance_of index) (Anno.keys leaf))
                 (Anno.set_keys (List.filter (resolves index) (Anno.keys leaf))
                                leaf))
            anno_leaves,
        mk_attach_state
          (claimants (duplicate_check_list st)
                     (flat_map (leaf_claims index) anno_leaves))
          (attach_log st ++
           claim_warnings (duplicate_check_list st)
                          (flat_map (leaf_claims index) anno_leaves))).
Proof.
  induction anno_leaves as [|leaf rest IH]; intros st Hall.
  - cbn. rewrite app_nil_r. destruct st. reflexivity.
  - inversion Hall as [|? ? Hleaf Hrest]; subst.
    cbn [attach_leaves]. unfold attach_leaf.
    rewrite (attach_keys_exact _ _ _ _ _ Hleaf).
    cbn [mbind outcome_bind Py.bind]. rewrite (IH _ Hrest).
    cbn [mbind outcome_bind Py.bind filtered_keys r_convo
         duplicate_check_list attach_log app map flat_map].
    fold (leaf_claims index leaf).
    rewrite claimants_app, claim_warnings_app, <- app_assoc. reflexivity.
Qed.

(** C9 (amended). When the keys of the leaves can be read, resolution
    never fails. Every leaf keeps each of its keys that resolves, also a
    key that an earlier leaf has claimed, and with every key the utterance
    that the key names. The log grows by one record for each claim of a
    key that was claimed before, and that record is the warning
    [Duplicate key:] with the key, the path of the claiming leaf and the
    path of the claimant before it. So a key that two leaves claim stays
    on both with its utterance, and the claim of the second leaf is
    warned of. *)
Theorem duplicate_keys_kept_and_warned index (anno_leaves : list node) :
  forall st,
  Forall (fun leaf => Forall (key_readable index) (Anno.keys leaf)) anno_leaves ->
  exists leaves' st',
    attach_leaves index st anno_leaves = Ok (leaves', st') /\
    map Anno.keys leaves' =
      map (fun leaf => List.filter (resolves index) (Anno.keys leaf))
          anno_leaves /\
    map Anno.convo leaves' =
      map (fun leaf => omap (Keys.utterance_of index) (Anno.keys leaf))
          anno_leaves /\
    dom (duplicate_check_list st') =
      list_to_set (flat_map (fun leaf => List.filter (resolves index)
                                                     (Anno.keys leaf))
                            anno_leaves)
      ∪ dom (duplicate_check_list st) /\
    length (attach_log st') =
      (length (attach_log st) +
       repeated_claims
         (dom (duplicate_check_list st))
         (flat_map (fun leaf => List.filter (resolves index) (Anno.keys leaf))
                   anno_leaves))%nat /\
    duplicate_check_list st' =
      claimants (duplicate_check_list st)
                (flat_map (leaf_claims index) anno_leaves) /\
    attach_log st' =
      attach_log st ++
      claim_warnings (duplicate_check_list st)
                     (flat_map (leaf_claims index) anno_leaves) /\
    (forall (i j : nat) l1 l2 key utt,
       (i < j)%nat ->
       anno_leaves !! i = Some l1 -> anno_leaves !! j = Some l2 ->
       key ∈ Anno.keys l1 -> key ∈ Anno.keys l2 ->
       Keys.utterance_of index key = Some utt ->
       exists l1' l2' other,
         leaves' !! i = Some l1' /\ leaves' !! j = Some l2' /\
         key ∈ Anno.keys l1' /\ utt ∈ Anno.convo l1' /\
         key ∈ Anno.keys l2' /\ utt ∈ Anno.convo l2' /\
         (Py.Warning,
          "Duplicate key: " +:+ key +:+ " " +:+ Anno.path l2
          +:+ " and " +:+ other) ∈ attach_log st').
Proof.
  intros st Hall.
  destruct (attach_leaves_spec index anno_leaves st Hall)
    as (leaves' & st' & Hrun & Hkeys & Hdom & Hlen).
  pose proof (attach_leaves_exact index anno_leaves st Hall) as Hexact.
  rewrite Hrun in Hexact. injection Hexact as Hleaves Hst.
  exists leaves', st'.
  assert (Hconvo : map Anno.convo leaves' =
                   map (fun leaf => omap (Keys.utterance_of index)
                                         (Anno.keys leaf)) anno_leaves).
  { rewrite Hleaves, map_map. reflexivity. }
  assert (Hlog : attach_log st' =
                 attach_log st ++
                 claim_warnings (duplicate_check_list st)
                                (flat_map (leaf_claims index) anno_leaves)).
  { rewrite Hst. reflexivity. }
  split; [exact Hrun|]. split; [exact Hkeys|]. split; [exact Hconvo|].
  split; [exact Hdom|]. split; [exact Hlen|].
  split; [rewrite Hst; reflexivity|]. split; [exact Hlog|].
  intros i j l1 l2 key utt Hij Hi Hj Hk1 Hk2 Hutt.
  assert (Hres : resolves index key = true).
  { destruct (resolves index key) eqn:Hr; [reflexivity|].
    rewrite (unresolved_no_utterance _ _ Hr) in Hutt. discriminate. }
  assert (Hkept : forall (n : nat) l, anno_leaves !! n = Some l ->
            key ∈ Anno.keys l ->
            exists l', leaves' !! n = Some l' /\
                       key ∈ Anno.keys l' /\ utt ∈ Anno.convo l').
  { intros n l Hn Hk. rewrite Hleaves.
    eexists. split; [rewrite list_lookup_fmap, Hn; reflexivity|].
    cbn [Anno.keys Anno.convo Anno.set_convo Anno.set_keys]. split.
    - apply list_elem_of_In, filter_In. split; [|exact Hres].
      apply list_elem_of_In. exact Hk.
    - apply list_elem_of_omap. exists key. split; [exact Hk|exact Hutt]. }
  destruct (Hkept i l1 Hi Hk1) as (l1' & Hl1 & Hk1' & Hu1).
  destruct (Hkept j l2 Hj Hk2) as (l2' & Hl2 & Hk2' & Hu2).
  assert (Hclaim : forall l, key ∈ Anno.keys l ->
            (Anno.path l, key) ∈ leaf_claims index l).
  { intros l Hk. unfold leaf_claims.
    apply (list_elem_of_fmap_2 (fun key0 => (Anno.path l, key0))).
    apply list_elem_of_In, filter_In. split; [|exact Hres].
    apply list_elem_of_In. exact Hk. }
  rewrite <- (take_drop_middle anno_leaves j l2 Hj) in Hlog.
  rewrite flat_map_app in Hlog. cbn [flat_map] in Hlog.
  rewrite claim_warnings_app in Hlog.
  destruct (claim_warnings_member
              (leaf_claims index l2 ++
               flat_map (leaf_claims index) (drop (S j) anno_leaves))
              (claimants (duplicate_check_list st)
                 (flat_map (leaf_claims index) (take j anno_leaves)))
              (Anno.path l2) key) as [other Hother].
  { apply (claimants_dom _ _ (Anno.path l1)). left.
    apply list_elem_of_In, in_flat_map. exists l1. split.
    - apply list_elem_of_In, list_elem_of_lookup. exists i.
      rewrite lookup_take_lt by exact Hij. exact Hi.
    - apply list_elem_of_In, Hclaim, Hk1. }
  { apply elem_of_app. left. apply Hclaim, Hk2. }
  exists l1', l2', other.
  repeat (split; [assumption|]).
  rewrite Hlog. apply elem_of_app. right. apply elem_of_app. right.
  exact Hother.
Qed.
End AttachFacts.

(** C9 (counterexample). Two leaves claim the key [A:k1]; after resolution
    the key is on the second leaf as well as on the first, with one warning
    in the log. *)
Lemma duplicate_key_kept_on_second_leaf :
  exists l1 l2 st,
    ICSI.attach_meeting_notes Samples.sample_index Samples.sample_claims
    = Ok ([l1; l2], st) /\
    Anno.path l1 = "*.0" /\ Anno.path l2 = "*.1" /\
    Anno.keys l1 = ["A:k1"] /\ Anno.keys l2 = ["A:k1"] /\
    ICSI.attach_log st = [(Py.Warning, "Duplicate key: A:k1 *.1 and *.0")].
Proof.
  eexists _, _, _. split; [vm_compute; reflexivity|].
  repeat split.
Qed.

Lemma duplicate_keys_kept_and_warned_witness :
  exists l1' l2' st',
    ICSI.attach_leaves Samples.sample_index (ICSI.mk_attach_state ∅ [])
      [Samples.claiming_leaf "*.0"; Samples.claiming_leaf "*.1"]
    = Ok ([l1'; l2'], st') /\
    Anno.keys l1' = ["A:k1"] /\ Anno.keys l2' = ["A:k1"] /\
    Anno.convo l1' = Anno.convo l2' /\ length (Anno.convo l2') = 1%nat /\
    ICSI.attach_log st' = [(Py.Warning, "Duplicate key: A:k1 *.1 and *.0")].
Proof.
  assert (Hall : Forall (fun leaf => Forall (ICSI.key_readable Samples.sample_index)
                                            (Anno.keys leaf))
                   [Samples.claiming_leaf "*.0"; Samples.claiming_leaf "*.1"]).
  { repeat match goal with |- Forall _ _ => constructor end.
    all: exists "A", "k1". all: split. all: try reflexivity. all: eexists; reflexivity. }
  destruct (duplicate_keys_kept_and_warned Samples.sample_index _
              (ICSI.mk_attach_state ∅ []) Hall)
    as (leaves' & st' & Hrun & Hkeys & Hconvo & _ & _ & _ & Hlog & _).
  destruct leaves' as [|l1' [|l2' [|x leaves']]]; try discriminate Hkeys.
  exists l1', l2', st'. split; [exact Hrun|].
  injection Hkeys as Hk1 Hk2. injection Hconvo as Hc1 Hc2.
  split; [exact Hk1|]. split; [exact Hk2|].
  split; [rewrite Hc1, Hc2; reflexivity|].
  split; [rewrite Hc2; reflexivity|].
  rewrite Hlog. vm_compute. reflexivity.
Defined.
(** ** Paths and the annotation index *)

Section NormalizeFacts.
Import ICSI.

Lemma normalize_invariants (fuel : nat) :
  (forall p n idx n' idx',
     normalize_anno_tree fuel p n idx = Ok (n', idx') ->
     Anno.registered_from idx p n' idx') /\
  (forall p node0 nn acc b idx n' idx',
     normalize_loop fuel p node0 nn acc b idx = Ok (n', idx') ->
     Anno.path node0 = p ->
     (Anno.is_leaf node0 = true -> acc = []) ->
     Forall (fun c => Anno.extends_path p (Anno.path c)) acc ->
     Forall Anno.children_extend (flat_map Anno.nodes acc) ->
     Anno.loop_registered_from idx p acc n' idx').
Proof.
  induction fuel as [|fuel [IHtree IHloop]]; [split; intros; discriminate|].
  split.
  - intros p n idx n' idx' Hrun. cbn [normalize_anno_tree] in Hrun.
    destruct (Anno.register_anno_node idx (Anno.set_path p n)) as [idx1|e] eqn:Hreg;
      [|discriminate].
    cbn [mbind outcome_bind Py.bind] in Hrun.
    apply register_ok in Hreg. destruct Hreg as [Hfresh ->].
    cbn [Anno.path Anno.set_path] in Hfresh.
    apply IHloop in Hrun; try (cbn; auto; fail).
    destruct Hrun as (added & Hpaths & Hnd & Hnew & -> & Hp & Hext & Hall).
    cbn [flat_map map app] in Hpaths.
    unfold Anno.registered_from. rewrite paths_unfold, nodes_unfold, Hpaths, Hp.
    repeat split.
    + constructor; assumption.
    + constructor; [|exact Hnd]. intros Hin. apply (Hnew _ Hin). set_solver.
    + intros q Hq. apply elem_of_cons in Hq. destruct Hq as [->|Hq]; [exact Hfresh|].
      intros Hin. apply (Hnew _ Hq). set_solver.
    + cbn [list_to_set]. set_solver.
  - intros p node0 nn acc b idx n' idx' Hrun Hp Hleaf Hacc Hall.
    cbn [normalize_loop] in Hrun.
    destruct nn as [|first rest].
    + injection Hrun as <- <-.
      exists []. cbn [Anno.nn Anno.set_nn Anno.path]. rewrite app_nil_r.
      repeat split; try assumption; try constructor; try set_solver.
    + destruct (is_utterance first) eqn:Hutt.
      * destruct (pop_utterances (first :: rest)) as [ks nn'] eqn:Hpop.
        destruct (Anno.is_leaf node0) eqn:Hlf.
        -- injection Hrun as <- <-.
           rewrite (Hleaf eq_refl). exists [].
           cbn. repeat split; try assumption; try constructor; set_solver.
        -- destruct (Anno.register_anno_node idx (composed_topic p b ks))
             as [idx1|e] eqn:Hreg; [|discriminate].
           cbn [mbind outcome_bind Py.bind] in Hrun.
           apply register_ok in Hreg. destruct Hreg as [Hfresh ->].
           cbn [Anno.path composed_topic] in Hfresh.
           apply IHloop in Hrun; try assumption.
           ++ destruct Hrun as (added & Hpaths & Hnd & Hnew & -> & Hp' & Hext & Hall').
              exists ((p +:+ "." +:+ Py.str b) :: added).
              rewrite Hpaths, flat_map_app, map_app, <- app_assoc.
              repeat split; try assumption.
              ** constructor; [|exact Hnd]. intros Hin. apply (Hnew _ Hin). set_solver.
              ** intros q Hq. apply elem_of_cons in Hq. destruct Hq as [->|Hq]; [exact Hfresh|].
                 intros Hin. apply (Hnew _ Hq). set_solver.
              ** cbn [list_to_set]. set_solver.
           ++ intros Habs. congruence.
           ++ apply Forall_app. split; [exact Hacc|].
              constructor; [|constructor]. exists b. reflexivity.
           ++ rewrite flat_map_app. apply Forall_app. split; [exact Hall|].
              cbn. constructor; [|constructor]. constructor.
      * destruct (normalize_anno_tree fuel (p +:+ "." +:+ Py.str b) first idx)
          as [[child idx1]|e] eqn:Hchild; [|discriminate].
        cbn [mbind outcome_bind Py.bind] in Hrun.
        apply IHtree in Hchild.
        destruct Hchild as (Hcp & Hcall & Hcnd & Hcnew & ->).
        apply IHloop in Hrun; try assumption.
        -- destruct Hrun as (added & Hpaths & Hnd & Hnew & -> & Hp' & Hext & Hall').
           exists (Anno.paths child ++ added).
           rewrite Hpaths, flat_map_app, map_app, <- app_assoc.
           cbn [flat_map]. rewrite app_nil_r. fold (Anno.paths child).
           repeat split; try assumption.
           ** apply NoDup_app. repeat split; try assumption.
              intros q Hq Hq'. apply (Hnew _ Hq'). set_solver.
           ** intros q Hq. apply elem_of_app in Hq. destruct Hq as [Hq|Hq].
              --- apply Hcnew, Hq.
              --- intros Hin. apply (Hnew _ Hq). set_solver.
           ** rewrite list_to_set_app_L. set_solver.
        -- intros Habs. discriminate.
        -- apply Forall_app. split; [exact Hacc|].
           constructor; [|constructor]. exists b. exact Hcp.
        -- rewrite flat_map_app. apply Forall_app. split; [exact Hall|].
           cbn [flat_map]. rewrite app_nil_r. exact Hcall.
Qed.
Lemma pop_utterances_smaller (nn : list node) ks nn' :
  pop_utterances nn = (ks, nn') ->
  (Anno.stack_size nn' <= Anno.stack_size nn)%nat.
Proof.
  revert ks nn'. induction nn as [|c rest IH]; intros ks nn' Hpop.
  - injection Hpop as <- <-. lia.
  - cbn [pop_utterances] in Hpop. destruct (is_utterance c).
    + destruct (pop_utterances rest) as [ks0 nn0]. injection Hpop as <- <-.
      specialize (IH _ _ eq_refl). rewrite stack_size_cons. lia.
    + injection Hpop as <- <-. lia.
Qed.

(** With fuel twice the size of the tree, normalization never stops for
    lack of fuel. *)
Lemma normalize_fuel_enough (fuel : nat) :
  (forall p n idx,
     (2 * Anno.size n <= fuel)%nat ->
     normalize_anno_tree fuel p n idx <> Raise RecursionError) /\
  (forall p node0 nn acc b idx,
     (1 + 2 * Anno.stack_size nn <= fuel)%nat ->
     normalize_loop fuel p node0 nn acc b idx <> Raise RecursionError).
Proof.
  induction fuel as [|fuel [IHtree IHloop]];
    [split; intros; [rewrite size_unfold in *|]; lia|].
  split.
  - intros p n idx Hfuel. cbn [normalize_anno_tree].
    destruct (Anno.register_anno_node idx (Anno.set_path p n)) as [idx1|e] eqn:Hreg.
    + cbn [mbind outcome_bind Py.bind]. apply IHloop.
      rewrite size_unfold in Hfuel. lia.
    + cbn [mbind outcome_bind Py.bind]. unfold Anno.register_anno_node in Hreg.
      destruct (decide _); congruence.
  - intros p node0 nn acc b idx Hfuel. cbn [normalize_loop].
    destruct nn as [|first rest]; [discriminate|].
    rewrite stack_size_cons in Hfuel.
    pose proof (size_unfold first) as Hsz.
    destruct (is_utterance first) eqn:Hutt.
    + destruct (pop_utterances (first :: rest)) as [ks nn'] eqn:Hpop.
      cbn [pop_utterances] in Hpop. rewrite Hutt in Hpop.
      destruct (pop_utterances rest) as [ks0 nn0] eqn:Hpop0.
      injection Hpop as <- <-.
      apply pop_utterances_smaller in Hpop0.
      destruct (Anno.is_leaf node0); [discriminate|].
      destruct (Anno.register_anno_node idx _) as [idx1|e] eqn:Hreg.
      * cbn [mbind outcome_bind Py.bind]. apply IHloop.
        lia.
      * cbn [mbind outcome_bind Py.bind]. unfold Anno.register_anno_node in Hreg.
        destruct (decide _); congruence.
    + destruct (normalize_anno_tree fuel (p +:+ "." +:+ Py.str b) first idx)
        as [[child idx1]|e] eqn:Hchild.
      * cbn [mbind outcome_bind Py.bind]. apply IHloop. lia.
      * cbn [mbind outcome_bind Py.bind]. intros Habs.
        apply (IHtree (p +:+ "." +:+ Py.str b) first idx); [lia|].
        rewrite Hchild. exact Habs.
Qed.
End NormalizeFacts.
Section BuildFacts.
Import AMI.
Variable strip_key : string -> string.
Variable all_words : gmap string (gmap string word_index).

Lemma segment_to_utterances_keys entries keys convo :
  segment_to_utterances strip_key all_words entries = Ok (keys, convo) ->
  keys = map u_key convo.
Proof.
  unfold segment_to_utterances.
  destruct (segment_entries _ _ _ _) as [us|e]; [|discriminate].
  cbn. intros [= <- <-]. reflexivity.
Qed.

Lemma build_anno_S fuel idx p xml :
  build_anno strip_key all_words (S fuel) idx p xml =
  (let anno_node : node := Anno.set_path p Anno.fresh in
   anno_index ← Anno.register_anno_node idx anno_node;
   let children := Xml.children xml in
   let is_leaf := negb (existsb (fun child => String.eqb (etag child) "topic")
                                children) in
   let anno_node :=
     Anno.set_tag (node_tag xml is_leaf)
                  (Anno.set_is_leaf is_leaf anno_node) in
   '(anno_node, anno_index) ←
     build_loop strip_key all_words fuel anno_index xml anno_node 0 children;
   if Anno.is_leaf anno_node &&
      match Anno.keys anno_node with [] => true | _ => false end
   then Raise (NodeNoKeys (etag xml))
   else Ok (anno_node, anno_index)).
Proof. reflexivity. Qed.

Lemma build_loop_S fuel idx xml anno_node b children :
  build_loop strip_key all_words (S fuel) idx xml anno_node b children =
  match children with
  | [] => Ok (anno_node, idx)
  | first :: rest =>
      if Py.contains "pointer" (etag first) then
        build_loop strip_key all_words fuel idx xml anno_node b rest
      else if Py.contains "topic" (etag first) then
        '(child, anno_index) ←
          build_anno strip_key all_words fuel idx
            (Anno.path anno_node +:+ "." +:+ Py.str b) first;
        build_loop strip_key all_words fuel anno_index xml
          (Anno.set_nn (Anno.nn anno_node ++ [child]) anno_node) (S b) rest
      else if Py.contains "child" (etag first) then
        let '(segments, children') := pop_segments children in
        '(keys, convo) ← segment_to_utterances strip_key all_words segments;
        match keys with
        | [] => Raise (NodeNoKeys (etag xml))
        | _ :: _ =>
            if negb (Anno.is_leaf anno_node) then
              let composed_topic : node :=
                Anno.mkNode "leaf" EmptyString keys []
                  (Anno.path anno_node +:+ "." +:+ Py.str b) true convo false in
              anno_index ← Anno.register_anno_node idx composed_topic;
              build_loop strip_key all_words fuel anno_index xml
                (Anno.set_nn (Anno.nn anno_node ++ [composed_topic]) anno_node)
                (S b) children'
            else
              Ok (Anno.set_convo convo (Anno.set_keys keys anno_node), idx)
        end
      else Raise (NonSupportedNodetype (etag first))
  end.
Proof. reflexivity. Qed.

(** What a successful [build_anno] establishes. *)
Lemma build_invariants (fuel : nat) :
  (forall idx p xml n' idx',
     build_anno strip_key all_words fuel idx p xml = Ok (n', idx') ->
     Anno.registered_from idx p n' idx' /\
     Forall Anno.leaf_resolved (Anno.nodes n')) /\
  (forall idx xml node0 b children n' idx',
     build_loop strip_key all_words fuel idx xml node0 b children
       = Ok (n', idx') ->
     Anno.children_extend node0 ->
     Forall Anno.children_extend (flat_map Anno.nodes (Anno.nn node0)) ->
     Forall Anno.leaf_resolved (flat_map Anno.nodes (Anno.nn node0)) ->
     (Anno.keys node0 <> [] -> Anno.convo node0 <> []) ->
     Anno.loop_registered_from idx (Anno.path node0) (Anno.nn node0) n' idx' /\
     Anno.is_leaf n' = Anno.is_leaf node0 /\
     Forall Anno.leaf_resolved (flat_map Anno.nodes (Anno.nn n')) /\
     (Anno.keys n' <> [] -> Anno.convo n' <> [])).
Proof.
  induction fuel as [|fuel [IHtree IHloop]]; [split; intros; discriminate|].
  split.
  - intros idx p xml n' idx' Hrun. rewrite build_anno_S in Hrun. cbv zeta in Hrun.
    destruct (Anno.register_anno_node idx (Anno.set_path p Anno.fresh))
      as [idx1|e] eqn:Hreg; [|discriminate].
    cbn [mbind outcome_bind Py.bind] in Hrun.
    apply register_ok in Hreg. destruct Hreg as [Hfresh ->].
    cbn [Anno.path Anno.set_path] in Hfresh.
    match type of Hrun with
    | context [build_loop _ _ _ ?i ?x ?n ?b ?c] =>
        destruct (build_loop strip_key all_words fuel i x n b c)
          as [[n1 idx1]|e] eqn:Hloop; [|discriminate]
    end.
    cbn [mbind outcome_bind Py.bind] in Hrun.
    apply IHloop in Hloop;
      [|constructor|constructor|constructor|cbn; congruence].
    destruct Hloop as ((added & Hpaths & Hnd & Hnew & -> & Hp & Hext & Hall)
                       & Hlf & Hres & Hkc).
    cbn [Anno.nn Anno.set_tag Anno.set_is_leaf Anno.set_path Anno.fresh
         flat_map map app Anno.path Anno.is_leaf] in Hpaths, Hp, Hlf.
    destruct (Anno.is_leaf n1 && _) eqn:Hchk; [discriminate|].
    injection Hrun as Hn Hi. subst n' idx'.
    unfold Anno.registered_from.
    rewrite paths_unfold, nodes_unfold, Hpaths, Hp.
    repeat split.
    + constructor; assumption.
    + constructor; [|exact Hnd]. intros Hin. apply (Hnew _ Hin). set_solver.
    + intros q Hq. apply elem_of_cons in Hq. destruct Hq as [->|Hq]; [exact Hfresh|].
      intros Hin. apply (Hnew _ Hq). set_solver.
    + cbn [list_to_set]. set_solver.
    + constructor; [|assumption].
      intros Hleaf. rewrite Hleaf in Hchk. cbn in Hchk.
      destruct (Anno.keys n1) eqn:Hk; [discriminate|].
      split; [discriminate|]. apply Hkc. discriminate.
  - intros idx xml node0 b children n' idx' Hrun Hext0 Hall0 Hres0 Hkc0.
    rewrite build_loop_S in Hrun.
    destruct children as [|first rest].
    + injection Hrun as <- <-.
      repeat split; try assumption.
      exists []. rewrite app_nil_r.
      repeat split; try assumption; try constructor; try set_solver.
    + destruct (Py.contains "pointer" (etag first)).
      { apply IHloop in Hrun; assumption. }
      destruct (Py.contains "topic" (etag first)).
      { destruct (build_anno strip_key all_words fuel idx
                    (Anno.path node0 +:+ "." +:+ Py.str b) first)
          as [[child idx1]|e] eqn:Hchild; [|discriminate].
        cbn [mbind outcome_bind Py.bind] in Hrun.
        apply IHtree in Hchild.
        destruct Hchild as ((Hcp & Hcall & Hcnd & Hcnew & ->) & Hcres).
        apply IHloop in Hrun.
        - destruct Hrun as ((added & Hpaths & Hnd & Hnew & -> & Hp' & Hext & Hall')
                            & Hlf' & Hres' & Hkc').
          cbn [Anno.nn Anno.set_nn Anno.path Anno.is_leaf] in Hpaths, Hp', Hlf'.
          repeat split; try assumption.
          exists (Anno.paths child ++ added).
          rewrite Hpaths, flat_map_app, map_app, <- app_assoc.
          cbn [flat_map]. rewrite app_nil_r. fold (Anno.paths child).
          repeat split; try assumption.
          + apply NoDup_app. repeat split; try assumption.
            intros q Hq Hq'. apply (Hnew _ Hq'). set_solver.
          + intros q Hq. apply elem_of_app in Hq. destruct Hq as [Hq|Hq].
            * apply Hcnew, Hq.
            * intros Hin. apply (Hnew _ Hq). set_solver.
          + rewrite list_to_set_app_L. set_solver.
        - unfold Anno.children_extend. cbn [Anno.nn Anno.set_nn Anno.path].
          apply Forall_app. split; [exact Hext0|].
          constructor; [|constructor]. exists b. exact Hcp.
        - cbn [Anno.nn Anno.set_nn]. rewrite flat_map_app. apply Forall_app.
          split; [exact Hall0|]. cbn [flat_map]. rewrite app_nil_r. exact Hcall.
        - cbn [Anno.nn Anno.set_nn]. rewrite flat_map_app. apply Forall_app.
          split; [exact Hres0|]. cbn [flat_map]. rewrite app_nil_r. exact Hcres.
        - exact Hkc0. }
      destruct (Py.contains "child" (etag first)); [|discriminate].
      destruct (pop_segments (first :: rest)) as [segments children'].
      destruct (segment_to_utterances strip_key all_words segments)
        as [[keys convo]|e] eqn:Hseg; [|discriminate].
      cbn [mbind outcome_bind Py.bind] in Hrun.
      apply segment_to_utterances_keys in Hseg.
      destruct keys as [|k keys]; [discriminate|].
      assert (Hconvo : convo <> []) by (destruct convo; discriminate).
      destruct (Anno.is_leaf node0) eqn:Hlf0; cbn [negb] in Hrun.
      * injection Hrun as <- <-.
        split; [|split; [exact Hlf0|split; [assumption|intros _; exact Hconvo]]].
        exists []. rewrite app_nil_r.
        repeat split; try assumption; try constructor; try set_solver.
      * match type of Hrun with
        | context [Anno.register_anno_node idx ?t] =>
            destruct (Anno.register_anno_node idx t) as [idx1|e] eqn:Hreg;
              [|discriminate]
        end.
        cbn [mbind outcome_bind Py.bind] in Hrun.
        apply register_ok in Hreg. destruct Hreg as [Hfresh ->].
        cbn [Anno.path] in Hfresh.
        apply IHloop in Hrun.
        -- destruct Hrun as ((added & Hpaths & Hnd & Hnew & -> & Hp' & Hext & Hall')
                             & Hlf' & Hres' & Hkc').
           cbn [Anno.nn Anno.set_nn Anno.path Anno.is_leaf] in Hpaths, Hp', Hlf'.
           repeat split; try assumption; try congruence.
           exists ((Anno.path node0 +:+ "." +:+ Py.str b) :: added).
           rewrite Hpaths, flat_map_app, map_app, <- app_assoc.
           repeat split; try assumption; try congruence.
           ++ constructor; [|exact Hnd]. intros Hin. apply (Hnew _ Hin). set_solver.
           ++ intros q Hq. apply elem_of_cons in Hq. destruct Hq as [->|Hq]; [exact Hfresh|].
              intros Hin. apply (Hnew _ Hq). set_solver.
           ++ cbn [list_to_set]. set_solver.
        -- unfold Anno.children_extend. cbn [Anno.nn Anno.set_nn Anno.path].
           apply Forall_app. split; [exact Hext0|].
           constructor; [|constructor]. exists b. reflexivity.
        -- cbn [Anno.nn Anno.set_nn]. rewrite flat_map_app. apply Forall_app.
           split; [exact Hall0|]. cbn. constructor; [|constructor]. constructor.
        -- cbn [Anno.nn Anno.set_nn]. rewrite flat_map_app. apply Forall_app.
           split; [exact Hres0|]. cbn. constructor; [|constructor].
           intros _. cbn. split; [discriminate|exact Hconvo].
        -- exact Hkc0.
Qed.

End BuildFacts.
Section BuildFuel.
Import AMI.
Variable strip_key : string -> string.
Variable all_words : gmap string (gmap string word_index).

Lemma element_count_unfold (e : Element) :
  element_count e = S (forest_count (children e)).
Proof. destruct e; reflexivity. Qed.

Lemma forest_count_cons (e : Element) (l : list Element) :
  forest_count (e :: l) = (element_count e + forest_count l)%nat.
Proof. reflexivity. Qed.

Lemma pop_segments_smaller (children : list Element) segs children' :
  pop_segments children = (segs, children') ->
  (forest_count children' <= forest_count children)%nat.
Proof.
  revert segs children'.
  induction children as [|c rest IH]; intros segs children' Hpop.
  - injection Hpop as <- <-. lia.
  - cbn [pop_segments] in Hpop. destruct (Py.contains "child" (etag c)).
    + destruct (pop_segments rest) as [s0 c0]. injection Hpop as <- <-.
      specialize (IH _ _ eq_refl). rewrite forest_count_cons. lia.
    + injection Hpop as <- <-. lia.
Qed.

Lemma bind_no_recursion {A B} (m : outcome A) (k : A -> outcome B) :
  m <> Raise RecursionError ->
  (forall a, k a <> Raise RecursionError) ->
  (m ≫= k) <> Raise RecursionError.
Proof.
  intros Hm Hk. destruct m as [a|e]; cbn; [apply Hk|].
  intros [= ->]. apply Hm. reflexivity.
Qed.

Lemma split_range_no_recursion utt_content speaker meeting wi ts :
  forall utterances utt_words,
  split_range utt_content speaker meeting wi ts utterances utt_words
  <> Raise RecursionError.
Proof.
  induction ts as [|i ts IH]; intros utterances utt_words; [discriminate|].
  cbn [split_range].
  destruct (words wi !! i) as [[w|]|]; [|apply IH|discriminate].
  apply bind_no_recursion.
  - unfold ends_sentence. destruct (rev _); discriminate.
  - intros [|]; [|apply IH].
    apply bind_no_recursion; [|intros u; apply IH].
    unfold mint_utterance. destruct (utt_words ++ [w]); discriminate.
Qed.

Lemma segment_entry_no_recursion utterances entry :
  segment_entry strip_key all_words utterances entry <> Raise RecursionError.
Proof.
  unfold segment_entry. apply bind_no_recursion.
  { unfold attr. destruct (_ !! _); discriminate. }
  intros href.
  destruct (Py.split "#" href) as [|meta [|utt_content [|? ?]]];
    try discriminate.
  destruct (Py.split "." meta) as [|meeting [|speaker ?]]; try discriminate.
  destruct (all_words !! meeting) as [by_speaker|]; [|discriminate].
  destruct (by_speaker !! speaker) as [wi|]; [|discriminate].
  assert (Hidx : forall k, lookup_index wi k <> Raise RecursionError).
  { intros k. unfold lookup_index. destruct (_ !! _); discriminate. }
  destruct (Py.contains ".." utt_content).
  - destruct (Py.split ".." utt_content) as [|a [|b [|? ?]]]; try discriminate.
    apply bind_no_recursion; [apply Hidx|]. intros start_idx.
    apply bind_no_recursion; [apply Hidx|]. intros end_idx.
    apply bind_no_recursion; [apply split_range_no_recursion|].
    intros [us [|w ws]]; [discriminate|].
    apply bind_no_recursion; [|discriminate].
    unfold mint_utterance. discriminate.
  - apply bind_no_recursion; [apply Hidx|]. intros word_idx.
    destruct (words wi !! word_idx) as [[w|]|]; discriminate.
Qed.

Lemma segment_entries_no_recursion entries :
  forall utterances,
  segment_entries strip_key all_words utterances entries
  <> Raise RecursionError.
Proof.
  induction entries as [|entry rest IH]; intros utterances; [discriminate|].
  cbn [segment_entries].
  apply bind_no_recursion; [apply segment_entry_no_recursion|apply IH].
Qed.

(** With fuel twice the number of elements of the document, [build_anno]
    never stops for lack of fuel. *)
Lemma build_fuel_enough (fuel : nat) :
  (forall idx p xml,
     (2 * element_count xml <= fuel)%nat ->
     build_anno strip_key all_words fuel idx p xml <> Raise RecursionError) /\
  (forall idx xml node0 b children,
     (1 + 2 * forest_count children <= fuel)%nat ->
     build_loop strip_key all_words fuel idx xml node0 b children
     <> Raise RecursionError).
Proof.
  induction fuel as [|fuel [IHtree IHloop]];
    [split; intros; [rewrite element_count_unfold in *|]; lia|].
  split.
  - intros idx p xml Hfuel. rewrite build_anno_S. cbv zeta.
    destruct (Anno.register_anno_node idx _) as [idx1|e] eqn:Hreg.
    + cbn [mbind outcome_bind Py.bind].
      match goal with
      | |- context [build_loop _ _ _ ?i ?x ?n ?b ?c] =>
          pose proof (IHloop i x n b c) as Hloop;
          destruct (build_loop strip_key all_words fuel i x n b c)
            as [[n1 idx2]|e]
      end.
      * cbn [mbind outcome_bind Py.bind]. destruct (_ && _); discriminate.
      * cbn [mbind outcome_bind Py.bind]. apply Hloop.
        rewrite element_count_unfold in Hfuel. lia.
    + cbn [mbind outcome_bind Py.bind]. unfold Anno.register_anno_node in Hreg.
      destruct (decide _); congruence.
  - intros idx xml node0 b children Hfuel. rewrite build_loop_S.
    destruct children as [|first rest]; [discriminate|].
    rewrite forest_count_cons in Hfuel.
    pose proof (element_count_unfold first) as Hsz.
    destruct (Py.contains "pointer" (etag first)); [apply IHloop; lia|].
    destruct (Py.contains "topic" (etag first)).
    { destruct (build_anno strip_key all_words fuel idx _ first)
        as [[child idx1]|e] eqn:Hchild.
      - cbn [mbind outcome_bind Py.bind]. apply IHloop. lia.
      - cbn [mbind outcome_bind Py.bind]. intros Habs.
        eapply IHtree; [|rewrite Hchild; exact Habs]. lia. }
    destruct (Py.contains "child" (etag first)) eqn:Hc; [|discriminate].
    cbn [pop_segments]. rewrite Hc.
    destruct (pop_segments rest) as [s0 children'] eqn:Hpop.
    apply pop_segments_smaller in Hpop.
    destruct (segment_to_utterances strip_key all_words (first :: s0))
      as [[keys convo]|e] eqn:Hseg.
    + cbn [mbind outcome_bind Py.bind].
      destruct keys as [|k keys]; [discriminate|].
      destruct (negb (Anno.is_leaf node0)); [|discriminate].
      destruct (Anno.register_anno_node idx _) as [idx1|e] eqn:Hreg.
      * cbn [mbind outcome_bind Py.bind]. apply IHloop. lia.
      * cbn [mbind outcome_bind Py.bind]. unfold Anno.register_anno_node in Hreg.
        destruct (decide _); congruence.
    + cbn [mbind outcome_bind Py.bind]. intros Habs. injection Habs as ->.
      revert Hseg. unfold segment_to_utterances.
      destruct (segment_entries _ _ _ _) as [us|e] eqn:Hent;
        [discriminate|].
      cbn [mbind outcome_bind Py.bind]. intros [= ->].
      eapply segment_entries_no_recursion. exact Hent.
Qed.
End BuildFuel.
Section PathFacts.

Lemma uint_string_no_dot (d : Decimal.uint) :
  Py.contains "." (NilEmpty.string_of_uint d) = false.
Proof. induction d; cbn; auto. Qed.

(** An ordinal is printed without a dot: it is one segment of a path. *)
Lemma str_no_dot (k : nat) : Py.contains "." (Py.str k) = false.
Proof.
  unfold Py.str, NilZero.string_of_uint.
  destruct (Nat.to_uint k) eqn:E; try (rewrite <- E; apply uint_string_no_dot).
  reflexivity.
Qed.

(** The leaves that [build_anno] leaves behind all carry utterances. *)
Lemma build_anno_leaves_resolved strip_key all_words fuel idx p xml n' idx' :
  AMI.build_anno strip_key all_words fuel idx p xml = Ok (n', idx') ->
  Notes.leaves_resolved (Anno.discover_anno_leaves n').
Proof.
  intros Hrun.
  destruct (proj1 (build_invariants strip_key all_words fuel) _ _ _ _ _ Hrun)
    as [_ Hres].
  rewrite discover_preorder, preorder_leaves_nodes.
  unfold Notes.leaves_resolved.
  apply Forall_forall. intros leaf Hleaf.
  apply list_elem_of_In, filter_In in Hleaf. destruct Hleaf as [Hin Hlf].
  rewrite Forall_forall in Hres.
  apply list_elem_of_In in Hin.
  apply (Hres leaf Hin Hlf).
Qed.

End PathFacts.
(** ** Finalization of the ICSI tree *)

Section ParentPath.

Lemma split_dot_step (cur : string) (c : ascii) (s : string) :
  Py.split_from "." 0 cur (String c s) =
  if Ascii.eqb "."%char c
  then cur :: Py.split_from "." 0 EmptyString s
  else Py.split_from "." 0 (cur +:+ String c EmptyString) s.
Proof.
  cbn [Py.split_from Py.strip_prefix String.length Nat.sub].
  destruct (Ascii.eqb "." c); reflexivity.
Qed.

Lemma contains_dot_cons (c : ascii) (s : string) :
  Py.contains "." (String c s) = Ascii.eqb "."%char c || Py.contains "." s.
Proof.
  cbn [Py.contains Py.strip_prefix].
  destruct (Ascii.eqb "." c); reflexivity.
Qed.

Lemma string_app_cons (cur : string) (c : ascii) (p : string) :
  (cur +:+ String c EmptyString) +:+ p = cur +:+ String c p.
Proof. rewrite string_app_assoc. reflexivity. Qed.

(** A string without a dot is a single piece. *)
Lemma split_no_dot (d : string) :
  forall cur, Py.contains "." d = false ->
  Py.split_from "." 0 cur d = [cur +:+ d].
Proof.
  induction d as [|c d IH]; intros cur Hd.
  - cbn. rewrite string_app_nil_r. reflexivity.
  - rewrite contains_dot_cons in Hd. apply orb_false_iff in Hd.
    destruct Hd as [Hc Hd].
    rewrite split_dot_step, Hc, IH by exact Hd.
    rewrite string_app_cons. reflexivity.
Qed.

Lemma parent_of_extension (d : string) (p : string) :
  forall cur,
  Py.contains "." d = false ->
  removelast (Py.split_from "." 0 cur (p +:+ "." +:+ d)) <> [] /\
  Py.join "." (removelast (Py.split_from "." 0 cur (p +:+ "." +:+ d)))
  = cur +:+ p.
Proof.
  induction p as [|c p IH]; intros cur Hd.
  - change (EmptyString +:+ "." +:+ d) with (String "." d).
    rewrite split_dot_step, Ascii.eqb_refl.
    rewrite split_no_dot by exact Hd. cbn [removelast Py.join].
    rewrite string_app_nil_r. split; [discriminate|reflexivity].
  - change (String c p +:+ "." +:+ d) with (String c (p +:+ "." +:+ d)).
    rewrite split_dot_step.
    destruct (Ascii.eqb_spec "."%char c) as [<-|Hne].
    + destruct (IH EmptyString Hd) as [Hne Hjoin].
      destruct (Py.split_from "." 0 EmptyString (p +:+ "." +:+ d))
        as [|x l] eqn:E; [contradiction Hne; reflexivity|].
      change (removelast (cur :: x :: l)) with (cur :: removelast (x :: l)).
      split; [discriminate|].
      destruct (removelast (x :: l)) as [|y r] eqn:Er;
        [contradiction Hne; reflexivity|].
      change (Py.join "." (cur :: y :: r))
        with (cur +:+ "." +:+ Py.join "." (y :: r)).
      rewrite Hjoin. reflexivity.
    + destruct (IH (cur +:+ String c EmptyString) Hd) as [Hne' Hjoin].
      split; [exact Hne'|]. rewrite Hjoin. apply string_app_cons.
Qed.

(** The parent path of a path that extends [p] by one ordinal is [p]. *)
Lemma get_parent_path_extends (p child : string) :
  Anno.extends_path p child -> ICSI.get_parent_path child = p.
Proof.
  intros [k ->]. unfold ICSI.get_parent_path, Py.split.
  apply (parent_of_extension (Py.str k) p EmptyString), str_no_dot.
Qed.

End ParentPath.
Section FinalizeFacts.
Import ICSI.

Lemma prune_unfold (pp q : string) (n : node) :
  prune pp q n =
  Anno.set_nn
    (if String.eqb (Anno.path n) pp
     then List.filter (fun c => negb (String.eqb (Anno.path c) q))
                      (map (prune pp q) (Anno.nn n))
     else map (prune pp q) (Anno.nn n))
    n.
Proof. destruct n; reflexivity. Qed.

Lemma prune_payload (pp q : string) (n : node) : same_payload (prune pp q n) n.
Proof. rewrite prune_unfold. repeat split. Qed.

(** The children of a pruned node are pruned children of the node. *)
Lemma prune_children (pp q : string) (n : node) (c' : node) :
  c' ∈ Anno.nn (prune pp q n) ->
  exists c, c ∈ Anno.nn n /\ c' = prune pp q c /\
            (Anno.path n = pp -> Anno.path c <> q).
Proof.
  rewrite prune_unfold. cbn [Anno.nn Anno.set_nn].
  destruct (String.eqb_spec (Anno.path n) pp) as [Heq|Hne].
  - intros Hin. apply list_elem_of_In, filter_In in Hin. destruct Hin as [Hin Hq].
    apply in_map_iff in Hin. destruct Hin as (c & <- & Hc).
    exists c. split; [apply list_elem_of_In, Hc|]. split; [reflexivity|].
    intros _ Habs. destruct (prune_payload pp q c) as (Hp & _).
    rewrite Hp, Habs, String.eqb_refl in Hq. discriminate.
  - intros Hin. apply list_elem_of_In, in_map_iff in Hin.
    destruct Hin as (c & <- & Hc).
    exists c. split; [apply list_elem_of_In, Hc|]. split; [reflexivity|].
    intros Habs. contradiction.
Qed.

Lemma inner_elem (n x : node) :
  x ∈ inner n <-> exists c, c ∈ Anno.nn n /\ x ∈ Anno.nodes c.
Proof.
  unfold inner. rewrite list_elem_of_In, in_flat_map.
  split; intros (c & Hc & Hx); exists c;
    rewrite ?list_elem_of_In in *; auto.
Qed.

Lemma nodes_elem (n x : node) :
  x ∈ Anno.nodes n <-> x = n \/ x ∈ inner n.
Proof. rewrite nodes_unfold, elem_of_cons. reflexivity. Qed.

(** Every node of a pruned tree stands for a node of the tree. *)
Lemma prune_nodes (pp q : string) (n : node) :
  forall x', x' ∈ inner (prune pp q n) ->
  exists x, x ∈ inner n /\ same_payload x' x.
Proof.
  induction n as [n IH] using node_ind'.
  intros x' Hx'. apply inner_elem in Hx'. destruct Hx' as (c' & Hc' & Hx').
  apply prune_children in Hc'. destruct Hc' as (c & Hc & -> & _).
  rewrite Forall_forall in IH. specialize (IH c Hc).
  apply nodes_elem in Hx'. destruct Hx' as [-> | Hx'].
  - exists c. split; [|apply prune_payload].
    apply inner_elem. exists c. split; [exact Hc|]. apply nodes_elem. auto.
  - destruct (IH x' Hx') as (x & Hx & Hsame).
    exists x. split; [|exact Hsame].
    apply inner_elem. exists c. split; [exact Hc|]. apply nodes_elem. auto.
Qed.

Lemma children_extend_all_unfold (n : node) :
  Forall Anno.children_extend (Anno.nodes n) <->
  Anno.children_extend n /\
  Forall (fun c => Forall Anno.children_extend (Anno.nodes c)) (Anno.nn n).
Proof.
  rewrite nodes_unfold, Forall_cons.
  split; intros [Hn Hrest]; (split; [exact Hn|]).
  - induction (Anno.nn n) as [|c l IHl]; [constructor|].
    cbn [flat_map] in Hrest. apply Forall_app in Hrest. destruct Hrest.
    constructor; auto.
  - induction Hrest as [|c l Hc _ IHl]; [constructor|].
    cbn [flat_map]. apply Forall_app. auto.
Qed.

(** Pruning keeps the shape of the paths. *)
Lemma prune_children_extend (pp q : string) (n : node) :
  Forall Anno.children_extend (Anno.nodes n) ->
  Forall Anno.children_extend (Anno.nodes (prune pp q n)).
Proof.
  induction n as [n IH] using node_ind'.
  intros Hall. apply children_extend_all_unfold in Hall.
  destruct Hall as [Hn Hch].
  apply children_extend_all_unfold. split.
  - unfold Anno.children_extend in *. apply Forall_forall. intros c' Hc'.
    apply prune_children in Hc'. destruct Hc' as (c & Hc & -> & _).
    destruct (prune_payload pp q c) as (-> & _).
    destruct (prune_payload pp q n) as (-> & _).
    rewrite Forall_forall in Hn. apply Hn, Hc.
  - apply Forall_forall. intros c' Hc'.
    apply prune_children in Hc'. destruct Hc' as (c & Hc & -> & _).
    rewrite Forall_forall in IH, Hch. apply IH; [exact Hc|]. apply Hch, Hc.
Qed.

(** After pruning with the parent path of [q], no node below the root
    carries the path [q]. *)
Lemma prune_removes (q : string) (n : node) :
  Forall Anno.children_extend (Anno.nodes n) ->
  forall x', x' ∈ inner (prune (get_parent_path q) q n) -> Anno.path x' <> q.
Proof.
  induction n as [n IH] using node_ind'.
  intros Hall x' Hx'. apply children_extend_all_unfold in Hall.
  destruct Hall as [Hn Hch].
  apply inner_elem in Hx'. destruct Hx' as (c' & Hc' & Hx').
  apply prune_children in Hc'. destruct Hc' as (c & Hc & -> & Hfilter).
  unfold Anno.children_extend in Hn.
  rewrite Forall_forall in IH, Hch, Hn.
  apply nodes_elem in Hx'. destruct Hx' as [-> | Hx'].
  - destruct (prune_payload (get_parent_path q) q c) as (-> & _).
    intros Habs. apply Hfilter; [|exact Habs].
    rewrite <- Habs. symmetry. apply get_parent_path_extends, Hn, Hc.
  - apply (IH c Hc (Hch c Hc) x' Hx').
Qed.


(** *** Writing the resolved leaves back *)

Lemma write_back_unfold (n : node) (new : list node) :
  write_back n new =
  (let '(n1, new1) :=
     if Anno.is_leaf n then
       match new with
       | x :: rest =>
           (Anno.set_convo (Anno.convo x) (Anno.set_keys (Anno.keys x) n), rest)
       | [] => (n, [])
       end
     else (n, new) in
   let '(children, new2) := write_children (Anno.nn n) new1 in
   (Anno.set_nn children n1, new2)).
Proof. destruct n; reflexivity. Qed.

Lemma write_children_spec (l : list node) :
  Forall (fun c => forall new,
            Forall keys_match new ->
            (length (Anno.preorder_leaves c) <= length new)%nat ->
            written c (fst (write_back c new)) new (snd (write_back c new))) l ->
  forall new,
  Forall keys_match new ->
  (length (flat_map Anno.preorder_leaves l) <= length new)%nat ->
  written_children l (fst (write_children l new)) new
                   (snd (write_children l new)).
Proof.
  induction 1 as [|c l Hc _ IHl]; intros new Hnew Hlen.
  - cbn. unfold written_children. cbn.
    repeat split; auto; lia.
  - cbn [flat_map] in Hlen. rewrite length_app in Hlen.
    cbn [write_children].
    specialize (Hc new Hnew ltac:(lia)).
    destruct (write_back c new) as [c' new'].
    destruct Hc as (Hp & Hlf & Hext & Hcount & Hrest & Hleaves).
    cbn [fst snd] in *.
    specialize (IHl new' Hrest ltac:(lia)).
    destruct (write_children l new') as [l' new''].
    destruct IHl as (Hp2 & Hext2 & Hcount2 & Hrest2 & Hleaves2).
    cbn [fst snd] in *.
    unfold written_children. cbn [flat_map]. rewrite length_app.
    repeat split.
    + constructor; assumption.
    + intros Hall. inversion Hall; subst. constructor; auto.
    + lia.
    + assumption.
    + apply Forall_app. auto.
Qed.

Lemma write_back_spec (n : node) :
  forall new,
  Forall keys_match new ->
  (length (Anno.preorder_leaves n) <= length new)%nat ->
  written n (fst (write_back n new)) new (snd (write_back n new)).
Proof.
  induction n as [n IH] using node_ind'.
  intros new Hnew Hlen.
  rewrite preorder_leaves_unfold, length_app in Hlen.
  rewrite write_back_unfold.
  pose proof (write_children_spec (Anno.nn n) IH) as Hch.
  unfold written. rewrite (preorder_leaves_unfold n), length_app.
  destruct (Anno.is_leaf n) eqn:Hlf.
  - destruct new as [|x new]; [cbn in Hlen; lia|].
    inversion Hnew as [|? ? Hx Hnew']; subst.
    cbn [length] in Hlen.
    specialize (Hch new Hnew' ltac:(lia)).
    destruct (write_children (Anno.nn n) new) as [children rest].
    destruct Hch as (Hp2 & Hext2 & Hcount2 & Hrest2 & Hleaves2).
    cbn [fst snd] in *.
    cbn [Anno.path Anno.is_leaf Anno.set_nn Anno.set_convo Anno.set_keys
         Anno.nn length].
    repeat split; try assumption; try lia.
    + intros Hall. apply children_extend_all_unfold in Hall.
      destruct Hall as [Hn Hall].
      apply children_extend_all_unfold.
      cbn [Anno.nn Anno.set_nn]. split; [|apply Hext2, Hall].
      unfold Anno.children_extend in *. cbn [Anno.nn Anno.path].
      clear - Hp2 Hn. induction Hp2 as [|c' c l' l Hc _ IHl]; [constructor|].
      inversion Hn; subst. constructor; [rewrite Hc; assumption|auto].
    + rewrite nodes_unfold. constructor; [|exact Hleaves2].
      intros _. unfold keys_match. cbn. exact Hx.
  - specialize (Hch new Hnew ltac:(cbn in Hlen; lia)).
    destruct (write_children (Anno.nn n) new) as [children rest].
    destruct Hch as (Hp2 & Hext2 & Hcount2 & Hrest2 & Hleaves2).
    cbn [fst snd] in *.
    cbn [Anno.path Anno.is_leaf Anno.set_nn Anno.nn length].
    repeat split; try assumption; try (cbn [length]; lia).
    + intros Hall. apply children_extend_all_unfold in Hall.
      destruct Hall as [Hn Hall].
      apply children_extend_all_unfold.
      cbn [Anno.nn Anno.set_nn]. split; [|apply Hext2, Hall].
      unfold Anno.children_extend in *. cbn [Anno.nn Anno.path].
      clear - Hp2 Hn. induction Hp2 as [|c' c l' l Hc _ IHl]; [constructor|].
      inversion Hn; subst. constructor; [rewrite Hc; assumption|auto].
    + rewrite nodes_unfold. constructor; [|exact Hleaves2].
      intros Habs. cbn in Habs. congruence.
Qed.

End FinalizeFacts.
Section LoadFacts.
Import ICSI.

Lemma attach_key_match index leaf_path r st key r' st' :
  attach_key index leaf_path (r, st) key = Ok (r', st') ->
  length (filtered_keys r) = length (r_convo r) ->
  length (filtered_keys r') = length (r_convo r').
Proof.
  unfold attach_key.
  destruct (Py.split ":" key) as [|speaker [|utt_key [|? ?]]]; try discriminate.
  destruct (index !! speaker) as [utts|]; [|discriminate].
  destruct (utts !! utt_key) as [utt|].
  - intros [= <- <-] Hlen. cbn. rewrite !length_app, Hlen. reflexivity.
  - intros [= <- <-] Hlen. exact Hlen.
Qed.

Lemma attach_keys_match index leaf_path ks :
  forall r st r' st',
  attach_keys index leaf_path (r, st) ks = Ok (r', st') ->
  length (filtered_keys r) = length (r_convo r) ->
  length (filtered_keys r') = length (r_convo r').
Proof.
  induction ks as [|key ks IH]; intros r st r' st' Hrun Hlen.
  - injection Hrun as <- <-. exact Hlen.
  - cbn [attach_keys] in Hrun.
    destruct (attach_key index leaf_path (r, st) key) as [[r1 st1]|e] eqn:Hkey;
      [|discriminate].
    cbn [mbind outcome_bind Py.bind] in Hrun.
    apply (IH _ _ _ _ Hrun). apply (attach_key_match _ _ _ _ _ _ _ Hkey Hlen).
Qed.

(** Resolution returns as many leaves as it was given, each with as many
    keys as utterances. *)
Lemma attach_leaves_shape index (anno_leaves : list node) :
  forall st leaves' st',
  attach_leaves index st anno_leaves = Ok (leaves', st') ->
  length leaves' = length anno_leaves /\ Forall keys_match leaves'.
Proof.
  induction anno_leaves as [|leaf rest IH]; intros st leaves' st' Hrun.
  - injection Hrun as <- <-. split; [reflexivity|constructor].
  - cbn [attach_leaves] in Hrun. unfold attach_leaf in Hrun.
    destruct (attach_keys index (Anno.path leaf) (mk_resolved [] [], st)
                (Anno.keys leaf)) as [[r st1]|e] eqn:Hkeys; [|discriminate].
    cbn [mbind outcome_bind Py.bind] in Hrun.
    destruct (attach_leaves index st1 rest) as [[rest' st2]|e] eqn:Hrest;
      [|discriminate].
    cbn [mbind outcome_bind Py.bind] in Hrun. injection Hrun as <- <-.
    destruct (IH _ _ _ Hrest) as [Hlen Hall].
    split; [cbn; lia|]. constructor; [|exact Hall].
    unfold keys_match. cbn.
    apply (attach_keys_match _ _ _ _ _ _ _ Hkeys). reflexivity.
Qed.

Lemma extension_not_empty (p child : string) :
  Anno.extends_path p child -> child <> EmptyString.
Proof. intros [k ->]. destruct p; discriminate. Qed.

(** No node of a tree with a proper root path carries the empty path. *)
Lemma paths_not_empty (n : node) :
  Forall Anno.children_extend (Anno.nodes n) ->
  Anno.path n <> EmptyString ->
  Forall (fun x => Anno.path x <> EmptyString) (Anno.nodes n).
Proof.
  induction n as [n IH] using node_ind'.
  intros Hall Hroot. apply children_extend_all_unfold in Hall.
  destruct Hall as [Hn Hch].
  rewrite nodes_unfold. constructor; [exact Hroot|].
  unfold Anno.children_extend in Hn.
  induction IH as [|c l Hc _ IHl]; [constructor|].
  inversion Hn; subst. inversion Hch; subst.
  cbn [flat_map]. apply Forall_app. split; [|auto].
  apply Hc; [assumption|]. eapply extension_not_empty. eassumption.
Qed.

Lemma same_payload_trans (a b c : node) :
  same_payload a b -> same_payload b c -> same_payload a c.
Proof. unfold same_payload. intuition congruence. Qed.

(** What the loop of [finalize_anno_tree] has done once it ends well. *)
Lemma delete_empty_leaves_spec (anno_leaves : list node) :
  forall st st',
  delete_empty_leaves st anno_leaves = Ok st' ->
  Forall Anno.children_extend (Anno.nodes (ts_root st)) ->
  ts_index st' ⊆ ts_index st /\
  Forall Anno.children_extend (Anno.nodes (ts_root st')) /\
  same_payload (ts_root st') (ts_root st) /\
  (forall x', x' ∈ inner (ts_root st') ->
     exists x, x ∈ inner (ts_root st) /\ same_payload x' x) /\
  (forall leaf, leaf ∈ anno_leaves -> Anno.keys leaf = [] ->
     get_parent_path (Anno.path leaf) ∈ ts_index st /\
     forall x', x' ∈ inner (ts_root st') -> Anno.path x' <> Anno.path leaf).
Proof.
  induction anno_leaves as [|leaf rest IH]; intros st st' Hrun Hext.
  - injection Hrun as <-.
    split; [reflexivity|]. split; [exact Hext|]. split; [repeat split|].
    split.
    + intros x' Hx'. exists x'. split; [exact Hx'|repeat split].
    + intros l Hl. apply elem_of_nil in Hl. contradiction.
  - cbn [delete_empty_leaves] in Hrun.
    destruct (Anno.keys leaf) as [|k ks] eqn:Hkeys.
    + destruct (delete_anno_leaf st (Anno.path leaf)) as [st1|e] eqn:Hdel;
        [|discriminate].
      cbn [mbind outcome_bind Py.bind] in Hrun.
      unfold delete_anno_leaf in Hdel.
      destruct (decide (Anno.path leaf ∈ ts_index st)) as [Hin|]; [|discriminate].
      destruct (decide (get_parent_path (Anno.path leaf) ∈ ts_index st))
        as [Hpin|]; [|discriminate].
      injection Hdel as <-.
      pose proof (prune_children_extend (get_parent_path (Anno.path leaf))
                    (Anno.path leaf) (ts_root st) Hext) as Hext1.
      destruct (IH _ _ Hrun Hext1) as (Hsub & Hext' & Hroot & Hinner & Hleaves).
      cbn [ts_index ts_root] in *.
      split; [set_solver|]. split; [exact Hext'|]. split.
      { eapply same_payload_trans; [exact Hroot|apply prune_payload]. }
      split.
      { intros x' Hx'. destruct (Hinner x' Hx') as (x1 & Hx1 & Hs1).
        destruct (prune_nodes _ _ _ x1 Hx1) as (x & Hx & Hs).
        exists x. split; [exact Hx|].
        eapply same_payload_trans; eassumption. }
      intros l Hl Hlk. apply elem_of_cons in Hl. destruct Hl as [-> | Hl].
      * split; [exact Hpin|].
        intros x' Hx'. destruct (Hinner x' Hx') as (x1 & Hx1 & (Hp1 & _)).
        rewrite Hp1. apply (prune_removes _ _ Hext x1 Hx1).
      * destruct (Hleaves l Hl Hlk) as [Hp Hno]. split; [set_solver|exact Hno].
    + destruct (IH _ _ Hrun Hext) as (Hsub & Hext' & Hroot & Hinner & Hleaves).
      split; [exact Hsub|]. split; [exact Hext'|]. split; [exact Hroot|].
      split; [exact Hinner|].
      intros l Hl Hlk. apply elem_of_cons in Hl. destruct Hl as [-> | Hl];
        [congruence|]. apply (Hleaves l Hl Hlk).
Qed.

End LoadFacts.
Section LoadTheorem.
Import ICSI.

(** The leaves of the tree that [load_anno_tree] leaves behind for an ICSI
    meeting all carry utterances: resolution gives every leaf as many
    utterances as keys, and finalization deletes the leaves without
    keys. *)
Lemma load_anno_tree_leaves_resolved (index : meeting_index) (built : node)
    (st : tree_state) :
  load_anno_tree index built = Ok st ->
  Notes.leaves_resolved (Anno.discover_anno_leaves (ts_root st)).
Proof.
  unfold load_anno_tree. intros Hrun.
  destruct (normalize_anno_tree (normalize_fuel built) "*" built ∅)
    as [[root1 idx1]|e] eqn:Hnorm; [|discriminate].
  cbn [mbind outcome_bind Py.bind] in Hrun.
  apply (proj1 (normalize_invariants _)) in Hnorm.
  destruct Hnorm as (Hp1 & Hext1 & _ & _ & Hidx1).
  unfold attach_meeting_notes_tree, attach_meeting_notes in Hrun.
  destruct (attach_leaves index (mk_attach_state ∅ [])
              (Anno.discover_anno_leaves root1)) as [[leaves' ast]|e] eqn:Hatt;
    [|discriminate].
  cbn [mbind outcome_bind Py.bind] in Hrun.
  apply attach_leaves_shape in Hatt. destruct Hatt as [Hlen Hmatch].
  rewrite discover_preorder in Hlen.
  pose proof (write_back_spec root1 leaves' Hmatch ltac:(lia)) as Hwritten.
  set (root2 := fst (write_back root1 leaves')) in *.
  destruct Hwritten as (Hp2 & _ & Hext2 & _ & _ & Hleaf2).
  specialize (Hext2 Hext1).
  unfold finalize_anno_tree in Hrun.
  destruct (delete_empty_leaves_spec _ _ _ Hrun Hext2)
    as (_ & _ & Hroot & Hinner & Hdeleted).
  cbn [ts_root ts_index] in *.
  rewrite discover_preorder, preorder_leaves_nodes.
  apply Forall_forall. intros x Hx.
  apply list_elem_of_In, filter_In in Hx. destruct Hx as [Hx Hlf].
  apply list_elem_of_In, nodes_elem in Hx.
  assert (Hx2 : exists x2, x2 ∈ Anno.nodes root2 /\ same_payload x x2).
  { destruct Hx as [-> | Hx].
    - exists root2. split; [apply nodes_elem; auto|exact Hroot].
    - destruct (Hinner x Hx) as (x2 & Hin2 & Hs).
      exists x2. split; [apply nodes_elem; auto|exact Hs]. }
  destruct Hx2 as (x2 & Hin2 & (Hsp & Hsl & Hsk & Hsc)).
  intros Hempty.
  rewrite Forall_forall in Hleaf2.
  pose proof (Hleaf2 x2 Hin2 ltac:(congruence)) as Hkm.
  unfold keys_match in Hkm. rewrite <- Hsc, Hempty in Hkm.
  assert (Hk2 : Anno.keys x2 = []) by (destruct (Anno.keys x2); [reflexivity|discriminate]).
  assert (Hdisc : x2 ∈ Anno.discover_anno_leaves root2).
  { rewrite discover_preorder, preorder_leaves_nodes.
    apply list_elem_of_In, filter_In. split; [apply list_elem_of_In, Hin2|congruence]. }
  destruct (Hdeleted x2 Hdisc Hk2) as [Hparent Hgone].
  destruct Hx as [-> | Hx].
  - destruct Hroot as (Hrp & _).
    rewrite <- Hsp, Hrp, Hp2, Hp1 in Hparent.
    change (get_parent_path "*") with EmptyString in Hparent.
    rewrite Hidx1 in Hparent.
    pose proof (paths_not_empty root1 Hext1 ltac:(rewrite Hp1; discriminate))
      as Hne.
    rewrite Forall_forall in Hne.
    apply elem_of_union in Hparent. destruct Hparent as [Hparent|Hparent];
      [|apply elem_of_empty in Hparent; contradiction].
    apply elem_of_list_to_set in Hparent. unfold Anno.paths in Hparent.
    apply list_elem_of_fmap in Hparent. destruct Hparent as (y & Hy & Hyin).
    apply (Hne y Hyin). symmetry. exact Hy.
  - apply (Hgone x Hx). exact Hsp.
Qed.

End LoadTheorem.

Lemma load_anno_tree_sample :
  exists st,
    ICSI.load_anno_tree Samples.icsi_index Samples.icsi_built = Ok st /\
    map Anno.path (Anno.discover_anno_leaves (ICSI.ts_root st))
    = ["*.0"; "*.1"].
Proof. eexists. split; vm_compute; reflexivity. Qed.
(** ** The raw vector of a loaded meeting *)

(** C3. For every meeting that a loader has loaded, the AMI tree that
    [build_anno] returns or the ICSI tree that [load_anno_tree] leaves
    behind, the raw transition vector has the length of the flattened
    utterance sequence, its entry at position 0 is 0, and at every later
    position it is 1 exactly when the utterance there and the one before
    belong to different leaves. *)
Theorem raw_transitions_follow_owners (M : Z) :
  (forall strip_key all_words fuel idx p xml anno_root idx',
     AMI.build_anno strip_key all_words fuel idx p xml = Ok (anno_root, idx') ->
     Notes.raw_follows_owners M anno_root) /\
  (forall index built st,
     ICSI.load_anno_tree index built = Ok st ->
     Notes.raw_follows_owners M (ICSI.ts_root st)).
Proof.
  split.
  - intros strip_key all_words fuel idx p xml anno_root idx' Hrun.
    apply raw_transitions_of_resolved_leaves.
    apply (build_anno_leaves_resolved _ _ _ _ _ _ _ _ Hrun).
  - intros index built st Hrun.
    apply raw_transitions_of_resolved_leaves.
    apply (load_anno_tree_leaves_resolved _ _ _ Hrun).
Qed.

Lemma raw_transitions_follow_owners_witness :
  (exists anno_root idx',
     AMI.build_anno Samples.keep_key Samples.ami_words
       (AMI.build_fuel Samples.ami_topics) ∅ "*" Samples.ami_topics
     = Ok (anno_root, idx') /\
     Notes.raw_follows_owners 10 anno_root /\
     Notes.m_raw_transitions (Notes.compose_meeting_notes 10 anno_root)
     = [0; 1]) /\
  (exists st,
     ICSI.load_anno_tree Samples.icsi_index Samples.icsi_built = Ok st /\
     Notes.raw_follows_owners 10 (ICSI.ts_root st) /\
     Notes.m_raw_transitions
       (Notes.compose_meeting_notes 10 (ICSI.ts_root st))
     = [0; 1; 0]).
Proof.
  destruct (raw_transitions_follow_owners 10) as [Hami Hicsi].
  split.
  - destruct (AMI.build_anno Samples.keep_key Samples.ami_words
                (AMI.build_fuel Samples.ami_topics) ∅ "*" Samples.ami_topics)
      as [[anno_root idx']|e] eqn:Hrun.
    + exists anno_root, idx'. split; [reflexivity|].
      split; [apply (Hami _ _ _ _ _ _ _ _ Hrun)|].
      vm_compute in Hrun. injection Hrun as <- _. vm_compute. reflexivity.
    + vm_compute in Hrun. discriminate Hrun.
  - destruct (ICSI.load_anno_tree Samples.icsi_index Samples.icsi_built)
      as [st|e] eqn:Hrun.
    + exists st. split; [reflexivity|].
      split; [apply (Hicsi _ _ _ Hrun)|].
      vm_compute in Hrun. injection Hrun as <-. vm_compute. reflexivity.
    + vm_compute in Hrun. discriminate Hrun.
Defined.
Section FinalPaths.
Import ICSI.

Lemma nodes_paths_inner (n : node) :
  Anno.paths n = Anno.path n :: map Anno.path (inner n).
Proof. apply paths_unfold. Qed.

(** Pruning only removes paths. *)
Lemma prune_paths_sublist (pp q : string) (n : node) :
  map Anno.path (inner (prune pp q n)) `sublist_of` map Anno.path (inner n).
Proof.
  induction n as [n IH] using node_ind'.
  unfold inner at 1. rewrite prune_unfold. cbn [Anno.nn Anno.set_nn].
  assert (Hmap : map Anno.path (flat_map Anno.nodes (map (prune pp q) (Anno.nn n)))
                 `sublist_of` map Anno.path (inner n)).
  { unfold inner at 1. induction IH as [|c l Hc _ IHl]; [constructor|].
    cbn [map flat_map]. rewrite !map_app. apply sublist_app; [|exact IHl].
    rewrite !nodes_unfold. cbn [map].
    destruct (prune_payload pp q c) as (-> & _).
    apply sublist_skip. exact Hc. }
  destruct (String.eqb (Anno.path n) pp); [|exact Hmap].
  etransitivity; [|exact Hmap].
  generalize (map (prune pp q) (Anno.nn n)) as l. intros l.
  induction l as [|c l IHl]; [constructor|].
  cbn [List.filter]. destruct (negb _).
  - cbn [flat_map]. rewrite !map_app. apply sublist_app; [reflexivity|exact IHl].
  - cbn [flat_map]. rewrite map_app. apply sublist_inserts_l. exact IHl.
Qed.

Lemma write_children_paths (l : list node) :
  Forall (fun c => forall new,
            map Anno.path (Anno.nodes (fst (write_back c new)))
            = map Anno.path (Anno.nodes c)) l ->
  forall new,
  map Anno.path (flat_map Anno.nodes (fst (write_children l new)))
  = map Anno.path (flat_map Anno.nodes l).
Proof.
  induction 1 as [|c l Hc _ IHl]; intros new; [reflexivity|].
  cbn [write_children]. specialize (Hc new).
  destruct (write_back c new) as [c' new']. specialize (IHl new').
  destruct (write_children l new') as [l' new''].
  cbn [fst flat_map] in *. rewrite !map_app, Hc, IHl. reflexivity.
Qed.

(** Writing the leaves back leaves the paths as they are. *)
Lemma write_back_paths (n : node) :
  forall new,
  map Anno.path (Anno.nodes (fst (write_back n new)))
  = map Anno.path (Anno.nodes n).
Proof.
  induction n as [n IH] using node_ind'. intros new.
  rewrite write_back_unfold.
  pose proof (write_children_paths (Anno.nn n) IH) as Hch.
  destruct (Anno.is_leaf n).
  - destruct new as [|x new].
    + specialize (Hch []). destruct (write_children (Anno.nn n) []) as [l' r].
      cbn [fst] in *. rewrite !nodes_unfold. cbn. rewrite Hch. reflexivity.
    + specialize (Hch new). destruct (write_children (Anno.nn n) new) as [l' r].
      cbn [fst] in *. rewrite !nodes_unfold. cbn. rewrite Hch. reflexivity.
  - specialize (Hch new). destruct (write_children (Anno.nn n) new) as [l' r].
    cbn [fst] in *. rewrite !nodes_unfold. cbn. rewrite Hch. reflexivity.
Qed.

Lemma delete_empty_leaves_paths (anno_leaves : list node) :
  forall st st',
  delete_empty_leaves st anno_leaves = Ok st' ->
  Anno.paths (ts_root st') `sublist_of` Anno.paths (ts_root st).
Proof.
  induction anno_leaves as [|leaf rest IH]; intros st st' Hrun.
  - injection Hrun as <-. reflexivity.
  - cbn [delete_empty_leaves] in Hrun.
    destruct (Anno.keys leaf); [|apply (IH _ _ Hrun)].
    destruct (delete_anno_leaf st (Anno.path leaf)) as [st1|e] eqn:Hdel;
      [|discriminate].
    cbn [mbind outcome_bind Py.bind] in Hrun.
    etransitivity; [apply (IH _ _ Hrun)|].
    unfold delete_anno_leaf in Hdel.
    repeat (destruct (decide _); [|discriminate]).
    injection Hdel as <-. cbn [ts_root].
    rewrite !nodes_paths_inner.
    destruct (prune_payload (get_parent_path (Anno.path leaf))
                (Anno.path leaf) (ts_root st)) as (-> & _).
    apply sublist_skip, prune_paths_sublist.
Qed.

(** The tree that [load_anno_tree] leaves behind: the root has path [*],
    the paths of its nodes are pairwise distinct and registered by
    normalization, and the path of every node below the root extends the
    path of its parent by one ordinal. *)
Lemma load_anno_tree_paths (index : meeting_index) (built : node)
    (st : tree_state) :
  load_anno_tree index built = Ok st ->
  Anno.path (ts_root st) = "*" /\
  NoDup (Anno.paths (ts_root st)) /\
  Forall Anno.children_extend (Anno.nodes (ts_root st)).
Proof.
  unfold load_anno_tree. intros Hrun.
  destruct (normalize_anno_tree (normalize_fuel built) "*" built ∅)
    as [[root1 idx1]|e] eqn:Hnorm; [|discriminate].
  cbn [mbind outcome_bind Py.bind] in Hrun.
  apply (proj1 (normalize_invariants _)) in Hnorm.
  destruct Hnorm as (Hp1 & Hext1 & Hnd1 & _ & Hidx1).
  unfold attach_meeting_notes_tree, attach_meeting_notes in Hrun.
  destruct (attach_leaves index (mk_attach_state ∅ [])
              (Anno.discover_anno_leaves root1)) as [[leaves' ast]|e] eqn:Hatt;
    [|discriminate].
  cbn [mbind outcome_bind Py.bind] in Hrun.
  apply attach_leaves_shape in Hatt. destruct Hatt as [Hlen Hmatch].
  rewrite discover_preorder in Hlen.
  pose proof (write_back_spec root1 leaves' Hmatch ltac:(lia)) as Hwritten.
  pose proof (write_back_paths root1 leaves') as Hpaths2.
  set (root2 := fst (write_back root1 leaves')) in *.
  destruct Hwritten as (Hp2 & _ & Hext2 & _ & _ & _).
  specialize (Hext2 Hext1).
  unfold finalize_anno_tree in Hrun.
  pose proof (delete_empty_leaves_paths _ _ _ Hrun) as Hsub.
  destruct (delete_empty_leaves_spec _ _ _ Hrun Hext2)
    as (_ & Hext3 & (Hp3 & _) & _).
  cbn [ts_root] in *.
  split; [congruence|]. split; [|exact Hext3].
  eapply sublist_NoDup; [|exact Hsub].
  unfold Anno.paths at 1. rewrite Hpaths2. exact Hnd1.
Qed.

End FinalPaths.
(** ** Paths of a loaded meeting *)

(** C5. Registering a path that the index already holds ends the run.
    When normalization (ICSI) or construction (AMI) of the annotation tree
    ends well, the paths of the nodes of the tree are pairwise distinct and
    are exactly what the run has added to the index, and the path of every
    node other than the root is the path of its parent followed by a dot
    and one ordinal, which holds no dot itself. The tree that the whole
    ICSI load leaves behind, after resolution and finalization, still has
    pairwise distinct paths of that shape. *)
Theorem registered_paths_unique_and_extend_parent :
  (forall (U : Type) (index : gset string) (n : Anno.AnnoTreeNode U),
     Anno.path n ∈ index <->
     Anno.register_anno_node index n = Raise SystemExit) /\
  (forall fuel p n idx n' idx',
     ICSI.normalize_anno_tree fuel p n idx = Ok (n', idx') ->
     Anno.registered_from idx p n' idx') /\
  (forall strip_key all_words fuel idx p xml n' idx',
     AMI.build_anno strip_key all_words fuel idx p xml = Ok (n', idx') ->
     Anno.registered_from idx p n' idx') /\
  (forall index built st,
     ICSI.load_anno_tree index built = Ok st ->
     Anno.path (ICSI.ts_root st) = "*" /\
     NoDup (Anno.paths (ICSI.ts_root st)) /\
     Forall Anno.children_extend (Anno.nodes (ICSI.ts_root st))) /\
  (forall k : nat, Py.contains "." (Py.str k) = false).
Proof.
  split; [|split; [|split; [|split]]].
  - intros U index n. apply register_duplicate.
  - intros fuel. apply (proj1 (normalize_invariants fuel)).
  - intros strip_key all_words fuel idx p xml n' idx' Hrun.
    apply (proj1 (build_invariants strip_key all_words fuel) _ _ _ _ _ Hrun).
  - apply load_anno_tree_paths.
  - apply str_no_dot.
Qed.


Lemma registered_paths_unique_and_extend_parent_witness :
  (exists n' idx',
     ICSI.normalize_anno_tree (ICSI.normalize_fuel Samples.icsi_built) "*"
                              Samples.icsi_built ∅ = Ok (n', idx') /\
     Anno.registered_from ∅ "*" n' idx' /\
     Anno.paths n' = ["*"; "*.0"; "*.1"; "*.2"]) /\
  (exists n' idx',
     AMI.build_anno Samples.keep_key Samples.ami_words
                    (AMI.build_fuel Samples.ami_topics) ∅ "*"
                    Samples.ami_topics = Ok (n', idx') /\
     Anno.registered_from ∅ "*" n' idx' /\
     Anno.paths n' = ["*"; "*.0"; "*.1"]).
Proof.
  destruct registered_paths_unique_and_extend_parent
    as (_ & Hicsi & Hami & _ & _).
  split.
  - destruct (ICSI.normalize_anno_tree (ICSI.normalize_fuel Samples.icsi_built)
                "*" Samples.icsi_built ∅) as [[n' idx']|e] eqn:Hrun.
    + exists n', idx'. split; [reflexivity|]. split; [apply (Hicsi _ _ _ _ _ _ Hrun)|].
      vm_compute in Hrun. injection Hrun as <- _. reflexivity.
    + vm_compute in Hrun. discriminate Hrun.
  - destruct (AMI.build_anno Samples.keep_key Samples.ami_words
                (AMI.build_fuel Samples.ami_topics) ∅ "*" Samples.ami_topics)
      as [[n' idx']|e] eqn:Hrun.
    + exists n', idx'. split; [reflexivity|]. split; [apply (Hami _ _ _ _ _ _ _ _ Hrun)|].
      vm_compute in Hrun. injection Hrun as <- _. reflexivity.
    + vm_compute in Hrun. discriminate Hrun.
Defined.
(** ** Ranges without non-gap tokens *)

Section DegenerateRanges.

Lemma split_range_gaps utt_content speaker meeting wi ts :
  forall utterances utt_words,
  Forall (fun i => AMI.words wi !! i = Some None) ts ->
  AMI.split_range utt_content speaker meeting wi ts utterances utt_words
  = Ok (utterances, utt_words).
Proof.
  induction ts as [|i ts IH]; intros utterances utt_words Hgaps; [reflexivity|].
  inversion Hgaps as [|? ? Hi Hts]; subst.
  cbn [AMI.split_range]. rewrite Hi. apply IH, Hts.
Qed.

Lemma absorb_range_gaps heap start_idx end_idx :
  (end_idx < length heap)%nat ->
  ICSI.non_gap heap (ICSI.range_incl start_idx end_idx) = [] ->
  ICSI.absorb_range heap None (ICSI.range_incl start_idx end_idx)
  = Ok (heap, None).
Proof.
  intros Hend Hnone. unfold ICSI.range_incl in *.
  pose proof (absorb_range_seq (end_idx + 1 - start_idx) start_idx heap) as H.
  rewrite Hnone in H. apply H; [|constructor].
  destruct (Nat.le_gt_cases start_idx (end_idx + 1)); [right|left]; lia.
Qed.

(** A segment whose range holds no non-gap token leaves the loop state as
    it was: nothing is appended, nothing is written to the store, and the
    times are not converted. *)
Lemma load_segment_gaps strip_key is_float speaker wi utterances seg
    first others seg_id seg_start seg_end href start_key end_key
    start_idx end_idx :
  children seg = first :: others ->
  attrib seg !! nite_id = Some seg_id ->
  attrib seg !! "starttime" = Some seg_start ->
  attrib seg !! "endtime" = Some seg_end ->
  attrib first !! "href" = Some href ->
  ICSI.word_range_keys strip_key (List.last (Py.split "#" href) EmptyString)
  = Ok (start_key, end_key) ->
  ICSI.index wi !! start_key = Some start_idx ->
  ICSI.index wi !! end_key = Some end_idx ->
  (end_idx < length (ICSI.words wi))%nat ->
  ICSI.non_gap (ICSI.words wi) (ICSI.range_incl start_idx end_idx) = [] ->
  ICSI.load_segment strip_key is_float speaker (wi, utterances) seg
  = Ok (wi, utterances).
Proof.
  intros Hch Hid Hst Hen Hhref Hkeys Hs He Hlen Hnone.
  unfold ICSI.load_segment, attr, ICSI.lookup_index.
  rewrite Hch, Hid, Hst, Hen, Hhref.
  cbn [mbind outcome_bind Py.bind]. rewrite Hkeys.
  cbn [mbind outcome_bind Py.bind]. rewrite Hs, He.
  cbn [mbind outcome_bind Py.bind].
  rewrite (absorb_range_gaps _ _ _ Hlen Hnone).
  cbn [mbind outcome_bind Py.bind]. destruct wi. reflexivity.
Qed.

(** C8 (amended). In the ICSI dialect a range without non-gap tokens
    opens no utterance and raises nothing; a segment over such a range,
    whatever its time attributes hold, leaves the word index and the
    utterances loaded so far as they were, and the loop goes on to the
    segments after it; and no leaf of a tree that [load_anno_tree] leaves
    behind is without utterances. In the AMI
    dialect such a range mints no utterance and raises nothing either, and
    inside a run of segment references that yields other utterances it is
    passed over; a run that yields no key at all is the error
    [NodeNoKeys]; and every leaf of a tree that [build_anno] returns
    carries at least one key and one utterance. *)
Theorem degenerate_ranges :
  (forall (heap : list (option ICSI.entry)) (start_idx end_idx : nat),
     (end_idx < length heap)%nat ->
     ICSI.non_gap heap (ICSI.range_incl start_idx end_idx) = [] ->
     ICSI.absorb_range heap None (ICSI.range_incl start_idx end_idx)
     = Ok (heap, None)) /\
  (forall strip_key is_float speaker wi utterances seg rest
          first others seg_id seg_start seg_end href start_key end_key
          start_idx end_idx,
     children seg = first :: others ->
     attrib seg !! nite_id = Some seg_id ->
     attrib seg !! "starttime" = Some seg_start ->
     attrib seg !! "endtime" = Some seg_end ->
     attrib first !! "href" = Some href ->
     ICSI.word_range_keys strip_key
       (List.last (Py.split "#" href) EmptyString)
     = Ok (start_key, end_key) ->
     ICSI.index wi !! start_key = Some start_idx ->
     ICSI.index wi !! end_key = Some end_idx ->
     (end_idx < length (ICSI.words wi))%nat ->
     ICSI.non_gap (ICSI.words wi) (ICSI.range_incl start_idx end_idx) = [] ->
     ICSI.load_segment strip_key is_float speaker (wi, utterances) seg
     = Ok (wi, utterances) /\
     ICSI.load_segments strip_key is_float speaker (wi, utterances)
                        (seg :: rest)
     = ICSI.load_segments strip_key is_float speaker (wi, utterances) rest) /\
  (forall index built st,
     ICSI.load_anno_tree index built = Ok st ->
     Notes.leaves_resolved (Anno.discover_anno_leaves (ICSI.ts_root st))) /\
  (forall utt_content speaker meeting wi ts utterances utt_words,
     Forall (fun i => AMI.words wi !! i = Some None) ts ->
     AMI.split_range utt_content speaker meeting wi ts utterances utt_words
     = Ok (utterances, utt_words)) /\
  (forall strip_key all_words fuel idx xml node0 b first rest segments
          children' convo,
     Py.contains "pointer" (etag first) = false ->
     Py.contains "topic" (etag first) = false ->
     Py.contains "child" (etag first) = true ->
     AMI.pop_segments (first :: rest) = (segments, children') ->
     AMI.segment_to_utterances strip_key all_words segments = Ok ([], convo) ->
     AMI.build_loop strip_key all_words (S fuel) idx xml node0 b (first :: rest)
     = Raise (NodeNoKeys (etag xml))) /\
  (forall strip_key all_words fuel idx p xml n' idx',
     AMI.build_anno strip_key all_words fuel idx p xml = Ok (n', idx') ->
     Forall Anno.leaf_resolved (Anno.nodes n')) /\
  (exists n' idx',
     AMI.build_anno Samples.keep_key Samples.ami_words
       (AMI.build_fuel Samples.ami_mixed_topics) ∅ "*"
       Samples.ami_mixed_topics = Ok (n', idx') /\
     map Anno.keys (Anno.discover_anno_leaves n') = [["w0..w1"]]).
Proof.
  split; [|split; [|split; [|split; [|split; [|split]]]]].
  - apply absorb_range_gaps.
  - intros strip_key is_float speaker wi utterances seg rest
           first others seg_id seg_start seg_end href start_key end_key
           start_idx end_idx Hch Hid Hst Hen Hhref Hkeys Hs He Hlen Hnone.
    pose proof (load_segment_gaps strip_key is_float speaker wi utterances
                  seg first others seg_id seg_start seg_end href start_key
                  end_key start_idx end_idx Hch Hid Hst Hen Hhref Hkeys Hs He
                  Hlen Hnone) as Hseg.
    split; [exact Hseg|].
    cbn [ICSI.load_segments]. rewrite Hseg. reflexivity.
  - apply load_anno_tree_leaves_resolved.
  - intros. apply split_range_gaps. assumption.
  - intros strip_key all_words fuel idx xml node0 b first rest segments
           children' convo Hptr Htopic Hchild Hpop Hseg.
    rewrite build_loop_S, Hptr, Htopic, Hchild, Hpop, Hseg. reflexivity.
  - intros strip_key all_words fuel idx p xml n' idx' Hrun.
    apply (proj1 (build_invariants strip_key all_words fuel) _ _ _ _ _ Hrun).
  - eexists _, _. split; vm_compute; reflexivity.
Qed.

End DegenerateRanges.

(** C8 (counterexample). An ICSI segment over two non-verbal elements:
    the range holds no non-gap token, and the speaker's utterances load
    without error, with no utterance for the segment. *)
Lemma degenerate_range_loads_silently :
  exists wi,
    Samples.load_icsi Samples.gap_words Samples.gap_segs = Ok (wi, []) /\
    ICSI.non_gap (ICSI.words wi) (ICSI.range_incl 0 1) = [] /\
    Py.is_ok (Samples.load_icsi Samples.gap_words Samples.gap_segs) = true.
Proof. eexists. repeat split; vm_compute; reflexivity. Qed.

Lemma degenerate_ranges_witness :
  ICSI.absorb_range [None; None] None (ICSI.range_incl 0 1)
  = Ok ([None; None], None) /\
  ICSI.load_speaker_words Samples.gap_words [] = Ok (Samples.gap_index, []) /\
  ICSI.load_segment Samples.keep_key Samples.plain_decimal "A"
    (Samples.gap_index, [])
    (Samples.segment "s1" "Bed002.A.words.xml#v1..v2")
  = Ok (Samples.gap_index, []) /\
  ICSI.load_segments Samples.keep_key Samples.plain_decimal "A"
    (Samples.gap_index, [])
    [Samples.segment "s1" "Bed002.A.words.xml#v1..v2";
     Samples.segment "s2" "Bed002.A.words.xml#v2"]
  = ICSI.load_segments Samples.keep_key Samples.plain_decimal "A"
      (Samples.gap_index, [])
      [Samples.segment "s2" "Bed002.A.words.xml#v2"] /\
  AMI.build_loop Samples.keep_key Samples.ami_words 1 ∅
    Samples.ami_gap_topics (Anno.set_path "*" Anno.fresh) 0
    [Samples.child_ref "ES2002a.A.words.xml#w2..w2"]
  = Raise (NodeNoKeys "nite:root") /\
  (exists n' idx',
     AMI.build_anno Samples.keep_key Samples.ami_words
       (AMI.build_fuel Samples.ami_topics) ∅ "*" Samples.ami_topics
     = Ok (n', idx') /\
     Forall Anno.leaf_resolved (Anno.nodes n')).
Proof.
  destruct degenerate_ranges as (Hicsi & Hskip & _ & _ & Hrun & Hleaf & _).
  split; [|split; [|split; [|split; [|split]]]].
  - apply (Hicsi [None; None] 0%nat 1%nat); [vm_compute; lia|reflexivity].
  - vm_compute. reflexivity.
  - apply (Hskip Samples.keep_key Samples.plain_decimal "A" Samples.gap_index
             [] (Samples.segment "s1" "Bed002.A.words.xml#v1..v2") []
             (mkElement "nite:child"
                        {[ "href" := "Bed002.A.words.xml#v1..v2" ]} None [])
             [] "s1" "0.0" "1.5" "Bed002.A.words.xml#v1..v2" "v1" "v2"
             0%nat 1%nat);
      vm_compute; reflexivity.
  - apply (Hskip Samples.keep_key Samples.plain_decimal "A" Samples.gap_index
             [] (Samples.segment "s1" "Bed002.A.words.xml#v1..v2")
             [Samples.segment "s2" "Bed002.A.words.xml#v2"]
             (mkElement "nite:child"
                        {[ "href" := "Bed002.A.words.xml#v1..v2" ]} None [])
             [] "s1" "0.0" "1.5" "Bed002.A.words.xml#v1..v2" "v1" "v2"
             0%nat 1%nat);
      vm_compute; reflexivity.
  - apply (Hrun Samples.keep_key Samples.ami_words 0%nat ∅
                Samples.ami_gap_topics (Anno.set_path "*" Anno.fresh) 0%nat
                (Samples.child_ref "ES2002a.A.words.xml#w2..w2") []
                [Samples.child_ref "ES2002a.A.words.xml#w2..w2"] [] []);
      vm_compute; reflexivity.
  - destruct (AMI.build_anno Samples.keep_key Samples.ami_words
                (AMI.build_fuel Samples.ami_topics) ∅ "*" Samples.ami_topics)
      as [[n' idx']|e] eqn:Hbuild.
    + exists n', idx'. split; [reflexivity|]. apply (Hleaf _ _ _ _ _ _ _ _ Hbuild).
    + vm_compute in Hbuild. discriminate Hbuild.
Defined.
(** ** The smoothed vector of a meeting *)

Section MeetingSmoothing.
Context {U : Type} `{Notes.Utterance U}.

Lemma raw_of_owners_nonneg (prev : nat) (own : list nat) :
  Forall (fun x => 0 <= x) (Notes.raw_of_owners prev own).
Proof.
  revert prev. induction own as [|o own IH]; intros prev; [constructor|].
  cbn [Notes.raw_of_owners]. constructor; [|apply IH].
  destruct (o =? prev)%nat; lia.
Qed.

(** What smoothing does guarantee for a meeting: a boundary that survives
    at a position [j >= M] has no surviving boundary among the [M]
    positions before it. Positions below [M] are not protected. *)
Lemma meeting_transitions_min_distance (M : Z)
    (anno_root : Anno.AnnoTreeNode U) (i j : nat) :
  let r := Notes.compose_meeting_notes M anno_root in
  1 <= M -> M <= Z.of_nat j -> (i < j)%nat ->
  Notes.m_transitions r !! i = Some 1 ->
  Notes.m_transitions r !! j = Some 1 ->
  M < Z.of_nat j - Z.of_nat i.
Proof.
  cbv zeta. unfold Notes.compose_meeting_notes. cbn [Notes.m_transitions].
  intros HM Hj Hij. apply smooth_min_distance; try assumption.
  destruct (label_leaves_spec (Anno.discover_anno_leaves anno_root) 0
              (Notes.mk_labelling [] [] 0)) as (_ & Hr & _).
  rewrite Hr. cbn [Notes.raw_transitions app]. apply raw_of_owners_nonneg.
Qed.

End MeetingSmoothing.
(** ** Fuel *)

(** The fuel the loaders are run with is enough. *)
Lemma normalize_fuel_suffices (p : string) (n : ICSI.node) (idx : gset string) :
  ICSI.normalize_anno_tree (ICSI.normalize_fuel n) p n idx
  <> Raise RecursionError.
Proof.
  apply (proj1 (normalize_fuel_enough _)). unfold ICSI.normalize_fuel. lia.
Qed.

Lemma build_fuel_suffices strip_key all_words (idx : gset string) (p : string)
    (xml : Element) :
  AMI.build_anno strip_key all_words (AMI.build_fuel xml) idx p xml
  <> Raise RecursionError.
Proof.
  apply (proj1 (build_fuel_enough strip_key all_words _)).
  unfold AMI.build_fuel. lia.
Qed.

Lemma make_word_entry_depth (depth : nat) word_type text st :
  ICSI.make_word_entry_rec (2 + depth) word_type text st
  = ICSI.make_word_entry word_type text st.
Proof.
  unfold ICSI.make_word_entry.
  destruct word_type as [ty|]; [|reflexivity].
  cbn [ICSI.make_word_entry_rec plus].
  repeat match goal with
         | |- context [ICSI.type_is (Some ty) ?s] =>
             destruct (ICSI.type_is (Some ty) s) eqn:?; cbn [orb]
         end; try reflexivity.
  all: try (destruct (ICSI.first_is_apostrophe text) as [[|]|]; reflexivity).
  all: try (destruct (ICSI.text_is text "-"); reflexivity).
  all: destruct (ICSI.text_is text "'"); [reflexivity|].
  all: destruct (ICSI.quote_stack st); reflexivity.
Qed.
(** * Further properties *)

(** ** Smoothing *)

Section SmoothingMore.
Import Smoothing.
Variable M : Z.

Lemma smooth_step_clears t i j x :
  smooth_step M t i !! j = Some x -> x = 0 \/ t !! j = Some x.
Proof.
  unfold smooth_step. destruct (_ >? _); [|auto].
  destruct (decide (i = j)) as [->|Hne].
  - intros Hj. pose proof (lookup_lt_Some _ _ _ Hj) as Hlt.
    rewrite length_insert in Hlt.
    rewrite list_lookup_insert_eq in Hj by exact Hlt. left. congruence.
  - rewrite list_lookup_insert_ne by exact Hne. auto.
Qed.

Lemma smooth_from_clears m k t j x :
  fold_left (smooth_step M) (seq k m) t !! j = Some x ->
  x = 0 \/ t !! j = Some x.
Proof.
  revert k t. induction m as [|m IH]; intros k t; cbn [seq fold_left]; [auto|].
  intros Hj. destruct (IH _ _ Hj) as [?|Hj']; [auto|].
  apply (smooth_step_clears _ _ _ _ Hj').
Qed.

(** X1. Smoothing keeps the length of the vector and never sets a
    boundary: every entry of the result is the raw entry or [0]. *)
Theorem smooth_only_clears (raw : list Z) :
  length (smooth M raw) = length raw /\
  forall i x, smooth M raw !! i = Some x -> x = 0 \/ raw !! i = Some x.
Proof.
  split; [apply smooth_from_length|].
  intros i x. apply smooth_from_clears.
Qed.

(** The elements of [l[a:b]] for [0 <= b] sit at positions below [b]. *)
Lemma slice_below {A} (l : list A) (a : Z) (b : nat) (x : A) :
  x ∈ Py.slice l a (Z.of_nat b) ->
  exists k, (k < b)%nat /\ l !! k = Some x.
Proof.
  unfold Py.slice. intros Hx.
  apply list_elem_of_lookup in Hx. destruct Hx as [i Hi].
  apply lookup_take_Some in Hi. destruct Hi as [Hi Hlt].
  rewrite lookup_drop in Hi.
  eexists. split; [|exact Hi].
  pose proof (lookup_lt_Some _ _ _ Hi) as Hlen.
  unfold Py.slice_bound in *.
  destruct (Z.ltb_spec (Z.of_nat b) 0) as [?|_]; [lia|].
  destruct (Z.ltb_spec a 0); lia.
Qed.

Lemma sum_zeros (l : list Z) : Forall (fun x => x = 0) l -> Py.sum l = 0.
Proof.
  induction 1 as [|x l Hx _ IH]; [reflexivity|].
  rewrite sum_cons. lia.
Qed.

(** The first positive entry is never cleared. *)
Lemma smooth_first_survives (raw : list Z) (f : nat) (x : Z) :
  (forall i, (i < f)%nat -> raw !! i = Some 0) ->
  raw !! f = Some x ->
  smooth M raw !! f = Some x.
Proof.
  intros Hzero Hf.
  pose proof (lookup_lt_Some _ _ _ Hf) as Hlt.
  unfold smooth.
  replace (length raw) with (f + S (length raw - S f))%nat by lia.
  rewrite seq_app, fold_left_app. cbn [seq fold_left Nat.add].
  rewrite smooth_from_before by lia.
  set (t := fold_left (smooth_step M) (seq 0 f) raw).
  assert (Htf : t !! f = Some x).
  { unfold t. clear -Hf.
    assert (H : forall m k r, (k + m <= f)%nat -> r !! f = Some x ->
                fold_left (smooth_step M) (seq k m) r !! f = Some x).
    { induction m as [|m IH]; intros k r Hk Hr; [exact Hr|].
      cbn [seq fold_left]. apply IH; [lia|].
      rewrite smooth_step_other by lia. exact Hr. }
    apply H; [lia|exact Hf]. }
  assert (Hprefix : forall i y, (i < f)%nat -> t !! i = Some y -> y = 0).
  { intros i y Hi Hy. unfold t in Hy.
    destruct (smooth_from_clears _ _ _ _ _ Hy) as [?|Hr]; [assumption|].
    rewrite (Hzero i Hi) in Hr. congruence. }
  unfold smooth_step.
  rewrite sum_zeros; [exact Htf|].
  apply Forall_forall. intros y Hy.
  apply slice_below in Hy. destruct Hy as (k & Hk & Hy).
  apply (Hprefix k y Hk Hy).
Qed.

Lemma sum_lookup_le (l : list Z) (i : nat) (x : Z) :
  Forall (fun y => 0 <= y) l -> l !! i = Some x -> x <= Py.sum l.
Proof.
  intros Hl. revert i. induction Hl as [|y l Hy Hl IH]; intros i Hi;
    [discriminate|].
  rewrite sum_cons. pose proof (sum_nonneg l Hl).
  destruct i as [|i]; cbn in Hi; [injection Hi as <-; lia|].
  specialize (IH i Hi). lia.
Qed.

(** A list of non-negative entries that do not all vanish has a first
    positive entry. *)
Lemma first_positive (l : list Z) :
  Forall (fun y => 0 <= y) l -> Py.sum l <> 0 ->
  exists f x, (forall i, (i < f)%nat -> l !! i = Some 0) /\
              l !! f = Some x /\ 0 < x.
Proof.
  induction 1 as [|y l Hy Hl IH]; intros Hsum; [contradiction Hsum; reflexivity|].
  rewrite sum_cons in Hsum.
  destruct (Z.eq_dec y 0) as [->|Hne].
  - destruct (IH ltac:(lia)) as (f & x & Hz & Hf & Hx).
    exists (S f), x. split; [|split; assumption].
    intros [|i] Hi; [reflexivity|]. apply Hz. lia.
  - exists 0%nat, y. split; [intros i Hi; lia|]. split; [reflexivity|lia].
Qed.

Lemma smooth_sum_zero_iff (raw : list Z) :
  Forall (fun y => 0 <= y) raw ->
  Py.sum (smooth M raw) = 0 <-> Py.sum raw = 0.
Proof.
  intros Hraw. split.
  - intros Hs. destruct (Z.eq_dec (Py.sum raw) 0) as [|Hne]; [assumption|].
    destruct (first_positive raw Hraw Hne) as (f & x & Hz & Hf & Hx).
    pose proof (smooth_first_survives raw f x Hz Hf) as Hsurv.
    pose proof (sum_lookup_le _ _ _ (smooth_from_nonneg M _ _ _ Hraw) Hsurv).
    unfold smooth in Hs. lia.
  - intros Hr. apply sum_zeros. apply Forall_forall. intros y Hy.
    apply list_elem_of_lookup in Hy. destruct Hy as [i Hi].
    destruct (smooth_from_clears _ _ _ _ _ Hi) as [?|Hri]; [assumption|].
    pose proof (sum_zero_entries raw i y Hraw ltac:(lia) Hri). assumption.
Qed.

(** X2. Smoothing never removes the first boundary, so the smoothed
    vector of non-negative labels sums to zero exactly when the raw
    vector does: the segment count [K] is [1] only for a meeting without
    any raw boundary. *)
Theorem smooth_keeps_a_boundary (raw : list Z) :
  Forall (fun y => 0 <= y) raw ->
  (forall f x, (forall i, (i < f)%nat -> raw !! i = Some 0) ->
               raw !! f = Some x -> smooth M raw !! f = Some x) /\
  (Py.sum (smooth M raw) = 0 <-> Py.sum raw = 0).
Proof.
  intros Hraw. split; [intros f x; apply smooth_first_survives|].
  apply smooth_sum_zero_iff, Hraw.
Qed.

End SmoothingMore.

Section SmoothingPasses.
Import Smoothing.
Variable M : Z.

Lemma smooth_from_untouched m k t i :
  (k + m <= i)%nat -> fold_left (smooth_step M) (seq k m) t !! i = t !! i.
Proof.
  revert k t. induction m as [|m IH]; intros k t Hk; [reflexivity|].
  cbn [seq fold_left]. rewrite IH by lia. apply smooth_step_other. lia.
Qed.

Lemma smooth_split raw i :
  (i < length raw)%nat ->
  smooth M raw
  = fold_left (smooth_step M) (seq (S i) (length raw - S i))
      (smooth_step M (fold_left (smooth_step M) (seq 0 i) raw) i).
Proof.
  intros Hlt. unfold smooth.
  replace (length raw) with (i + S (length raw - S i))%nat at 1 by lia.
  rewrite seq_app, fold_left_app. reflexivity.
Qed.

Lemma smooth_at raw i :
  (i < length raw)%nat ->
  smooth M raw !! i = smooth_step M (fold_left (smooth_step M) (seq 0 i) raw) i !! i.
Proof.
  intros Hlt. rewrite (smooth_split raw i Hlt).
  apply smooth_from_before. lia.
Qed.

Lemma smooth_take raw i :
  (i < length raw)%nat ->
  take i (smooth M raw) = take i (fold_left (smooth_step M) (seq 0 i) raw).
Proof.
  intros Hlt. apply list_eq. intros k.
  rewrite !lookup_take. destruct (decide (k < i)%nat) as [Hk|]; [|reflexivity].
  rewrite (smooth_split raw i Hlt).
  rewrite smooth_from_before by lia.
  apply smooth_step_other. lia.
Qed.

(** [l[a:b]] for [0 <= b] reads only the length of [l] and its first [b]
    entries. *)
Lemma slice_prefix {A} (l l' : list A) (a : Z) (b : nat) :
  length l = length l' -> take b l = take b l' ->
  Py.slice l a (Z.of_nat b) = Py.slice l' a (Z.of_nat b).
Proof.
  intros Hlen Htake. unfold Py.slice. rewrite <- Hlen.
  set (n := Z.of_nat (length l)).
  set (lo := Py.slice_bound n a). set (hi := Py.slice_bound n (Z.of_nat b)).
  assert (Hhi : hi <= Z.of_nat b).
  { unfold hi, Py.slice_bound.
    destruct (Z.ltb_spec (Z.of_nat b) 0); lia. }
  rewrite !take_drop_commute.
  destruct (Z.le_gt_cases hi lo) as [Hle|Hgt].
  - replace (Z.to_nat (hi - lo)) with 0%nat by lia.
    rewrite Nat.add_0_r.
    rewrite !drop_ge; [reflexivity| |]; rewrite length_take; lia.
  - assert (Hlo : 0 <= lo).
    { unfold lo, Py.slice_bound. destruct (Z.ltb_spec a 0); lia. }
    replace (Z.to_nat lo + Z.to_nat (hi - lo))%nat
      with (Nat.min (Z.to_nat hi) b) by lia.
    rewrite <- !take_take, Htake. reflexivity.
Qed.

(** X3. On a vector at least as long as the window, the first [M]
    positions are never cleared: their window [t[i-M:i]] starts at a
    negative index, which counts from the end and leaves an empty slice. *)
Theorem smooth_head_untouched (raw : list Z) (i : nat) :
  M <= Z.of_nat (length raw) -> Z.of_nat i < M ->
  smooth M raw !! i = raw !! i.
Proof.
  intros Hlen Hi.
  destruct (decide (i < length raw)%nat) as [Hlt|Hge].
  - rewrite smooth_at by exact Hlt.
    set (t := fold_left (smooth_step M) (seq 0 i) raw).
    unfold smooth_step.
    replace (Py.slice t (Z.of_nat i - M) (Z.of_nat i)) with (@nil Z).
    + change (Py.sum [] >? 0) with false. cbv iota.
      apply smooth_from_untouched. lia.
    + unfold Py.slice, t. rewrite smooth_from_length.
      unfold Py.slice_bound.
      destruct (Z.ltb_spec (Z.of_nat i - M) 0) as [_|?]; [|lia].
      destruct (Z.ltb_spec (Z.of_nat i) 0) as [?|_]; [lia|].
      replace (Z.to_nat _) with 0%nat at 1 by lia.
      reflexivity.
  - rewrite !lookup_ge_None_2; [reflexivity|lia|].
    unfold smooth. rewrite smooth_from_length. lia.
Qed.

(** A smoothed vector is a fixed point of every step of the loop. *)
Lemma smooth_step_fixed (raw : list Z) (j : nat) :
  smooth_step M (smooth M raw) j = smooth M raw.
Proof.
  assert (Hlen : length (smooth M raw) = length raw)
    by apply smooth_from_length.
  unfold smooth_step at 1.
  destruct (Z.gtb_spec
              (Py.sum (Py.slice (smooth M raw) (Z.of_nat j - M) (Z.of_nat j))) 0)
    as [Hpos|_]; [|reflexivity].
  apply list_insert_id'. intros Hj. rewrite Hlen in Hj.
  rewrite (slice_prefix _ (fold_left (smooth_step M) (seq 0 j) raw)) in Hpos.
  - rewrite smooth_at by exact Hj.
    set (t := fold_left (smooth_step M) (seq 0 j) raw) in *.
    unfold smooth_step.
    destruct (Z.gtb_spec
                (Py.sum (Py.slice t (Z.of_nat j - M) (Z.of_nat j))) 0)
      as [_|?]; [|lia].
    apply list_lookup_insert_eq. unfold t. rewrite smooth_from_length. exact Hj.
  - rewrite Hlen, smooth_from_length. reflexivity.
  - apply smooth_take. exact Hj.
Qed.

(** X4. Smoothing is idempotent: a second pass over a smoothed vector
    changes nothing. *)
Theorem smooth_idempotent (raw : list Z) :
  smooth M (smooth M raw) = smooth M raw.
Proof.
  unfold smooth at 1.
  generalize (seq 0 (length (smooth M raw))). intros steps.
  induction steps as [|j steps IH]; [reflexivity|].
  cbn [fold_left]. rewrite smooth_step_fixed. exact IH.
Qed.

End SmoothingPasses.

Lemma smooth_keeps_a_boundary_witness :
  Py.sum (Smoothing.smooth 10 Samples.example_raw) = 0
  <-> Py.sum Samples.example_raw = 0.
Proof.
  apply (smooth_keeps_a_boundary 10 Samples.example_raw).
  vm_compute. repeat constructor; discriminate.
Defined.

Lemma smooth_head_untouched_witness :
  Smoothing.smooth 10 Samples.example_raw !! 5%nat
  = Samples.example_raw !! 5%nat.
Proof.
  apply (smooth_head_untouched 10 Samples.example_raw 5);
    vm_compute; congruence.
Defined.

(** ** Baseline segmenters *)

Section BaselineFacts.
Import Baselines.

Lemma sum_app (a b : list Z) : Py.sum (a ++ b) = Py.sum a + Py.sum b.
Proof.
  induction a as [|x a IH]; [reflexivity|].
  cbn [app]. rewrite !sum_cons, IH. lia.
Qed.

(** With a non-zero period the loop appends one flag for each index. *)
Lemma equi_loop_ok (offset period : Z) (transitions : list Z) (todo : list nat) :
  period <> 0 ->
  equi_loop offset period transitions todo
  = Ret (transitions ++
         map (fun i => if (Z.of_nat i + offset) mod period =? 0 then 1 else 0)
             todo).
Proof.
  intros Hp. revert transitions.
  induction todo as [|i rest IH]; intros transitions; cbn [equi_loop map].
  - rewrite app_nil_r. reflexivity.
  - unfold pymod. destruct (Z.eqb_spec period 0) as [|_]; [contradiction|].
    rewrite IH, <- app_assoc. reflexivity.
Qed.

Lemma equi_loop_zero (offset : Z) (transitions : list Z) (todo : list nat) :
  todo <> [] -> equi_loop offset 0 transitions todo = Err ZeroDivisionError.
Proof. destruct todo as [|i rest]; [contradiction|reflexivity]. Qed.

(** The two outcomes of [EquiSeg.segment_meeting]. *)
Lemma equi_segment_meeting_cases (N : nat) (K : Z) :
  ((K = 1 \/ (0 < Z.of_nat N /\ Z.of_nat N < K - 1)) /\
   equi_segment_meeting N K = Err ZeroDivisionError) \/
  (~ (K = 1 \/ (0 < Z.of_nat N /\ Z.of_nat N < K - 1)) /\
   equi_segment_meeting N K
   = Ret (map (fun i => if (Z.of_nat i + Z.of_nat N / (K - 1) / 2)
                            mod (Z.of_nat N / (K - 1)) =? 0
                        then 1 else 0)
              (seq 0 N))).
Proof.
  unfold equi_segment_meeting, floordiv.
  destruct (Z.eqb_spec (K - 1) 0) as [HK|HK].
  { left. split; [left; lia|reflexivity]. }
  change (2 =? 0) with false. cbv iota.
  destruct (Z.eq_dec (Z.of_nat N / (K - 1)) 0) as [Hp|Hp].
  - rewrite Hp. destruct N as [|N].
    + right. split; [lia|reflexivity].
    + left. rewrite equi_loop_zero by discriminate.
      split; [right|reflexivity].
      split; [lia|].
      destruct (Z.lt_ge_cases 0 (K - 1)) as [Hpos|Hneg];
        apply Z.div_small_iff in Hp; lia.
  - right. rewrite equi_loop_ok by exact Hp.
    split; [|reflexivity].
    intros [?|[HN Hlt]]; [lia|].
    contradiction Hp. apply Z.div_small. lia.
Qed.

(** X5. [EquiSeg] raises exactly when [K = 1] or when there are entries
    but fewer than [K - 1] of them, and then it is a division by zero;
    otherwise it returns one label for each entry. *)
Theorem equi_raises_iff (N : nat) (K : Z) :
  (equi_segment_meeting N K = Err ZeroDivisionError
   <-> K = 1 \/ (0 < Z.of_nat N /\ Z.of_nat N < K - 1)) /\
  (~ (K = 1 \/ (0 < Z.of_nat N /\ Z.of_nat N < K - 1)) ->
   exists transitions,
     equi_segment_meeting N K = Ret transitions /\ length transitions = N).
Proof.
  destruct (equi_segment_meeting_cases N K) as [[Hc He]|[Hc He]]; rewrite He.
  - split; [tauto|]. intros Hn. contradiction.
  - split; [split; [discriminate|intros Hk; contradiction]|].
    intros _. eexists. split; [reflexivity|].
    rewrite length_map, length_seq. reflexivity.
Qed.

(** Stepping the dividend by one raises the quotient exactly at the
    multiples of the divisor. *)
Lemma div_step (a p : Z) :
  0 < p -> a / p = (a - 1) / p + (if a mod p =? 0 then 1 else 0).
Proof.
  intros Hp.
  pose proof (Z.div_mod a p ltac:(lia)) as Ha.
  pose proof (Z.mod_pos_bound a p Hp) as Hr.
  destruct (Z.eqb_spec (a mod p) 0) as [Hz|Hnz].
  - symmetry. rewrite Z.add_comm. apply Z.add_move_l.
    symmetry. apply (Z.div_unique_pos _ _ _ (p - 1)); lia.
  - rewrite Z.add_0_r.
    apply (Z.div_unique_pos _ _ _ (a mod p - 1)); lia.
Qed.

Lemma equi_count (offset period : Z) (n : nat) :
  0 < period ->
  Py.sum (map (fun i => if (Z.of_nat i + offset) mod period =? 0 then 1 else 0)
              (seq 0 n))
  = (Z.of_nat n - 1 + offset) / period - (offset - 1) / period.
Proof.
  intros Hp. induction n as [|n IH].
  - cbn [seq map]. change (Py.sum []) with 0.
    replace (Z.of_nat 0 - 1 + offset) with (offset - 1) by lia. lia.
  - rewrite seq_S, map_app, sum_app, IH. cbn [map Nat.add].
    rewrite sum_cons. change (Py.sum []) with 0.
    replace (Z.of_nat (S n) - 1 + offset) with (Z.of_nat n + offset) by lia.
    rewrite (div_step (Z.of_nat n + offset) period Hp).
    replace (Z.of_nat n + offset - 1) with (Z.of_nat n - 1 + offset) by lia.
    lia.
Qed.

(** X6. Asked for [K >= 2] segments of at least [K - 1] entries,
    [EquiSeg] returns one 0/1 label for each entry with at least [K - 1]
    boundaries, and exactly [K - 1] when [K - 1] divides the number of
    entries. *)
Theorem equi_boundary_count (N : nat) (K : Z) :
  2 <= K -> K - 1 <= Z.of_nat N ->
  exists transitions,
    equi_segment_meeting N K = Ret transitions /\
    length transitions = N /\
    Forall (fun x => x = 0 \/ x = 1) transitions /\
    K - 1 <= Py.sum transitions /\
    (Z.of_nat N mod (K - 1) = 0 -> Py.sum transitions = K - 1).
Proof.
  intros HK HN.
  set (k := K - 1) in *.
  set (p := Z.of_nat N / k).
  assert (Hk : 0 < k) by lia.
  assert (Hp : 1 <= p).
  { unfold p. apply Z.div_le_lower_bound; lia. }
  assert (Hlow : k * p <= Z.of_nat N).
  { unfold p. apply Z.mul_div_le. exact Hk. }
  destruct (equi_segment_meeting_cases N K) as [[Hc _]|[_ He]]; [lia|].
  rewrite He. fold k. fold p.
  eexists. split; [reflexivity|].
  split; [rewrite length_map, length_seq; reflexivity|].
  split.
  { apply Forall_forall. intros x Hx.
    apply list_elem_of_In, in_map_iff in Hx. destruct Hx as (i & <- & _).
    destruct (_ =? 0); auto. }
  rewrite equi_count by lia.
  assert (Hoff : p / 2 - 1 < p).
  { pose proof (Z.div_le_upper_bound p 2 p ltac:(lia) ltac:(lia)). lia. }
  assert (Hbase : (k * p - 1 + p / 2) / p - (p / 2 - 1) / p = k).
  { destruct (Z.eq_dec p 1) as [Hp1|Hp1].
    - rewrite Hp1. change (1 / 2) with 0. rewrite !Z.div_1_r. lia.
    - assert (1 <= p / 2) by (apply Z.div_le_lower_bound; lia).
      rewrite (Z.div_small (p / 2 - 1) p) by lia.
      replace (k * p - 1 + p / 2) with (p / 2 - 1 + k * p) by lia.
      rewrite Z.div_add by lia.
      rewrite (Z.div_small (p / 2 - 1) p) by lia. lia. }
  split.
  - rewrite <- Hbase at 1.
    apply Z.sub_le_mono_r. apply Z.div_le_mono; lia.
  - intros Hmod.
    assert (HNk : Z.of_nat N = k * p).
    { unfold p. pose proof (Z.div_mod (Z.of_nat N) k ltac:(lia)). lia. }
    rewrite HNk. exact Hbase.
Qed.

Lemma lookup_repeat_lt {A} (x : A) (n i : nat) :
  (i < n)%nat -> repeat x n !! i = Some x.
Proof.
  revert i. induction n as [|n IH]; intros i Hi; [lia|].
  destruct i as [|i]; [reflexivity|]. cbn. apply IH. lia.
Qed.

Lemma random_loop_ok (indices : list nat) (transitions : list Z) :
  Forall (fun idx => (idx < length transitions)%nat) indices ->
  random_loop transitions indices
  = Ret (fold_left (fun t idx => <[idx := 1]> t) indices transitions).
Proof.
  revert transitions.
  induction indices as [|idx rest IH]; intros transitions Hin; [reflexivity|].
  cbn [random_loop fold_left].
  apply Forall_cons in Hin. destruct Hin as [Hidx Hrest].
  destruct (Nat.ltb_spec idx (length transitions)) as [_|?]; [|lia].
  apply IH. rewrite length_insert. exact Hrest.
Qed.

Lemma sum_insert (l : list Z) (i : nat) (x y : Z) :
  l !! i = Some x -> Py.sum (<[i := y]> l) = Py.sum l - x + y.
Proof.
  revert i. induction l as [|z l IH]; intros i Hi; [discriminate|].
  destruct i as [|i]; cbn in Hi.
  - injection Hi as ->. change (<[0%nat := y]> (x :: l)) with (y :: l).
    rewrite !sum_cons. lia.
  - change (<[S i := y]> (z :: l)) with (z :: <[i := y]> l).
    rewrite !sum_cons, (IH i Hi). lia.
Qed.

Lemma random_marks (indices : list nat) (t : list Z) :
  NoDup indices ->
  Forall (fun idx => t !! idx = Some 0) indices ->
  let t' := fold_left (fun t idx => <[idx := 1]> t) indices t in
  length t' = length t /\
  Py.sum t' = Py.sum t + Z.of_nat (length indices) /\
  forall i, t' !! i = if decide (i ∈ indices) then Some 1 else t !! i.
Proof.
  revert t. induction indices as [|idx rest IH]; intros t Hnd Hz; cbv zeta.
  - cbn [fold_left length]. split; [reflexivity|]. split; [lia|].
    intros i. destruct (decide (i ∈ [])) as [Hin|_]; [|reflexivity].
    apply elem_of_nil in Hin. contradiction.
  - apply NoDup_cons in Hnd. destruct Hnd as [Hnotin Hnd].
    apply Forall_cons in Hz. destruct Hz as [Hidx Hz].
    cbn [fold_left].
    destruct (IH (<[idx := 1]> t) Hnd) as (Hlen & Hsum & Hlook).
    { apply Forall_forall. intros j Hj.
      rewrite list_lookup_insert_ne by (intros ->; contradiction).
      rewrite Forall_forall in Hz. apply Hz, Hj. }
    rewrite Hlen, Hsum, length_insert, (sum_insert _ _ _ _ Hidx).
    split; [reflexivity|]. split; [cbn [length]; lia|].
    intros i. rewrite Hlook.
    destruct (decide (i ∈ rest)) as [Hin|Hnin].
    + rewrite decide_True by (right; exact Hin). reflexivity.
    + destruct (decide (i = idx)) as [->|Hne].
      * rewrite decide_True by left.
        apply list_lookup_insert_eq. apply lookup_lt_Some in Hidx. exact Hidx.
      * rewrite decide_False.
        -- apply list_lookup_insert_ne. congruence.
        -- intros Hin. apply elem_of_cons in Hin. destruct Hin; contradiction.
Qed.

(** X7. On a draw of distinct positions below [N], [RandomSeg] returns
    [N] labels with a [1] exactly at the drawn positions, so as many
    boundaries as positions were drawn. *)
Theorem random_marks_the_draw (N : nat) (indices : list nat) :
  NoDup indices ->
  Forall (fun idx => (idx < N)%nat) indices ->
  exists transitions,
    random_segment_meeting N indices = Ret transitions /\
    length transitions = N /\
    Py.sum transitions = Z.of_nat (length indices) /\
    forall i, (i < N)%nat ->
      transitions !! i = Some (if decide (i ∈ indices) then 1 else 0).
Proof.
  intros Hnd Hin. unfold random_segment_meeting.
  rewrite random_loop_ok by (rewrite repeat_length; exact Hin).
  eexists. split; [reflexivity|].
  destruct (random_marks indices (repeat 0 N) Hnd) as (Hlen & Hsum & Hlook).
  { apply Forall_forall. intros j Hj. rewrite Forall_forall in Hin.
    apply lookup_repeat_lt. apply Hin, Hj. }
  rewrite Hlen, Hsum, repeat_length.
  assert (Hzero : Py.sum (repeat 0 N) = 0).
  { apply sum_zeros. apply Forall_forall. intros x Hx.
    apply list_elem_of_In, repeat_spec in Hx. exact Hx. }
  split; [reflexivity|]. split; [lia|].
  intros i Hi. rewrite Hlook.
  destruct (decide (i ∈ indices)); [reflexivity|].
  apply lookup_repeat_lt. exact Hi.
Qed.

End BaselineFacts.

Lemma equi_boundary_count_witness :
  exists transitions,
    Baselines.equi_segment_meeting 11 5 = Baselines.Ret transitions /\
    5 - 1 <= Py.sum transitions /\
    Py.sum transitions = 5.
Proof.
  destruct (equi_boundary_count 11 5 ltac:(lia) ltac:(lia))
    as (transitions & Hrun & _ & _ & Hlow & _).
  exists transitions. split; [exact Hrun|]. split; [exact Hlow|].
  vm_compute in Hrun. injection Hrun as <-. reflexivity.
Defined.

Lemma random_marks_the_draw_witness :
  exists transitions,
    Baselines.random_segment_meeting 5 [3; 0]%nat = Baselines.Ret transitions /\
    length transitions = 5%nat /\
    Py.sum transitions = Z.of_nat (length [3; 0]%nat) /\
    forall i, (i < 5)%nat ->
      transitions !! i = Some (if decide (i ∈ [3; 0]%nat) then 1 else 0).
Proof.
  apply (random_marks_the_draw 5 [3; 0]%nat).
  - repeat constructor; set_solver.
  - repeat constructor; lia.
Defined.

(** ** The evaluation script *)

Section MainFacts.
Context {U : Type} `{Notes.Utterance U}.

Lemma raw_of_owners_01 (prev : nat) (own : list nat) :
  Forall (fun x => x = 0 \/ x = 1) (Notes.raw_of_owners prev own).
Proof.
  revert prev. induction own as [|o own IH]; intros prev; [constructor|].
  cbn [Notes.raw_of_owners]. constructor; [|apply IH].
  destruct (o =? prev)%nat; auto.
Qed.

Lemma raw_of_owners_sum_zero (prev : nat) (own : list nat) :
  Py.sum (Notes.raw_of_owners prev own) = 0 <-> Forall (fun o => o = prev) own.
Proof.
  revert prev. induction own as [|o own IH]; intros prev.
  - split; [constructor|reflexivity].
  - cbn [Notes.raw_of_owners]. rewrite sum_cons.
    pose proof (sum_nonneg _ (raw_of_owners_nonneg o own)) as Hnn.
    destruct (Nat.eqb_spec o prev) as [->|Hne].
    + rewrite Z.add_0_l, IH. split.
      * intros Hall. constructor; [reflexivity|exact Hall].
      * intros Hall. apply Forall_cons in Hall. apply Hall.
    + split; [lia|].
      intros Hall. apply Forall_cons in Hall. destruct Hall; contradiction.
Qed.

Lemma sum_le_length (l : list Z) :
  Forall (fun x => x = 0 \/ x = 1) l -> Py.sum l <= Z.of_nat (length l).
Proof.
  induction 1 as [|x l Hx _ IH]; [reflexivity|].
  rewrite sum_cons. cbn [length]. lia.
Qed.

Lemma smooth_01 (M : Z) (raw : list Z) :
  Forall (fun x => x = 0 \/ x = 1) raw ->
  Forall (fun x => x = 0 \/ x = 1) (Smoothing.smooth M raw).
Proof.
  intros Hraw. apply Forall_forall. intros x Hx.
  apply list_elem_of_lookup in Hx. destruct Hx as [i Hi].
  destruct (smooth_from_clears _ _ _ _ _ _ Hi) as [?|Hr]; [auto|].
  rewrite Forall_forall in Hraw. apply Hraw.
  apply list_elem_of_lookup. exists i. exact Hr.
Qed.

Lemma meeting_vectors (M : Z) (anno_root : Anno.AnnoTreeNode U) :
  let r := Notes.compose_meeting_notes M anno_root in
  let anno_leaves := Anno.discover_anno_leaves anno_root in
  Notes.m_notes r
  = map (fun u => Notes.utt_set_composite (Notes.compose_utterance u) u)
        (Notes.flattened anno_leaves) /\
  Notes.m_raw_transitions r = Notes.raw_of_owners 0 (Notes.owners anno_leaves) /\
  Notes.m_transitions r = Smoothing.smooth M (Notes.m_raw_transitions r) /\
  length (Notes.m_raw_transitions r) = length (Notes.flattened anno_leaves).
Proof.
  cbv zeta. unfold Notes.compose_meeting_notes.
  cbn [Notes.m_notes Notes.m_raw_transitions Notes.m_transitions].
  destruct (label_leaves_spec (Anno.discover_anno_leaves anno_root) 0
              (Notes.mk_labelling [] [] 0)) as (Hn & Hr & _).
  rewrite Hn, Hr. cbn [Notes.notes Notes.raw_transitions Notes.prev_leaf_id app].
  split; [reflexivity|]. split; [reflexivity|]. split; [reflexivity|].
  rewrite raw_of_owners_length. apply owners_from_length.
Qed.

(** X8. For any annotation tree the raw and the smoothed transition
    vector of a meeting have one label for each note, and every label of
    both is [0] or [1]. *)
Theorem meeting_vectors_aligned (M : Z) (anno_root : Anno.AnnoTreeNode U) :
  let r := Notes.compose_meeting_notes M anno_root in
  length (Notes.m_raw_transitions r) = length (Notes.m_notes r) /\
  length (Notes.m_transitions r) = length (Notes.m_notes r) /\
  Forall (fun x => x = 0 \/ x = 1) (Notes.m_raw_transitions r) /\
  Forall (fun x => x = 0 \/ x = 1) (Notes.m_transitions r).
Proof.
  cbv zeta.
  destruct (meeting_vectors M anno_root) as (Hn & Hr & Hs & Hlen).
  assert (Hnotes : length (Notes.m_raw_transitions
                             (Notes.compose_meeting_notes M anno_root))
                   = length (Notes.m_notes
                               (Notes.compose_meeting_notes M anno_root))).
  { rewrite Hn, length_map. exact Hlen. }
  split; [exact Hnotes|].
  rewrite Hs. unfold Smoothing.smooth at 1. rewrite smooth_from_length.
  split; [exact Hnotes|].
  rewrite Hr.
  split; [apply raw_of_owners_01|apply smooth_01, raw_of_owners_01].
Qed.

(** X9. Run with [--model equi], the script raises [ZeroDivisionError]
    exactly for a meeting without a boundary, that is when every
    utterance belongs to the first leaf discovered (or there is none);
    for every other meeting [EquiSeg] returns one label for each note. *)
Theorem equi_run_raises_iff (M : Z) (anno_root : Anno.AnnoTreeNode U) :
  let own := Notes.owners (Anno.discover_anno_leaves anno_root) in
  (Main.equi_transitions_hat M anno_root = Baselines.Err Baselines.ZeroDivisionError
   <-> Forall (fun o => o = 0%nat) own) /\
  (~ Forall (fun o => o = 0%nat) own ->
   exists transitions_hat,
     Main.equi_transitions_hat M anno_root = Baselines.Ret transitions_hat /\
     length transitions_hat
     = length (Notes.m_notes (Notes.compose_meeting_notes M anno_root))).
Proof.
  cbv zeta. unfold Main.equi_transitions_hat, Main.true_K. cbv zeta.
  destruct (meeting_vectors M anno_root) as (Hn & Hr & Hs & Hlen).
  set (r := Notes.compose_meeting_notes M anno_root) in *.
  set (own := Notes.owners (Anno.discover_anno_leaves anno_root)) in *.
  set (N := length (Notes.m_notes r)).
  assert (HN : N = length (Notes.m_raw_transitions r)).
  { unfold N. rewrite Hn, length_map, Hlen. reflexivity. }
  set (s := Py.sum (Notes.m_transitions r)).
  assert (H01 : Forall (fun x => x = 0 \/ x = 1) (Notes.m_transitions r)).
  { rewrite Hs, Hr. apply smooth_01, raw_of_owners_01. }
  assert (Hbound : 0 <= s <= Z.of_nat N).
  { split.
    - apply sum_nonneg. eapply Forall_impl; [exact H01|].
      intros x [->| ->]; lia.
    - rewrite HN. replace (length (Notes.m_raw_transitions r))
        with (length (Notes.m_transitions r)).
      + apply sum_le_length, H01.
      + rewrite Hs. apply smooth_from_length. }
  assert (Hzero : s = 0 <-> Forall (fun o => o = 0%nat) own).
  { unfold s. rewrite Hs, smooth_sum_zero_iff.
    - rewrite Hr. apply raw_of_owners_sum_zero.
    - rewrite Hr. apply raw_of_owners_nonneg. }
  destruct (equi_segment_meeting_cases N (s + 1))
    as [[Hc He]|[Hc He]]; rewrite He.
  - assert (s = 0) by lia.
    split; [tauto|]. intros Hne. tauto.
  - assert (s <> 0) by lia.
    split; [split; [discriminate|tauto]|].
    intros _. eexists. split; [reflexivity|].
    rewrite length_map, length_seq. reflexivity.
Qed.

End MainFacts.

(** ** ICSI word files *)

Section WordEntryFacts.
Import ICSI.

Lemma type_is_neq (ty s : string) : ty <> s -> type_is (Some ty) s = false.
Proof. intros Hne. unfold type_is, text_is. apply String.eqb_neq, Hne. Qed.

(** Outside the closed table of types [make_word_entry] raises. *)
Lemma make_word_entry_unsupported (ty : string) text st :
  ty ∉ WordFile.supported_types ->
  make_word_entry (Some ty) text st = Raise (UnsupportedType ty).
Proof.
  intros Hnot. unfold WordFile.supported_types in Hnot.
  repeat (apply not_elem_of_cons in Hnot; destruct Hnot as [? Hnot]).
  unfold make_word_entry. cbn [make_word_entry_rec].
  repeat match goal with
         | Hne : ty <> ?s |- _ => rewrite (type_is_neq ty s Hne)
         end.
  reflexivity.
Qed.

Lemma make_word_entry_symbol text st :
  make_word_entry (Some "SYM") text st
  = if text_is text "-"
    then Ok (Some (mk_entry (Some "HYPH") false false text None None None), st)
    else Ok (None, st).
Proof.
  destruct text as [t|]; [destruct (String.eqb_spec t "-") as [->|Hne]|].
  - reflexivity.
  - apply String.eqb_neq in Hne. unfold make_word_entry.
    cbn [make_word_entry_rec type_is text_is].
    rewrite Hne. reflexivity.
  - reflexivity.
Qed.

Lemma make_word_entry_quote ty text st :
  ty ∈ ["LQUOTE"; "RQUOTE"; "QUOTE"] ->
  exists e st', make_word_entry (Some ty) text st = Ok (Some e, st').
Proof.
  intros Hin.
  repeat (apply elem_of_cons in Hin; destruct Hin as [->|Hin]);
    [..|apply elem_of_nil in Hin; contradiction].
  all: destruct st as [[|q qs] lg];
    (destruct text as [t|]; [destruct (String.eqb_spec t "'") as [->|Hne]|]);
    first [ eexists _, _; reflexivity
          | apply String.eqb_neq in Hne; unfold make_word_entry;
            cbn [make_word_entry_rec type_is text_is]; rewrite Hne;
            eexists _, _; reflexivity ].
Qed.

(** Inside the table it returns an entry, or a gap for a symbol other
    than the hyphen, or fails on the first character of the text of a
    word. *)
Lemma make_word_entry_supported (ty : string) text st :
  ty ∈ WordFile.supported_types ->
  (exists e st', make_word_entry (Some ty) text st = Ok (Some e, st')) \/
  (ty = "SYM" /\ text_is text "-" = false /\
   make_word_entry (Some ty) text st = Ok (None, st)) \/
  ((ty = "W" \/ ty = "TRUNCW") /\ text = None /\
   make_word_entry (Some ty) text st = Raise TypeError) \/
  ((ty = "W" \/ ty = "TRUNCW") /\ text = Some EmptyString /\
   make_word_entry (Some ty) text st = Raise IndexError).
Proof.
  intros Hin.
  assert (Hcases : ty ∈ ["W"; "TRUNCW"; "ABBR"; "LET"; "CD"; "SYM"; "HYPH";
                         "CM"; "."; "APOSS"]
                   \/ ty ∈ ["LQUOTE"; "RQUOTE"; "QUOTE"]).
  { unfold WordFile.supported_types in Hin. set_solver. }
  clear Hin. destruct Hcases as [Hin|Hq];
    [|left; apply make_word_entry_quote, Hq].
  repeat (apply elem_of_cons in Hin; destruct Hin as [->|Hin]);
    [..|apply elem_of_nil in Hin; contradiction].
  1,2: destruct text as [[|c t]|];
       [right; right; right; auto
       |left; unfold make_word_entry; cbn; destruct (Ascii.eqb c "'"); eauto
       |right; right; left; auto].
  1,2,3: left; eexists _, _; reflexivity.
  1: { rewrite make_word_entry_symbol.
       destruct (text_is text "-"); [left; eauto|right; left; auto]. }
  all: left; eexists _, _; reflexivity.
Qed.

(** X10. [make_word_entry] raises [UnsupportedType] exactly for a type
    outside its table of thirteen; it returns a gap, with the quote
    stack and the log untouched, exactly for an element without type
    and for a symbol other than the hyphen; and its self-calls never nest
    deeper than the model allows. *)
Theorem make_word_entry_outcomes (word_type text : option string) (st : state) :
  (forall ty, make_word_entry word_type text st = Raise (UnsupportedType ty)
     <-> word_type = Some ty /\ ty ∉ WordFile.supported_types) /\
  (forall st', make_word_entry word_type text st = Ok (None, st')
     <-> st' = st /\
         (word_type = None \/
          word_type = Some "SYM" /\ text_is text "-" = false)) /\
  make_word_entry word_type text st <> Raise RecursionError.
Proof.
  destruct word_type as [ty|].
  - destruct (decide (ty ∈ WordFile.supported_types)) as [Hin|Hnot].
    + destruct (make_word_entry_supported ty text st Hin)
        as [(e & st1 & He)|[(-> & Ht & He)|[(Hty & -> & He)|(Hty & -> & He)]]];
        rewrite He.
      * split; [|split; [|discriminate]].
        -- intros ty'. split; [discriminate|]. intros [[= <-] Hn]. contradiction.
        -- intros st'. split; [discriminate|].
           intros [-> [Hnone|[[= ->] Ht]]]; [discriminate|].
           rewrite make_word_entry_symbol, Ht in He. discriminate.
      * split; [|split; [|discriminate]].
        -- intros ty'. split; [discriminate|]. intros [[= <-] Hn]. contradiction.
        -- intros st'. split; [intros [= <-]; auto|intros [-> _]; reflexivity].
      * split; [|split; [|discriminate]].
        -- intros ty'. split; [discriminate|]. intros [[= <-] Hn]. contradiction.
        -- intros st'. split; [discriminate|].
           intros [_ [?|[[= ->] _]]]; [discriminate|].
           destruct Hty; discriminate.
      * split; [|split; [|discriminate]].
        -- intros ty'. split; [discriminate|]. intros [[= <-] Hn]. contradiction.
        -- intros st'. split; [discriminate|].
           intros [_ [?|[[= ->] _]]]; [discriminate|].
           destruct Hty; discriminate.
    + rewrite (make_word_entry_unsupported ty text st Hnot).
      split; [|split; [|discriminate]].
      * intros ty'. split; [intros [= <-]; auto|intros [[= <-] _]; reflexivity].
      * intros st'. split; [discriminate|].
        intros [_ [?|[[= ->] _]]]; [discriminate|].
        contradiction Hnot. unfold WordFile.supported_types. set_solver.
  - split; [|split; [|discriminate]].
    + intros ty. split; [discriminate|]. intros [? _]. discriminate.
    + intros st'. unfold make_word_entry. cbn.
      split; [intros [= <-]; auto|intros [-> _]; reflexivity].
Qed.

End WordEntryFacts.

Section WordIndexFacts.
Import ICSI.

Lemma load_words_app (l1 l2 : list Element) (acc : word_index * state) :
  load_words acc (l1 ++ l2) = acc' ← load_words acc l1; load_words acc' l2.
Proof.
  revert acc. induction l1 as [|c l1 IH]; intros acc; [reflexivity|].
  cbn [app load_words].
  destruct (load_word acc c) as [acc'|e]; [apply IH|reflexivity].
Qed.

Lemma load_word_ok wi st child wi' st' :
  load_word (wi, st) child = Ok (wi', st') ->
  exists key word,
    attrib child !! nite_id = Some key /\
    make_word_entry (attrib child !! "c") (etext child) st = Ok (word, st') /\
    wi' = mk_word_index (words wi ++ [word])
                        (<[key := length (words wi)]> (index wi)).
Proof.
  unfold load_word, attr.
  destruct (attrib child !! nite_id) as [key|]; [|discriminate].
  cbn [mbind outcome_bind Py.bind].
  destruct (make_word_entry _ _ st) as [[word st1]|e]; [|discriminate].
  cbn [mbind outcome_bind Py.bind]. intros [= <- <-].
  exists key, word. repeat split.
  rewrite length_app. cbn [length].
  replace (length (words wi) + 1 - 1)%nat with (length (words wi)) by lia.
  reflexivity.
Qed.

(** The index built by the loop, against the ids of the children read:
    it sends a key to a position that holds this key; it has as many
    keys as children exactly when the ids are distinct, and then it
    knows every position. *)
Lemma load_words_index (l : list Element) (st0 : state) :
  forall wi st,
  load_words (mk_word_index [] ∅, st0) l = Ok (wi, st) ->
  let ks := map (fun child => attrib child !! nite_id) l in
  length (words wi) = length l /\
  (forall key i, index wi !! key = Some i -> ks !! i = Some (Some key)) /\
  (size (index wi) <= length l)%nat /\
  (size (index wi) = length l ->
   forall i key, ks !! i = Some (Some key) -> index wi !! key = Some i) /\
  (size (index wi) = length l <-> NoDup ks).
Proof.
  induction l as [|c l IH] using rev_ind; intros wi st Hrun; cbv zeta.
  - injection Hrun as <- <-. cbn [words index map length].
    rewrite map_size_empty.
    split; [reflexivity|]. split; [intros key i Hk; discriminate|].
    split; [lia|]. split; [intros _ i key Hk; discriminate|].
    split; [intros _; constructor|reflexivity].
  - rewrite load_words_app in Hrun.
    destruct (load_words _ l) as [[wi1 st1]|e] eqn:Hl; [|discriminate].
    cbn [mbind outcome_bind Py.bind load_words] in Hrun.
    destruct (load_word (wi1, st1) c) as [[wi2 st2]|e] eqn:Hc; [|discriminate].
    cbn [mbind outcome_bind Py.bind] in Hrun. injection Hrun as <- <-.
    apply load_word_ok in Hc. destruct Hc as (key & word & Hkey & _ & ->).
    specialize (IH _ _ eq_refl). cbv zeta in IH.
    destruct IH as (Hlen & Hsound & Hle & Hfull & Hdistinct).
    cbn [words index]. rewrite map_app, !length_app. cbn [map length].
    rewrite Hkey, Hlen.
    set (ks := map (fun child => attrib child !! nite_id) l) in *.
    assert (Hks : length ks = length l) by (unfold ks; apply length_map).
    rewrite map_size_insert.
    assert (Hfresh : index wi1 !! key = None -> size (index wi1) = length l ->
                     Some key ∉ ks).
    { intros Hnone Hsz Hin. apply list_elem_of_lookup in Hin.
      destruct Hin as [i Hi]. rewrite (Hfull Hsz i key Hi) in Hnone.
      discriminate. }
    split; [reflexivity|]. split; [|split; [|split]].
    + intros k i Hk. apply lookup_snoc_Some.
      destruct (decide (k = key)) as [->|Hne].
      * rewrite lookup_insert_eq in Hk. injection Hk as <-.
        right. split; [lia|reflexivity].
      * rewrite lookup_insert_ne in Hk by congruence.
        specialize (Hsound k i Hk). left. split; [|exact Hsound].
        apply lookup_lt_Some in Hsound. exact Hsound.
    + destruct (index wi1 !! key); cbn [id]; lia.
    + intros Hsz i k Hk.
      destruct (index wi1 !! key) eqn:Hold; cbn [id] in Hsz; [lia|].
      apply lookup_snoc_Some in Hk. destruct Hk as [[Hi Hk]|[-> [= ->]]].
      * rewrite lookup_insert_ne.
        -- apply Hfull; [lia|exact Hk].
        -- intros <-. apply (Hfresh eq_refl ltac:(lia)).
           apply list_elem_of_lookup. exists i. exact Hk.
      * rewrite Hks. apply lookup_insert_eq.
    + split.
      * intros Hsz.
        destruct (index wi1 !! key) eqn:Hold; cbn [id] in Hsz; [lia|].
        apply NoDup_app. split; [apply Hdistinct; lia|].
        split; [|apply NoDup_singleton].
        intros x Hx Hx'. apply list_elem_of_singleton in Hx'. subst x.
        apply (Hfresh eq_refl ltac:(lia) Hx).
      * intros Hnd. apply NoDup_app in Hnd. destruct Hnd as (Hnd & Hnot & _).
        apply Hdistinct in Hnd.
        destruct (index wi1 !! key) as [i|] eqn:Hold; cbn [id]; [|lia].
        exfalso. apply (Hnot (Some key)); [|left].
        apply list_elem_of_lookup. exists i. apply Hsound, Hold.
Qed.

(** X11. When a word file loads, its ids are distinct, the word list has
    one slot for each child, and the index sends the id of the child at
    position [i] to [i] and nothing else anywhere. An [AssertionError]
    is raised exactly for a file whose words all load but two of whose
    ids coincide: the word list always has the length the first assertion
    asks for. *)
Theorem load_speaker_words_index (root : Element) (lg : Py.log) :
  (forall wi lg', load_speaker_words root lg = Ok (wi, lg') ->
     length (words wi) = length (children root) /\
     NoDup (WordFile.ids root) /\
     forall i key, WordFile.ids root !! i = Some (Some key)
                   <-> index wi !! key = Some i) /\
  (load_speaker_words root lg = Raise AssertionError
   <-> (exists acc, load_words (mk_word_index [] ∅, mk_state [] lg)
                               (children root) = Ok acc) /\
       ~ NoDup (WordFile.ids root)) /\
  (forall wi st,
     load_words (mk_word_index [] ∅, mk_state [] lg) (children root)
     = Ok (wi, st) ->
     length (words wi) = length (children root)).
Proof.
  assert (Hfirst : forall wi st,
            load_words (mk_word_index [] ∅, mk_state [] lg) (children root)
            = Ok (wi, st) ->
            length (words wi) = length (children root)).
  { intros wi st Hrun. apply (load_words_index _ _ _ _ Hrun). }
  rewrite (and_assoc _ _ _). split; [|exact Hfirst]. clear Hfirst.
  unfold load_speaker_words, WordFile.ids.
  destruct (load_words _ (children root)) as [[wi0 st0]|e] eqn:Hrun.
  - pose proof (load_words_index _ _ _ _ Hrun) as Hidx. cbv zeta in Hidx.
    destruct Hidx as (Hlen & Hsound & Hle & Hfull & Hdistinct).
    cbn [mbind outcome_bind Py.bind]. rewrite Hlen, Nat.eqb_refl.
    cbn [negb].
    destruct (Nat.eqb_spec (size (index wi0)) (length (children root)))
      as [Hsz|Hsz]; cbn [negb].
    + split.
      * intros wi lg' [= <- <-]. split; [exact Hlen|].
        split; [apply Hdistinct, Hsz|].
        intros i key. split; [apply Hfull, Hsz|apply Hsound].
      * split; [discriminate|]. intros [_ Hdup].
        contradiction Hdup. apply Hdistinct, Hsz.
    + split; [discriminate|].
      split; [|reflexivity]. intros _. split; [eauto|].
      intros Hnd. apply Hsz, Hdistinct, Hnd.
  - cbn [mbind outcome_bind Py.bind].
    split; [discriminate|]. split.
    + intros [= ->]. exfalso.
      clear -Hrun. revert Hrun.
      generalize (mk_word_index [] ∅, mk_state [] lg).
      induction (children root) as [|c l IH]; intros acc Hrun; [discriminate|].
      cbn [load_words] in Hrun.
      destruct (load_word acc c) as [acc'|e] eqn:Hc.
      * apply (IH _ Hrun).
      * cbn [mbind outcome_bind Py.bind] in Hrun. injection Hrun as ->.
        destruct acc as [wi st]. unfold load_word, attr in Hc.
        destruct (attrib c !! nite_id); [|discriminate].
        cbn [mbind outcome_bind Py.bind] in Hc.
        destruct (make_word_entry _ _ st) as [[word st1]|e] eqn:Hw;
          [discriminate|].
        cbn [mbind outcome_bind Py.bind] in Hc. injection Hc as ->.
        destruct (attrib c !! "c") as [ty|] eqn:Hty.
        -- destruct (decide (ty ∈ WordFile.supported_types)) as [Hin|Hnot].
           ++ destruct (make_word_entry_supported ty (etext c) st Hin)
                as [(e' & st' & He)|[(_ & _ & He)|[(_ & _ & He)|(_ & _ & He)]]];
                rewrite He in Hw; discriminate.
           ++ rewrite (make_word_entry_unsupported ty _ st Hnot) in Hw.
              discriminate.
        -- discriminate.
    + intros [[acc Hacc] _]. discriminate.
Qed.

End WordIndexFacts.

Section LogFacts.
Import ICSI.

(** [make_word_entry] only ever appends to the log. *)
Lemma make_word_entry_log (depth : nat) :
  forall word_type text st word st',
  make_word_entry_rec depth word_type text st = Ok (word, st') ->
  exists extra, logged st' = logged st ++ extra.
Proof.
  induction depth as [|depth IH]; intros word_type text st word st' Hrun;
    [discriminate|].
  cbn [make_word_entry_rec] in Hrun.
  repeat match type of Hrun with
         | context [first_is_apostrophe ?t] =>
             destruct (first_is_apostrophe t) as [[|]|];
             cbn [mbind outcome_bind Py.bind] in Hrun
         | context [if ?b then _ else _] => destruct b
         | context [match quote_stack ?s with _ => _ end] =>
             destruct (quote_stack s)
         | context [match word_type with _ => _ end] => destruct word_type
         end;
    try discriminate;
    try (apply IH in Hrun; exact Hrun);
    injection Hrun as <- <-; cbn [logged];
    try (exists []; rewrite app_nil_r; reflexivity);
    eexists; reflexivity.
Qed.

Lemma load_words_log (l : list Element) :
  forall wi st wi' st',
  load_words (wi, st) l = Ok (wi', st') ->
  exists extra, logged st' = logged st ++ extra.
Proof.
  induction l as [|c l IH]; intros wi st wi' st' Hrun.
  - injection Hrun as <- <-. exists []. rewrite app_nil_r. reflexivity.
  - cbn [load_words] in Hrun.
    destruct (load_word (wi, st) c) as [[wi1 st1]|e] eqn:Hc; [|discriminate].
    cbn [mbind outcome_bind Py.bind] in Hrun.
    apply load_word_ok in Hc. destruct Hc as (key & word & _ & Hw & _).
    apply make_word_entry_log in Hw. destruct Hw as [extra1 Hw].
    apply IH in Hrun. destruct Hrun as [extra2 Hrun].
    exists (extra1 ++ extra2). rewrite Hrun, Hw, app_assoc. reflexivity.
Qed.

Lemma load_speaker_words_log (root : Element) (lg : Py.log) wi lg' :
  load_speaker_words root lg = Ok (wi, lg') ->
  exists extra, lg' = lg ++ extra.
Proof.
  unfold load_speaker_words. intros Hrun.
  destruct (load_words _ (children root)) as [[wi0 st0]|e] eqn:Hwords;
    [|discriminate].
  cbn [mbind outcome_bind Py.bind] in Hrun.
  destruct (negb _); [discriminate|]. destruct (negb _); [discriminate|].
  injection Hrun as <- <-.
  apply load_words_log in Hwords. exact Hwords.
Qed.

Variable word_dir : string.
Variable fs : files.
Variable meeting : string.

Lemma load_meeting_words_from_speakers (speakers : list string) :
  forall meeting_words lg meeting_words' lg',
  load_meeting_words_from word_dir fs meeting speakers meeting_words lg
  = Ok (meeting_words', lg') ->
  (forall speaker,
     is_Some (meeting_words' !! speaker)
     <-> is_Some (meeting_words !! speaker) \/
         speaker ∈ speakers /\
         is_Some (fs !! words_xml_fnm word_dir meeting speaker)) /\
  (exists extra, lg' = lg ++ extra) /\
  (forall speaker,
     speaker ∈ speakers ->
     fs !! words_xml_fnm word_dir meeting speaker = None ->
     (Py.Warning,
      "File not found: " +:+ words_xml_fnm word_dir meeting speaker
      +:+ " => Skipping") ∈ lg').
Proof.
  induction speakers as [|sp speakers IH];
    intros mw lg mw' lg' Hrun.
  - injection Hrun as <- <-. split; [|split].
    + intros speaker. split; [auto|]. intros [?|[Hin _]]; [assumption|].
      apply elem_of_nil in Hin. contradiction.
    + exists []. rewrite app_nil_r. reflexivity.
    + intros speaker Hin. apply elem_of_nil in Hin. contradiction.
  - cbn [load_meeting_words_from] in Hrun.
    destruct (fs !! words_xml_fnm word_dir meeting sp) as [root|] eqn:Hfile.
    + destruct (load_speaker_words root lg) as [[wi lg1]|e] eqn:Hsp;
        [|discriminate].
      cbn [mbind outcome_bind Py.bind] in Hrun.
      apply load_speaker_words_log in Hsp. destruct Hsp as [extra1 ->].
      apply IH in Hrun. destruct Hrun as (Hdom & [extra2 ->] & Hwarn).
      split; [|split].
      * intros speaker. rewrite Hdom. split.
        -- intros [Hold|[Hin Hf]].
           ++ destruct (decide (speaker = sp)) as [->|Hne].
              ** right. split; [left|]. rewrite Hfile. eauto.
              ** rewrite lookup_insert_ne in Hold by congruence. auto.
           ++ right. split; [right; exact Hin|exact Hf].
        -- intros [Hold|[Hin Hf]].
           ++ left. destruct (decide (speaker = sp)) as [->|Hne].
              ** rewrite lookup_insert_eq. eauto.
              ** rewrite lookup_insert_ne by congruence. exact Hold.
           ++ apply elem_of_cons in Hin. destruct Hin as [->|Hin].
              ** left. rewrite lookup_insert_eq. eauto.
              ** right. auto.
      * exists (extra1 ++ extra2). rewrite app_assoc. reflexivity.
      * intros speaker Hin Hnone.
        apply elem_of_cons in Hin. destruct Hin as [->|Hin]; [congruence|].
        apply Hwarn; assumption.
    + apply IH in Hrun. destruct Hrun as (Hdom & [extra2 ->] & Hwarn).
      split; [|split].
      * intros speaker. rewrite Hdom. split.
        -- intros [Hold|[Hin Hf]]; [auto|].
           right. split; [right; exact Hin|exact Hf].
        -- intros [Hold|[Hin Hf]]; [auto|].
           apply elem_of_cons in Hin. destruct Hin as [->|Hin].
           ++ rewrite Hfile in Hf. destruct Hf as [? Hf]. discriminate.
           ++ right. auto.
      * eexists. rewrite <- app_assoc. reflexivity.
      * intros speaker Hin Hnone.
        apply elem_of_cons in Hin. destruct Hin as [->|Hin].
        -- rewrite <- app_assoc. apply elem_of_app. right.
           apply elem_of_app. left. apply elem_of_cons. left. reflexivity.
        -- apply Hwarn; assumption.
Qed.

(** X12. When the words of a meeting load, the result has an entry for
    exactly the speakers that have a word file; every other speaker has
    left its warning in the log, and the log handed in is still the
    beginning of the log handed back. *)
Theorem load_meeting_words_speakers (speakers : list string) (lg : Py.log)
    (meeting_words : gmap string word_index) (lg' : Py.log) :
  load_meeting_words word_dir fs meeting speakers lg = Ok (meeting_words, lg') ->
  (forall speaker,
     is_Some (meeting_words !! speaker)
     <-> speaker ∈ speakers /\
         is_Some (fs !! words_xml_fnm word_dir meeting speaker)) /\
  (exists extra, lg' = lg ++ extra) /\
  (forall speaker,
     speaker ∈ speakers ->
     fs !! words_xml_fnm word_dir meeting speaker = None ->
     (Py.Warning,
      "File not found: " +:+ words_xml_fnm word_dir meeting speaker
      +:+ " => Skipping") ∈ lg').
Proof.
  unfold load_meeting_words. intros Hrun.
  apply load_meeting_words_from_speakers in Hrun.
  destruct Hrun as (Hdom & Hlog & Hwarn).
  split; [|split; assumption].
  intros speaker. rewrite Hdom. rewrite lookup_empty. split.
  - intros [[x Hx]|H]; [discriminate|exact H].
  - auto.
Qed.

End LogFacts.

Lemma load_meeting_words_speakers_witness :
  exists meeting_words lg',
    ICSI.load_meeting_words "words"
      {[ "words/Bed002.A.words.xml" := Samples.flag_sign_words ]}
      "Bed002" ["A"; "B"] [] = Ok (meeting_words, lg') /\
    (is_Some (meeting_words !! "A") /\ meeting_words !! "B" = None) /\
    lg' = [(Py.Warning,
            "File not found: words/Bed002.B.words.xml => Skipping")].
Proof.
  destruct (ICSI.load_meeting_words "words"
              {[ "words/Bed002.A.words.xml" := Samples.flag_sign_words ]}
              "Bed002" ["A"; "B"] []) as [[meeting_words lg']|e] eqn:Hrun.
  - exists meeting_words, lg'. split; [reflexivity|].
    destruct (load_meeting_words_speakers _ _ _ _ _ _ _ Hrun)
      as (Hdom & _ & _).
    split.
    + split.
      * apply Hdom. split; [left|]. vm_compute. eauto.
      * destruct (meeting_words !! "B") eqn:HB; [|reflexivity].
        assert (Hsome : is_Some (meeting_words !! "B")) by eauto.
        apply Hdom in Hsome. destruct Hsome as [_ [x Hx]].
        vm_compute in Hx. discriminate.
    + vm_compute in Hrun. congruence.
  - vm_compute in Hrun. discriminate.
Defined.

(** ** ICSI utterances *)

Section InPlaceFacts.
Import ICSI.

Lemma same_but_text_refl (heap : list (option entry)) :
  Forall2 WordFile.same_but_text heap heap.
Proof.
  induction heap as [|[U|] heap IH]; constructor; cbn; auto.
Qed.

Lemma same_but_text_trans (h1 h2 h3 : list (option entry)) :
  Forall2 WordFile.same_but_text h1 h2 ->
  Forall2 WordFile.same_but_text h2 h3 ->
  Forall2 WordFile.same_but_text h1 h3.
Proof.
  intros H12. revert h3. induction H12 as [|a b l1 l2 Hab _ IH]; intros h3 H23.
  - inversion H23. constructor.
  - inversion H23 as [|b' c l2' l3 Hbc Hrest]; subst. constructor; [|apply IH, Hrest].
    destruct a as [A|], b as [B|], c as [C|]; cbn in *; try contradiction; auto.
    destruct Hab as (? & ? & ? & ? & ?), Hbc as (? & ? & ? & ? & ?).
    repeat split; congruence.
Qed.

Lemma same_but_text_insert (heap : list (option entry)) (u : nat) (U U' : entry) :
  heap !! u = Some (Some U) ->
  WordFile.same_but_text (Some U) (Some U') ->
  Forall2 WordFile.same_but_text heap (<[u := Some U']> heap).
Proof.
  revert u. induction heap as [|a heap IH]; intros u Hu HU; [discriminate|].
  destruct u as [|u]; cbn in Hu.
  - injection Hu as ->. constructor; [exact HU|apply same_but_text_refl].
  - constructor; [destruct a; cbn; auto|apply IH; assumption].
Qed.

(** [absorb_token] either hands the token back or rewrites the text and
    the right-space flag of the utterance it was given. *)
Lemma absorb_token_in_place heap ut t heap' u :
  absorb_token heap ut t = Ok (heap', u) ->
  Some u = from_option Some (Some t) ut /\
  Forall2 WordFile.same_but_text heap heap' /\
  forall p, p <> u -> heap' !! p = heap !! p.
Proof.
  unfold absorb_token. destruct ut as [u0|].
  - destruct (heap !! u0) as [[U|]|] eqn:HU; try discriminate.
    destruct (heap !! t) as [[T|]|]; try discriminate.
    destruct (text T) as [tt|]; [|discriminate].
    destruct (text U) as [tu|]; [|discriminate].
    cbn [mbind outcome_bind Py.bind]. intros [= <- <-].
    split; [reflexivity|]. split.
    + eapply same_but_text_insert; [exact HU|]. cbn. auto.
    + intros p Hp. apply list_lookup_insert_ne. congruence.
  - intros [= <- <-]. split; [reflexivity|].
    split; [apply same_but_text_refl|reflexivity].
Qed.

Lemma absorb_range_frame (ts : list nat) :
  forall heap ut heap' ut',
  absorb_range heap ut ts = Ok (heap', ut') ->
  Forall2 WordFile.same_but_text heap heap' /\
  (forall p, Some p <> ut' -> heap' !! p = heap !! p) /\
  ut' = match ut with
        | Some u => Some u
        | None => head (List.filter (WordFile.holds_word heap) ts)
        end.
Proof.
  induction ts as [|t ts IH]; intros heap ut heap' ut' Hrun.
  - injection Hrun as <- <-.
    split; [apply same_but_text_refl|]. split; [reflexivity|].
    destruct ut; reflexivity.
  - cbn [absorb_range] in Hrun. cbn [List.filter].
    unfold WordFile.holds_word at 1.
    destruct (heap !! t) as [[T|]|] eqn:Ht; [| |discriminate].
    + destruct (absorb_token heap ut t) as [[heap1 u]|e] eqn:Htok;
        [|discriminate].
      cbn [mbind outcome_bind Py.bind] in Hrun.
      apply absorb_token_in_place in Htok.
      destruct Htok as (Hu & Hsame1 & Hframe1).
      apply IH in Hrun. destruct Hrun as (Hsame & Hframe & ->).
      split; [eapply same_but_text_trans; eassumption|].
      split.
      * intros p Hp. rewrite Hframe by exact Hp. apply Hframe1. congruence.
      * destruct ut; cbn in Hu; exact Hu.
    + apply IH in Hrun. exact Hrun.
Qed.

(** X13. A token range is absorbed in place: the store keeps its length,
    its gaps, and every field of every word but the text and the
    right-space flag; the only slot written is the utterance, which is
    the utterance handed in or else the first word of the range. *)
Theorem absorb_range_in_place (heap : list (option entry)) (ut : option nat)
    (ts : list nat) (heap' : list (option entry)) (ut' : option nat) :
  absorb_range heap ut ts = Ok (heap', ut') ->
  length heap' = length heap /\
  Forall2 WordFile.same_but_text heap heap' /\
  (forall p, Some p <> ut' -> heap' !! p = heap !! p) /\
  ut' = match ut with
        | Some u => Some u
        | None => head (List.filter (WordFile.holds_word heap) ts)
        end.
Proof.
  intros Hrun. apply absorb_range_frame in Hrun.
  destruct Hrun as (Hsame & Hframe & Hut).
  split; [symmetry; eapply Forall2_length, Hsame|].
  split; [exact Hsame|]. split; [exact Hframe|exact Hut].
Qed.

End InPlaceFacts.

Lemma absorb_range_in_place_witness :
  exists heap' ut',
    ICSI.absorb_range Samples.so_yes_heap None (ICSI.range_incl 0 3)
    = Ok (heap', ut') /\
    length heap' = length Samples.so_yes_heap /\
    ut' = Some 0%nat.
Proof.
  destruct (ICSI.absorb_range Samples.so_yes_heap None (ICSI.range_incl 0 3))
    as [[heap' ut']|e] eqn:Hrun.
  - exists heap', ut'. split; [reflexivity|].
    destruct (absorb_range_in_place _ _ _ _ _ Hrun) as (Hlen & _ & _ & Hut).
    split; [exact Hlen|exact Hut].
  - vm_compute in Hrun. discriminate.
Defined.

Section SegmentFacts.
Import ICSI.
Variable strip_key : string -> string.
Variable is_float : string -> bool.
Variable speaker : string.
Variable segs : list Element.

Lemma same_word_refl (heap : list (option entry)) :
  Forall2 WordFile.same_word heap heap.
Proof. induction heap as [|[U|] heap IH]; constructor; cbn; auto. Qed.

Lemma same_word_trans (h1 h2 h3 : list (option entry)) :
  Forall2 WordFile.same_word h1 h2 ->
  Forall2 WordFile.same_word h2 h3 ->
  Forall2 WordFile.same_word h1 h3.
Proof.
  intros H12. revert h3. induction H12 as [|a b l1 l2 Hab _ IH]; intros h3 H23.
  - inversion H23. constructor.
  - inversion H23 as [|b' c l2' l3 Hbc Hrest]; subst.
    constructor; [|apply IH, Hrest].
    destruct a as [A|], b as [B|], c as [C|]; cbn in *; try contradiction; auto.
    destruct Hab, Hbc. split; congruence.
Qed.

Lemma same_but_text_same_word (h1 h2 : list (option entry)) :
  Forall2 WordFile.same_but_text h1 h2 -> Forall2 WordFile.same_word h1 h2.
Proof.
  induction 1 as [|a b l1 l2 Hab _ IH]; constructor; [|exact IH].
  destruct a, b; cbn in *; try contradiction; tauto.
Qed.

Lemma same_word_insert (heap : list (option entry)) (u : nat) (U U' : entry) :
  heap !! u = Some (Some U) ->
  WordFile.same_word (Some U) (Some U') ->
  Forall2 WordFile.same_word heap (<[u := Some U']> heap).
Proof.
  revert u. induction heap as [|a heap IH]; intros u Hu HU; [discriminate|].
  destruct u as [|u]; cbn in Hu.
  - injection Hu as ->. constructor; [exact HU|apply same_word_refl].
  - constructor; [destruct a; cbn; auto|apply IH; assumption].
Qed.

(** A reference survives a change of the store that keeps the speaker
    and the key at its position. *)
Lemma refers_kept (h1 h2 : list (option entry)) (u : nat) :
  Forall2 WordFile.same_but_text h1 h2 ->
  WordFile.refers_to_segment is_float speaker segs h1 u ->
  WordFile.refers_to_segment is_float speaker segs h2 u.
Proof.
  intros Hsame (U & seg & seg_id & HU & Hin & Hch & Htimed & Hid & Hsp & Hkey).
  destruct (Forall2_lookup_l _ _ _ _ _ Hsame HU) as (b & Hb & Hrel).
  destruct b as [U'|]; [|contradiction].
  destruct Hrel as (_ & _ & Hsp' & Hkey' & _).
  exists U', seg, seg_id.
  split; [exact Hb|]. split; [exact Hin|]. split; [exact Hch|].
  split; [exact Htimed|]. split; [exact Hid|]. split; congruence.
Qed.

Lemma attr_ok (e : Element) (k v : string) :
  attr e k = Ok v -> attrib e !! k = Some v.
Proof. unfold attr. destruct (attrib e !! k); congruence. Qed.

Lemma float_or_none_ok (s : string) (b : bool) :
  float_or_none is_float s = Ok b ->
  (s = EmptyString /\ b = false) \/
  (s <> EmptyString /\ is_float s = true /\ b = true).
Proof.
  unfold float_or_none. destruct (String.eqb_spec s EmptyString) as [->|Hne].
  - intros [= <-]. left. auto.
  - destruct (is_float s) eqn:Hf; [|discriminate].
    intros [= <-]. right. auto.
Qed.

Lemma load_segment_refs wi uts seg wi' uts' :
  seg ∈ segs ->
  load_segment strip_key is_float speaker (wi, uts) seg = Ok (wi', uts') ->
  Forall (WordFile.refers_to_segment is_float speaker segs (words wi)) uts ->
  index wi' = index wi /\
  Forall2 WordFile.same_word (words wi) (words wi') /\
  Forall (WordFile.refers_to_segment is_float speaker segs (words wi')) uts' /\
  (length uts' <= S (length uts))%nat.
Proof.
  intros Hin Hrun Hrefs. unfold load_segment in Hrun.
  destruct (children seg) as [|first rest] eqn:Hch.
  { injection Hrun as <- <-.
    repeat split; [apply same_word_refl|exact Hrefs|lia]. }
  destruct (attr seg nite_id) as [seg_id|e] eqn:Hid; [|discriminate].
  cbn [mbind outcome_bind Py.bind] in Hrun.
  destruct (attr seg "starttime") as [seg_start|e] eqn:Hstart; [|discriminate].
  cbn [mbind outcome_bind Py.bind] in Hrun.
  destruct (attr seg "endtime") as [seg_end|e] eqn:Hend; [|discriminate].
  cbn [mbind outcome_bind Py.bind] in Hrun.
  destruct (attr first "href") as [href|e]; [|discriminate].
  cbn [mbind outcome_bind Py.bind] in Hrun.
  destruct (word_range_keys _ _) as [[start_key end_key]|e]; [|discriminate].
  cbn [mbind outcome_bind Py.bind] in Hrun.
  destruct (lookup_index wi start_key) as [start_idx|e]; [|discriminate].
  cbn [mbind outcome_bind Py.bind] in Hrun.
  destruct (lookup_index wi end_key) as [end_idx|e]; [|discriminate].
  cbn [mbind outcome_bind Py.bind] in Hrun.
  destruct (absorb_range _ _ _) as [[heap ut]|e] eqn:Habs; [|discriminate].
  cbn [mbind outcome_bind Py.bind] in Hrun.
  apply absorb_range_frame in Habs. destruct Habs as (Hsame & _ & _).
  assert (Hkept : Forall (WordFile.refers_to_segment is_float speaker segs heap)
                         uts).
  { eapply Forall_impl; [exact Hrefs|].
    intros u Hu. eapply refers_kept; eassumption. }
  destruct ut as [u|].
  - destruct (heap !! u) as [[U|]|] eqn:HU; try discriminate.
    destruct (float_or_none is_float seg_start) as [has_start|e] eqn:Hfs;
      [|discriminate].
    cbn [mbind outcome_bind Py.bind] in Hrun.
    destruct (float_or_none is_float seg_end) as [has_end|e] eqn:Hfe;
      [|discriminate].
    cbn [mbind outcome_bind Py.bind] in Hrun.
    destruct (negb has_end && negb has_start) eqn:Hboth; [discriminate|].
    assert (Htimed : WordFile.timed is_float seg).
    { exists seg_start, seg_end.
      apply attr_ok in Hstart. apply attr_ok in Hend.
      split; [exact Hstart|]. split; [exact Hend|].
      apply float_or_none_ok in Hfs. apply float_or_none_ok in Hfe.
      destruct Hfs as [[-> ->]|[Hs1 [Hs2 ->]]],
               Hfe as [[-> ->]|[He1 [He2 ->]]];
        try discriminate Hboth; auto 6. }
    assert (Hkids : children seg <> []) by (rewrite Hch; discriminate).
    injection Hrun as <- <-. cbn [words index].
    split; [reflexivity|]. split.
    { eapply same_word_trans; [apply same_but_text_same_word, Hsame|].
      eapply same_word_insert; [exact HU|]. cbn. auto. }
    split; [|rewrite length_app; cbn [length]; lia].
    apply Forall_app. split.
    + eapply Forall_impl; [exact Hkept|].
      intros v (V & seg' & id' & HV & Hin' & Hch' & Htimed' & Hid' & Hsp
                & Hkey).
      destruct (decide (v = u)) as [->|Hne].
      * exists (set_speaker_key speaker seg_id U), seg, seg_id.
        split; [apply list_lookup_insert_eq; eapply lookup_lt_Some, HU|].
        repeat split; assumption.
      * exists V, seg', id'.
        rewrite list_lookup_insert_ne by congruence.
        repeat split; assumption.
    + constructor; [|constructor].
      exists (set_speaker_key speaker seg_id U), seg, seg_id.
      split; [apply list_lookup_insert_eq; eapply lookup_lt_Some, HU|].
      repeat split; assumption.
  - injection Hrun as <- <-. cbn [words index].
    split; [reflexivity|].
    split; [apply same_but_text_same_word, Hsame|].
    split; [exact Hkept|lia].
Qed.

Lemma load_segments_refs (l : list Element) :
  forall wi uts wi' uts',
  Forall (fun seg => seg ∈ segs) l ->
  load_segments strip_key is_float speaker (wi, uts) l = Ok (wi', uts') ->
  Forall (WordFile.refers_to_segment is_float speaker segs (words wi)) uts ->
  index wi' = index wi /\
  Forall2 WordFile.same_word (words wi) (words wi') /\
  Forall (WordFile.refers_to_segment is_float speaker segs (words wi')) uts' /\
  (length uts' <= length uts + length l)%nat.
Proof.
  induction l as [|seg l IH]; intros wi uts wi' uts' Hin Hrun Hrefs.
  - injection Hrun as <- <-.
    repeat split; [apply same_word_refl|exact Hrefs|lia].
  - cbn [load_segments] in Hrun.
    destruct (load_segment strip_key is_float speaker (wi, uts) seg)
      as [[wi1 uts1]|e] eqn:Hseg; [|discriminate].
    cbn [mbind outcome_bind Py.bind] in Hrun.
    apply Forall_cons in Hin. destruct Hin as [Hseg_in Hin].
    apply (load_segment_refs _ _ _ _ _ Hseg_in) in Hseg; [|exact Hrefs].
    destruct Hseg as (Hidx1 & Hsame1 & Hrefs1 & Hlen1).
    apply IH in Hrun; [|exact Hin|exact Hrefs1].
    destruct Hrun as (Hidx & Hsame & Hrefs' & Hlen).
    split; [congruence|].
    split; [eapply same_word_trans; eassumption|].
    split; [exact Hrefs'|cbn [length]; lia].
Qed.

End SegmentFacts.

(** X14. Whenever the segment file of a speaker loads, the word index is
    the one of the word file, the store has kept its gaps and the tag
    and left-space flag of every word, there is at most one utterance
    for each segment, and every utterance returned is a word of the
    store that carries the speaker and the id of a segment of the
    file: a segment with children whose two time attributes are there,
    each empty or a numeral, and not both empty. *)
Theorem load_speaker_utterances_refs (strip_key : string -> string)
    (is_float : string -> bool)
    (speaker : string) (wi : ICSI.word_index) (root : Element)
    (wi' : ICSI.word_index) (utterances : list nat) :
  ICSI.load_speaker_utterances strip_key is_float speaker wi root
  = Ok (wi', utterances) ->
  ICSI.index wi' = ICSI.index wi /\
  Forall2 WordFile.same_word (ICSI.words wi) (ICSI.words wi') /\
  (length utterances <= length (ICSI.collect_segs root))%nat /\
  Forall (WordFile.refers_to_segment is_float speaker
                                     (ICSI.collect_segs root)
                                     (ICSI.words wi'))
         utterances.
Proof.
  unfold ICSI.load_speaker_utterances. intros Hrun.
  apply (load_segments_refs strip_key is_float speaker
                            (ICSI.collect_segs root))
    in Hrun.
  - destruct Hrun as (Hidx & Hsame & Hrefs & Hlen).
    cbn [length] in Hlen. auto.
  - apply Forall_forall. auto.
  - constructor.
Qed.

Lemma load_speaker_utterances_refs_witness :
  exists wi wi' utterances,
    ICSI.load_speaker_words Samples.flag_sign_words [] = Ok (wi, []) /\
    ICSI.load_speaker_utterances Samples.keep_key Samples.plain_decimal "A" wi
      Samples.flag_sign_segs = Ok (wi', utterances) /\
    Forall (WordFile.refers_to_segment Samples.plain_decimal "A"
              (ICSI.collect_segs Samples.flag_sign_segs) (ICSI.words wi'))
           utterances /\
    utterances = [0%nat].
Proof.
  destruct (ICSI.load_speaker_words Samples.flag_sign_words [])
    as [[wi lg]|e] eqn:Hwords; [|vm_compute in Hwords; discriminate].
  assert (Hlg : lg = []) by (vm_compute in Hwords; congruence).
  subst lg.
  destruct (ICSI.load_speaker_utterances Samples.keep_key
              Samples.plain_decimal "A" wi
              Samples.flag_sign_segs) as [[wi' utterances]|e] eqn:Hrun.
  - exists wi, wi', utterances. split; [reflexivity|].
    split; [exact Hrun|].
    destruct (load_speaker_utterances_refs _ _ _ _ _ _ _ Hrun)
      as (_ & _ & _ & Hrefs).
    split; [exact Hrefs|].
    vm_compute in Hwords. injection Hwords as <-.
    vm_compute in Hrun. congruence.
  - vm_compute in Hwords. injection Hwords as <-.
    vm_compute in Hrun. discriminate.
Defined.

(** ** Normalization of the ICSI tree *)

Section KeyOrderFacts.
Import ICSI.

Lemma utterance_keys_unfold (n : node) :
  Keys.utterance_keys n
  = flat_map (fun child => if is_utterance child then [Anno.key child]
                           else Keys.utterance_keys child)
             (Anno.nn n).
Proof. destruct n; reflexivity. Qed.

(** The run of utterance children popped off the front gives the first
    keys of the children; nothing is left of an all-utterance list. *)
Lemma pop_utterances_keys (nn : list node) ks nn' :
  pop_utterances nn = (ks, nn') ->
  flat_map (fun child => if is_utterance child then [Anno.key child]
                         else Keys.utterance_keys child) nn
  = ks ++ flat_map (fun child => if is_utterance child then [Anno.key child]
                                 else Keys.utterance_keys child) nn' /\
  (forallb is_utterance nn = true -> nn' = []) /\
  (forall P : node -> Prop, Forall P nn -> Forall P nn').
Proof.
  revert ks nn'. induction nn as [|c rest IH]; intros ks nn' Hpop.
  - injection Hpop as <- <-. repeat split; auto.
  - cbn [pop_utterances] in Hpop. cbn [flat_map forallb].
    destruct (is_utterance c) eqn:Hc.
    + destruct (pop_utterances rest) as [ks0 nn0]. injection Hpop as <- <-.
      destruct (IH _ _ eq_refl) as (Hk & Hall & HP).
      rewrite Hk. repeat split; [exact Hall|].
      intros P HPc. apply Forall_cons in HPc. apply HP, HPc.
    + injection Hpop as <- <-. cbn [flat_map]. rewrite Hc.
      repeat split; [discriminate|auto].
Qed.

Lemma leaf_keys_children (acc : list node) :
  flat_map Anno.keys (flat_map Anno.preorder_leaves acc)
  = flat_map Keys.leaf_keys acc.
Proof.
  induction acc as [|c acc IH]; [reflexivity|].
  cbn [flat_map]. rewrite flat_map_app, IH. reflexivity.
Qed.

Lemma leaf_keys_composed_topic (p : string) (b : nat) (ks : list string) :
  Keys.leaf_keys (composed_topic p b ks) = ks.
Proof. unfold Keys.leaf_keys. cbn. apply app_nil_r. Qed.

Lemma normalize_key_order (fuel : nat) :
  (forall p n idx n' idx',
     normalize_anno_tree fuel p n idx = Ok (n', idx') ->
     Forall (fun m => Anno.keys m = []) (Anno.nodes n) ->
     Keys.leaf_keys n' = Keys.utterance_keys n) /\
  (forall p node0 nn acc b idx n' idx',
     normalize_loop fuel p node0 nn acc b idx = Ok (n', idx') ->
     (Anno.is_leaf node0 = true ->
      acc = [] /\ forallb is_utterance nn = true /\ Anno.keys node0 = []) ->
     Forall (fun c => Forall (fun m => Anno.keys m = []) (Anno.nodes c)) nn ->
     Keys.leaf_keys n'
     = flat_map Keys.leaf_keys acc ++
       flat_map (fun child => if is_utterance child then [Anno.key child]
                              else Keys.utterance_keys child) nn).
Proof.
  induction fuel as [|fuel [IHtree IHloop]]; [split; intros; discriminate|].
  split.
  - intros p n idx n' idx' Hrun Hkeys. cbn [normalize_anno_tree] in Hrun.
    destruct (Anno.register_anno_node idx (Anno.set_path p n)) as [idx1|e];
      [|discriminate].
    cbn [mbind outcome_bind Py.bind] in Hrun.
    rewrite nodes_unfold in Hkeys. apply Forall_cons in Hkeys.
    destruct Hkeys as [Hn Hch].
    apply IHloop in Hrun.
    + rewrite Hrun, utterance_keys_unfold. reflexivity.
    + cbn [Anno.is_leaf Anno.set_is_leaf Anno.keys Anno.set_path].
      intros Hlf. auto.
    + apply Forall_forall. intros c Hc.
      apply Forall_forall. intros m Hm.
      rewrite Forall_forall in Hch. apply Hch.
      apply list_elem_of_In, in_flat_map. exists c.
      split; apply list_elem_of_In; assumption.
  - intros p node0 nn acc b idx n' idx' Hrun Hleaf Hkeys.
    cbn [normalize_loop] in Hrun.
    destruct nn as [|first rest].
    + injection Hrun as <- <-. cbn [flat_map]. rewrite app_nil_r.
      unfold Keys.leaf_keys at 1. rewrite preorder_leaves_unfold.
      cbn [Anno.is_leaf Anno.set_nn Anno.nn].
      destruct (Anno.is_leaf node0) eqn:Hlf.
      * destruct (Hleaf eq_refl) as (-> & _ & Hk).
        cbn [flat_map app Anno.keys Anno.set_nn]. rewrite Hk. reflexivity.
      * cbn [app]. apply leaf_keys_children.
    + destruct (is_utterance first) eqn:Hutt.
      * destruct (pop_utterances (first :: rest)) as [ks nn'] eqn:Hpop.
        apply pop_utterances_keys in Hpop. destruct Hpop as (Hk & Hall & HP).
        rewrite Hk.
        destruct (Anno.is_leaf node0) eqn:Hlf.
        -- injection Hrun as <- <-.
           destruct (Hleaf eq_refl) as (-> & Hallu & _).
           rewrite (Hall Hallu). cbn [flat_map app]. rewrite app_nil_r.
           unfold Keys.leaf_keys. rewrite preorder_leaves_unfold.
           cbn [Anno.is_leaf Anno.set_nn Anno.set_keys Anno.nn Anno.keys
                flat_map app].
           rewrite Hlf. cbn [app flat_map Anno.keys]. rewrite app_nil_r.
           reflexivity.
        -- destruct (Anno.register_anno_node idx (composed_topic p b ks))
             as [idx1|e]; [|discriminate].
           cbn [mbind outcome_bind Py.bind] in Hrun.
           apply IHloop in Hrun.
           ++ rewrite Hrun, flat_map_app, <- app_assoc. cbn [flat_map].
              rewrite leaf_keys_composed_topic, app_nil_r. reflexivity.
           ++ intros Habs. congruence.
           ++ apply HP, Hkeys.
      * destruct (normalize_anno_tree fuel (p +:+ "." +:+ Py.str b) first idx)
          as [[child idx1]|e] eqn:Hchild; [|discriminate].
        cbn [mbind outcome_bind Py.bind] in Hrun.
        apply Forall_cons in Hkeys. destruct Hkeys as [Hfirst Hrest].
        apply IHtree in Hchild; [|exact Hfirst].
        apply IHloop in Hrun.
        -- rewrite Hrun, flat_map_app, <- app_assoc. cbn [flat_map].
           rewrite Hutt, app_nil_r, Hchild. reflexivity.
        -- intros Habs. discriminate.
        -- exact Hrest.
Qed.

(** X15. Normalization loses and reorders no utterance: read leaf after
    leaf, the keys of the normalized tree are the keys of the utterance
    nodes of the tree it was given, in document order. *)
Theorem normalize_keeps_key_order (fuel : nat) (p : string) (n : node)
    (idx : gset string) (n' : node) (idx' : gset string) :
  Forall (fun m => Anno.keys m = []) (Anno.nodes n) ->
  normalize_anno_tree fuel p n idx = Ok (n', idx') ->
  flat_map Anno.keys (Anno.discover_anno_leaves n') = Keys.utterance_keys n.
Proof.
  intros Hkeys Hrun. rewrite discover_preorder.
  apply (proj1 (normalize_key_order fuel) _ _ _ _ _ Hrun Hkeys).
Qed.

End KeyOrderFacts.

Lemma normalize_keeps_key_order_witness :
  exists n' idx',
    ICSI.normalize_anno_tree (ICSI.normalize_fuel Samples.icsi_built) "*"
      Samples.icsi_built ∅ = Ok (n', idx') /\
    flat_map Anno.keys (Anno.discover_anno_leaves n')
    = ["A:k1"; "A:k2"; "A:k3"; "A:k4"].
Proof.
  destruct (ICSI.normalize_anno_tree (ICSI.normalize_fuel Samples.icsi_built)
              "*" Samples.icsi_built ∅) as [[n' idx']|e] eqn:Hrun.
  - exists n', idx'. split; [reflexivity|].
    assert (Hkeys : Forall (fun m : ICSI.node => Anno.keys m = [])
                           (Anno.nodes Samples.icsi_built))
      by (cbn; repeat constructor).
    exact (normalize_keeps_key_order _ _ _ _ _ _ Hkeys Hrun).
  - vm_compute in Hrun. discriminate.
Defined.

Section ShapeFacts.
Import ICSI.

Lemma pop_utterances_all (nn : list node) :
  forallb is_utterance nn = true ->
  pop_utterances nn = (map Anno.key nn, []).
Proof.
  induction nn as [|c rest IH]; intros Hall; [reflexivity|].
  cbn [forallb] in Hall. apply andb_true_iff in Hall. destruct Hall as [Hc Hrest].
  cbn [pop_utterances map]. rewrite Hc, (IH Hrest). reflexivity.
Qed.

Lemma normalize_shape (fuel : nat) :
  (forall p n idx n' idx',
     normalize_anno_tree fuel p n idx = Ok (n', idx') ->
     Anno.tag n' = Anno.tag n /\
     Shape.leaf_iff_childless n' /\
     Forall Shape.settled (flat_map Anno.nodes (Anno.nn n'))) /\
  (forall p node0 nn acc b idx n' idx',
     normalize_loop fuel p node0 nn acc b idx = Ok (n', idx') ->
     (Anno.is_leaf node0 = true ->
      acc = [] /\ forallb is_utterance nn = true) ->
     (Anno.is_leaf node0 = false ->
      acc <> [] \/ forallb is_utterance nn = false) ->
     Forall Shape.settled (flat_map Anno.nodes acc) ->
     Anno.tag n' = Anno.tag node0 /\
     Shape.leaf_iff_childless n' /\
     Forall Shape.settled (flat_map Anno.nodes (Anno.nn n'))).
Proof.
  induction fuel as [|fuel [IHtree IHloop]]; [split; intros; discriminate|].
  split.
  - intros p n idx n' idx' Hrun. cbn [normalize_anno_tree] in Hrun.
    destruct (Anno.register_anno_node idx (Anno.set_path p n)) as [idx1|e];
      [|discriminate].
    cbn [mbind outcome_bind Py.bind] in Hrun.
    apply IHloop in Hrun.
    + exact Hrun.
    + cbn [Anno.is_leaf Anno.set_is_leaf]. auto.
    + cbn [Anno.is_leaf Anno.set_is_leaf]. auto.
    + constructor.
  - intros p node0 nn acc b idx n' idx' Hrun Hleaf Hinner Hacc.
    cbn [normalize_loop] in Hrun.
    destruct nn as [|first rest].
    + injection Hrun as <- <-.
      split; [reflexivity|]. split; [|exact Hacc].
      unfold Shape.leaf_iff_childless. cbn [Anno.is_leaf Anno.set_nn Anno.nn].
      split.
      * intros Hlf. apply Hleaf, Hlf.
      * intros ->. destruct (Anno.is_leaf node0); [reflexivity|].
        destruct (Hinner eq_refl) as [Hne|Hsome];
          [contradiction|discriminate].
    + destruct (is_utterance first) eqn:Hutt.
      * destruct (pop_utterances (first :: rest)) as [ks nn'] eqn:Hpop.
        destruct (Anno.is_leaf node0) eqn:Hlf.
        -- injection Hrun as <- <-.
           split; [reflexivity|]. split; [|constructor].
           unfold Shape.leaf_iff_childless.
           cbn [Anno.is_leaf Anno.set_nn Anno.set_keys Anno.nn].
           rewrite Hlf. tauto.
        -- destruct (Anno.register_anno_node idx (composed_topic p b ks))
             as [idx1|e]; [|discriminate].
           cbn [mbind outcome_bind Py.bind] in Hrun.
           apply IHloop in Hrun.
           ++ exact Hrun.
           ++ intros Habs. congruence.
           ++ intros _. left. intros Habs. apply app_eq_nil in Habs.
              destruct Habs as [_ Habs]. discriminate.
           ++ rewrite flat_map_app. apply Forall_app. split; [exact Hacc|].
              cbn. constructor; [|constructor].
              split; [reflexivity|]. unfold Shape.leaf_iff_childless. cbn. tauto.
      * destruct (normalize_anno_tree fuel (p +:+ "." +:+ Py.str b) first idx)
          as [[child idx1]|e] eqn:Hchild; [|discriminate].
        cbn [mbind outcome_bind Py.bind] in Hrun.
        apply IHtree in Hchild. destruct Hchild as (Htag & Hch & Hbelow).
        apply IHloop in Hrun.
        -- exact Hrun.
        -- intros Habs. discriminate.
        -- intros _. left. intros Habs. apply app_eq_nil in Habs.
           destruct Habs as [_ Habs]. discriminate.
        -- rewrite flat_map_app. apply Forall_app. split; [exact Hacc|].
           cbn [flat_map]. rewrite app_nil_r, nodes_unfold.
           constructor; [|exact Hbelow].
           split; [|exact Hch].
           unfold is_utterance in *. rewrite Htag. exact Hutt.
Qed.

(** X16. In a normalized tree no utterance placeholder is left below the
    root, the root keeps its tag, and a node is marked as a leaf exactly
    when it has no children. *)
Theorem normalize_settles (fuel : nat) (p : string) (n : node)
    (idx : gset string) (n' : node) (idx' : gset string) :
  normalize_anno_tree fuel p n idx = Ok (n', idx') ->
  Anno.tag n' = Anno.tag n /\
  Forall Shape.leaf_iff_childless (Anno.nodes n') /\
  Forall (fun m => is_utterance m = false) (flat_map Anno.nodes (Anno.nn n')).
Proof.
  intros Hrun.
  destruct (proj1 (normalize_shape fuel) _ _ _ _ _ Hrun)
    as (Htag & Hroot & Hbelow).
  split; [exact Htag|]. rewrite nodes_unfold. split.
  - constructor; [exact Hroot|].
    eapply Forall_impl; [exact Hbelow|]. intros m [_ Hm]. exact Hm.
  - eapply Forall_impl; [exact Hbelow|]. intros m [Hm _]. exact Hm.
Qed.

End ShapeFacts.

Lemma normalize_settles_witness :
  exists n' idx',
    ICSI.normalize_anno_tree (ICSI.normalize_fuel Samples.icsi_built) "*"
      Samples.icsi_built ∅ = Ok (n', idx') /\
    Anno.tag n' = "root" /\
    Forall Shape.leaf_iff_childless (Anno.nodes n').
Proof.
  destruct (ICSI.normalize_anno_tree (ICSI.normalize_fuel Samples.icsi_built)
              "*" Samples.icsi_built ∅) as [[n' idx']|e] eqn:Hrun.
  - exists n', idx'. split; [reflexivity|].
    destruct (normalize_settles _ _ _ _ _ _ Hrun) as (Htag & Hshape & _).
    split; [exact Htag|exact Hshape].
  - vm_compute in Hrun. discriminate.
Defined.

Section FlatMeeting.
Import ICSI.

Lemma filter_none {A} (f : A -> bool) (l : list A) :
  Forall (fun x => f x = false) l -> List.filter f l = [].
Proof.
  induction 1 as [|x l Hx _ IH]; [reflexivity|].
  cbn [List.filter]. rewrite Hx. exact IH.
Qed.

Lemma normalize_loop_leaf fuel p (node0 : node) nn b idx :
  Anno.is_leaf node0 = true ->
  forallb is_utterance nn = true ->
  Anno.keys node0 = [] ->
  normalize_loop (S fuel) p node0 nn [] b idx
  = Ok (Anno.set_nn [] (Anno.set_keys (map Anno.key nn) node0), idx).
Proof.
  intros Hlf Hall Hkeys. cbn [normalize_loop].
  destruct nn as [|first rest].
  - destruct node0. cbn in *. subst. reflexivity.
  - rewrite (pop_utterances_all _ Hall).
    cbn [forallb] in Hall. apply andb_true_iff in Hall.
    destruct Hall as [-> _]. rewrite Hlf. reflexivity.
Qed.

(** X17. A meeting whose topic file holds utterances directly under the
    root, none of which resolves, cannot be loaded: the root is then the
    one leaf, it ends without keys, and deleting it looks up the parent
    path of the root, which is the empty string, in the index. *)
Theorem load_anno_tree_flat_unresolved (index : meeting_index) (built : node) :
  forallb is_utterance (Anno.nn built) = true ->
  Anno.keys built = [] ->
  Forall (fun child => key_readable index (Anno.key child) /\
                       resolves index (Anno.key child) = false)
         (Anno.nn built) ->
  load_anno_tree index built = Raise (KeyError EmptyString).
Proof.
  intros Hall Hkeys Hchildren.
  set (ks := map Anno.key (Anno.nn built)).
  assert (Hreadable : Forall (key_readable index) ks).
  { unfold ks. apply Forall_map. eapply Forall_impl; [exact Hchildren|].
    intros c [Hc _]. exact Hc. }
  assert (Hnone : List.filter (resolves index) ks = []).
  { apply filter_none. unfold ks. apply Forall_map.
    eapply Forall_impl; [exact Hchildren|]. intros c [_ Hc]. exact Hc. }
  set (root1 := Anno.set_nn [] (Anno.set_keys ks
                  (Anno.set_is_leaf true (Anno.set_path "*" built)))).
  assert (Hnorm : normalize_anno_tree (normalize_fuel built) "*" built ∅
                  = Ok (root1, {["*"]} ∪ ∅)).
  { unfold normalize_fuel. rewrite size_unfold.
    replace (2 * S (Anno.stack_size (Anno.nn built)))%nat
      with (S (S (2 * Anno.stack_size (Anno.nn built)))) by lia.
    cbn [normalize_anno_tree].
    unfold Anno.register_anno_node at 1. cbn [Anno.path Anno.set_path].
    destruct (decide ("*" ∈ (∅ : gset string))) as [Hin|_]; [set_solver|].
    cbn [mbind outcome_bind Py.bind]. rewrite Hall.
    rewrite normalize_loop_leaf; [reflexivity|reflexivity|exact Hall|exact Hkeys]. }
  unfold load_anno_tree. rewrite Hnorm.
  cbn [mbind outcome_bind Py.bind].
  assert (Hleaves : Anno.discover_anno_leaves root1 = [root1]).
  { rewrite discover_preorder, preorder_leaves_unfold. reflexivity. }
  destruct (attach_keys_spec index "*" ks (mk_resolved [] [])
              (mk_attach_state ∅ []) Hreadable)
    as (r' & st' & Hattach & Hfiltered & _ & _).
  rewrite Hnone in Hfiltered. cbn [filtered_keys app] in Hfiltered.
  pose proof (attach_keys_match _ _ _ _ _ _ _ Hattach eq_refl) as Hmatch.
  rewrite Hfiltered in Hmatch. cbn [length] in Hmatch.
  assert (Hconvo : r_convo r' = []).
  { destruct (r_convo r'); [reflexivity|discriminate]. }
  unfold attach_meeting_notes_tree, attach_meeting_notes.
  rewrite Hleaves. cbn [attach_leaves]. unfold attach_leaf.
  change (Anno.path root1) with "*". change (Anno.keys root1) with ks.
  rewrite Hattach. cbn [mbind outcome_bind Py.bind].
  rewrite Hfiltered, Hconvo.
  set (root2 := fst (write_back root1
                       [Anno.set_convo [] (Anno.set_keys [] root1)])).
  assert (Hroot2 : root2 = Anno.set_convo [] (Anno.set_keys [] root1)).
  { unfold root2, root1. destruct built. reflexivity. }
  unfold finalize_anno_tree.
  assert (Hleaves2 : Anno.discover_anno_leaves root2 = [root2]).
  { rewrite Hroot2, discover_preorder, preorder_leaves_unfold. reflexivity. }
  rewrite Hleaves2. cbn [delete_empty_leaves].
  replace (Anno.keys root2) with (@nil string) by (rewrite Hroot2; reflexivity).
  replace (Anno.path root2) with "*" by (rewrite Hroot2; reflexivity).
  unfold delete_anno_leaf. cbn [ts_index].
  destruct (decide ("*" ∈ ({["*"]} ∪ ∅ : gset string))) as [_|Hout];
    [|set_solver].
  change (get_parent_path "*") with EmptyString.
  destruct (decide (EmptyString ∈ ({["*"]} ∪ ∅ : gset string))) as [Hin|_];
    [|reflexivity].
  apply elem_of_union in Hin. destruct Hin as [Hin|Hin]; [|set_solver].
  apply elem_of_singleton in Hin. discriminate.
Qed.

End FlatMeeting.

Lemma load_anno_tree_flat_unresolved_witness :
  ICSI.load_anno_tree Samples.icsi_index
    (Anno.mkNode "root" EmptyString [] [Samples.placeholder "A:k4"]
                 EmptyString false [] false)
  = Raise (KeyError EmptyString).
Proof.
  apply load_anno_tree_flat_unresolved.
  - reflexivity.
  - reflexivity.
  - constructor; [|constructor]. split.
    + exists "A", "k4". split; [reflexivity|].
      vm_compute. eauto.
    + vm_compute. reflexivity.
Defined.

From Stdlib Require DecimalNat.

(** ** Registration never fails during normalization *)

Section FreshFacts.
Import ICSI.

Lemma to_uint_nonnil (n : nat) : Nat.to_uint n <> Decimal.Nil.
Proof.
  intros Hnil.
  pose proof (DecimalNat.Unsigned.to_of (Nat.to_uint n)) as E.
  rewrite DecimalNat.Unsigned.of_to in E. rewrite Hnil in E.
  discriminate.
Qed.

(** Distinct ordinals are printed differently. *)
Lemma str_inj (a b : nat) : Py.str a = Py.str b -> a = b.
Proof.
  unfold Py.str. intros Heq.
  apply (f_equal NilZero.uint_of_string) in Heq.
  rewrite !NilZero.usu in Heq by apply to_uint_nonnil.
  injection Heq as Heq. apply DecimalNat.Unsigned.to_uint_inj, Heq.
Qed.

Lemma string_app_inv_head (p a b : string) : p +:+ a = p +:+ b -> a = b.
Proof.
  induction p as [|c p IH]; [auto|].
  change (String c p +:+ a) with (String c (p +:+ a)).
  change (String c p +:+ b) with (String c (p +:+ b)).
  intros [= Heq]. apply IH, Heq.
Qed.

(** Two dot-free strings, each followed by nothing or by a dot, that
    give the same string are the same. *)
Lemma dot_free_prefix (a b S T : string) :
  Py.contains "." a = false -> Py.contains "." b = false ->
  (S = EmptyString \/ exists s, S = String "." s) ->
  (T = EmptyString \/ exists t, T = String "." t) ->
  a +:+ S = b +:+ T -> a = b.
Proof.
  revert b. induction a as [|c a IH]; intros b Ha Hb HS HT Heq.
  - destruct b as [|d b]; [reflexivity|].
    change (EmptyString +:+ S) with S in Heq.
    change (String d b +:+ T) with (String d (b +:+ T)) in Heq.
    rewrite contains_dot_cons in Hb. apply orb_false_iff in Hb.
    destruct Hb as [Hd _].
    destruct HS as [->|[s ->]]; [discriminate|].
    injection Heq as <- _. discriminate.
  - rewrite contains_dot_cons in Ha. apply orb_false_iff in Ha.
    destruct Ha as [Hc Ha].
    change (String c a +:+ S) with (String c (a +:+ S)) in Heq.
    destruct b as [|d b].
    + change (EmptyString +:+ T) with T in Heq.
      destruct HT as [->|[t ->]]; [discriminate|].
      injection Heq as -> _. discriminate.
    + change (String d b +:+ T) with (String d (b +:+ T)) in Heq.
      rewrite contains_dot_cons in Hb. apply orb_false_iff in Hb.
      destruct Hb as [_ Hb].
      injection Heq as -> Heq. f_equal. eapply IH; eassumption.
Qed.

(** No path is at or under two children of the same node. *)
Lemma siblings_apart (p q : string) (b b' : nat) :
  Fresh.at_or_under (p +:+ "." +:+ Py.str b) q ->
  Fresh.at_or_under (p +:+ "." +:+ Py.str b') q ->
  b = b'.
Proof.
  intros H1 H2. apply str_inj.
  assert (Hform : forall k, Fresh.at_or_under (p +:+ "." +:+ Py.str k) q ->
            exists S, q = p +:+ "." +:+ Py.str k +:+ S /\
                      (S = EmptyString \/ exists s, S = String "." s)).
  { intros k [->|[s ->]].
    - exists EmptyString. rewrite string_app_nil_r. auto.
    - exists (String "." s). rewrite !string_app_assoc. eauto. }
  destruct (Hform _ H1) as (S & -> & HS).
  destruct (Hform _ H2) as (T & Heq & HT).
  apply string_app_inv_head in Heq.
  change ("." +:+ Py.str b +:+ S) with (String "." (Py.str b +:+ S)) in Heq.
  change ("." +:+ Py.str b' +:+ T) with (String "." (Py.str b' +:+ T)) in Heq.
  injection Heq as Heq.
  eapply dot_free_prefix; [apply str_no_dot|apply str_no_dot| | |exact Heq];
    assumption.
Qed.

Lemma under_child (p q : string) (b : nat) :
  Fresh.at_or_under (p +:+ "." +:+ Py.str b) q ->
  exists s, q = p +:+ "." +:+ s.
Proof.
  intros [->|[s ->]]; [eauto|].
  exists (Py.str b +:+ "." +:+ s). rewrite !string_app_assoc. reflexivity.
Qed.

Lemma not_under_self (p s : string) : p <> p +:+ "." +:+ s.
Proof.
  induction p as [|c p IH]; [discriminate|].
  change (String c p +:+ "." +:+ s) with (String c (p +:+ "." +:+ s)).
  intros [= Heq]. apply IH, Heq.
Qed.

(** The next child finds its path, and everything below it, free. *)
Lemma next_child_clear (p : string) (b : nat) (idx : gset string) :
  Fresh.children_before p b idx ->
  Fresh.clear_of (p +:+ "." +:+ Py.str b) idx.
Proof.
  intros Hbefore q Hq Hat.
  destruct (under_child _ _ _ Hat) as [s Hs].
  destruct (Hbefore q s Hq Hs) as (b' & Hlt & Hat').
  pose proof (siblings_apart _ _ _ _ Hat Hat'). lia.
Qed.

Lemma register_clear {U : Type} (idx : gset string) (n : Anno.AnnoTreeNode U) :
  Fresh.clear_of (Anno.path n) idx ->
  Anno.register_anno_node idx n = Ok ({[Anno.path n]} ∪ idx).
Proof.
  intros Hclear. unfold Anno.register_anno_node.
  destruct (decide (Anno.path n ∈ idx)) as [Hin|_]; [|reflexivity].
  exfalso. apply (Hclear _ Hin). left. reflexivity.
Qed.

Lemma normalize_registers (fuel : nat) :
  (forall p n idx,
     (2 * Anno.size n <= fuel)%nat ->
     Fresh.clear_of p idx ->
     exists n' idx',
       normalize_anno_tree fuel p n idx = Ok (n', idx') /\
       forall q, q ∈ idx' -> q ∈ idx \/ Fresh.at_or_under p q) /\
  (forall p node0 nn acc b idx,
     (1 + 2 * Anno.stack_size nn <= fuel)%nat ->
     Fresh.children_before p b idx ->
     exists n' idx',
       normalize_loop fuel p node0 nn acc b idx = Ok (n', idx') /\
       forall q, q ∈ idx' -> q ∈ idx \/ exists s, q = p +:+ "." +:+ s).
Proof.
  induction fuel as [|fuel [IHtree IHloop]];
    [split; intros; [rewrite size_unfold in *|]; lia|].
  split.
  - intros p n idx Hfuel Hclear. cbn [normalize_anno_tree].
    rewrite register_clear by exact Hclear.
    cbn [mbind outcome_bind Py.bind Anno.path Anno.set_path].
    rewrite size_unfold in Hfuel.
    match goal with
    | |- context [normalize_loop fuel ?p0 ?n0 ?l0 ?acc0 ?b0 ?i0] =>
        destruct (IHloop p0 n0 l0 acc0 b0 i0) as (n' & idx' & Hrun & Hnew);
          [| |rewrite Hrun; exists n', idx'; split; [reflexivity|]]
    end.
    + lia.
    + intros q s Hq Hs. exfalso.
      apply elem_of_union in Hq. destruct Hq as [Hq|Hq].
      * apply elem_of_singleton in Hq. subst q.
        apply (not_under_self _ _ Hs).
      * apply (Hclear _ Hq). right. eauto.
    + intros q Hq. destruct (Hnew q Hq) as [Hold|Hunder].
      * apply elem_of_union in Hold. destruct Hold as [Hold|Hold].
        -- apply elem_of_singleton in Hold. right. left. exact Hold.
        -- left. exact Hold.
      * right. right. exact Hunder.
  - intros p node0 nn acc b idx Hfuel Hbefore. cbn [normalize_loop].
    destruct nn as [|first rest]; [eauto|].
    rewrite stack_size_cons in Hfuel.
    pose proof (size_unfold first) as Hsz.
    assert (Hnext : forall idx1 : gset string,
              (forall q, q ∈ idx1 ->
                 q ∈ idx \/ Fresh.at_or_under (p +:+ "." +:+ Py.str b) q) ->
              Fresh.children_before p (S b) idx1).
    { intros idx1 Hidx1 q s Hq Hs.
      destruct (Hidx1 q Hq) as [Hold|Hat].
      - destruct (Hbefore q s Hold Hs) as (b' & Hlt & Hat).
        exists b'. split; [lia|exact Hat].
      - exists b. split; [lia|exact Hat]. }
    assert (Hback : forall idx1 idx' : gset string,
              (forall q, q ∈ idx1 ->
                 q ∈ idx \/ Fresh.at_or_under (p +:+ "." +:+ Py.str b) q) ->
              (forall q, q ∈ idx' ->
                 q ∈ idx1 \/ exists s, q = p +:+ "." +:+ s) ->
              forall q, q ∈ idx' -> q ∈ idx \/ exists s, q = p +:+ "." +:+ s).
    { intros idx1 idx' Hidx1 Hidx' q Hq.
      destruct (Hidx' q Hq) as [Hmid|Hunder]; [|auto].
      destruct (Hidx1 q Hmid) as [Hold|Hat]; [auto|].
      right. eapply under_child, Hat. }
    destruct (is_utterance first) eqn:Hutt.
    + destruct (pop_utterances (first :: rest)) as [ks nn'] eqn:Hpop.
      destruct (Anno.is_leaf node0); [eauto|].
      cbn [pop_utterances] in Hpop. rewrite Hutt in Hpop.
      destruct (pop_utterances rest) as [ks0 nn0] eqn:Hpop0.
      injection Hpop as <- <-.
      apply pop_utterances_smaller in Hpop0.
      rewrite register_clear
        by (cbn [Anno.path composed_topic]; apply next_child_clear, Hbefore).
      cbn [mbind outcome_bind Py.bind Anno.path composed_topic].
      assert (Hidx1 : forall q,
                q ∈ {[p +:+ "." +:+ Py.str b]} ∪ idx ->
                q ∈ idx \/ Fresh.at_or_under (p +:+ "." +:+ Py.str b) q).
      { intros q Hq. apply elem_of_union in Hq. destruct Hq as [Hq|Hq].
        - apply elem_of_singleton in Hq. right. left. exact Hq.
        - left. exact Hq. }
      match goal with
      | |- context [normalize_loop fuel ?p0 ?n0 ?l0 ?acc0 ?b0 ?i0] =>
          destruct (IHloop p0 n0 l0 acc0 b0 i0) as (n' & idx' & Hrun & Hnew);
            [| |rewrite Hrun; exists n', idx'; split; [reflexivity|]]
      end.
      * lia.
      * apply Hnext. exact Hidx1.
      * eapply Hback; [exact Hidx1|exact Hnew].
    + destruct (IHtree (p +:+ "." +:+ Py.str b) first idx)
        as (child & idx1 & Hchild & Hidx1);
        [lia|apply next_child_clear, Hbefore|].
      rewrite Hchild. cbn [mbind outcome_bind Py.bind].
      match goal with
      | |- context [normalize_loop fuel ?p0 ?n0 ?l0 ?acc0 ?b0 ?i0] =>
          destruct (IHloop p0 n0 l0 acc0 b0 i0) as (n' & idx' & Hrun & Hnew);
            [| |rewrite Hrun; exists n', idx'; split; [reflexivity|]]
      end.
      * lia.
      * apply Hnext. exact Hidx1.
      * eapply Hback; [exact Hidx1|exact Hnew].
Qed.


End FreshFacts.

Section LoadErrors.
Import ICSI.

Lemma attach_keys_errors index leaf_path (ks : list string) :
  forall acc e,
  attach_keys index leaf_path acc ks = Raise e ->
  e = ValueError \/ exists k, e = KeyError k.
Proof.
  induction ks as [|key ks IH]; intros [r st] e Hrun; [discriminate|].
  cbn [attach_keys] in Hrun.
  destruct (attach_key index leaf_path (r, st) key) as [acc'|e'] eqn:Hkey.
  - cbn [mbind outcome_bind Py.bind] in Hrun. apply (IH _ _ Hrun).
  - cbn [mbind outcome_bind Py.bind] in Hrun. injection Hrun as <-.
    unfold attach_key in Hkey.
    destruct (Py.split ":" key) as [|speaker [|utt_key [|x l]]];
      try (injection Hkey as <-; auto).
    destruct (index !! speaker) as [utts|]; [|injection Hkey as <-; eauto].
    destruct (utts !! utt_key); discriminate.
Qed.

Lemma attach_leaves_errors index (anno_leaves : list node) :
  forall st e,
  attach_leaves index st anno_leaves = Raise e ->
  e = ValueError \/ exists k, e = KeyError k.
Proof.
  induction anno_leaves as [|leaf rest IH]; intros st e Hrun; [discriminate|].
  cbn [attach_leaves] in Hrun. unfold attach_leaf in Hrun.
  destruct (attach_keys index (Anno.path leaf) _ (Anno.keys leaf))
    as [[r st1]|e1] eqn:Hkeys.
  - cbn [mbind outcome_bind Py.bind] in Hrun.
    destruct (attach_leaves index st1 rest) as [[rest' st2]|e2] eqn:Hrest.
    + discriminate.
    + cbn [mbind outcome_bind Py.bind] in Hrun. injection Hrun as <-.
      apply (IH _ _ Hrest).
  - cbn [mbind outcome_bind Py.bind] in Hrun. injection Hrun as <-.
    apply (attach_keys_errors _ _ _ _ _ Hkeys).
Qed.

Lemma delete_empty_leaves_errors (anno_leaves : list node) :
  forall st e,
  delete_empty_leaves st anno_leaves = Raise e -> exists k, e = KeyError k.
Proof.
  induction anno_leaves as [|leaf rest IH]; intros st e Hrun; [discriminate|].
  cbn [delete_empty_leaves] in Hrun.
  destruct (Anno.keys leaf); [|apply (IH _ _ Hrun)].
  destruct (delete_anno_leaf st (Anno.path leaf)) as [st1|e1] eqn:Hdel.
  - cbn [mbind outcome_bind Py.bind] in Hrun. apply (IH _ _ Hrun).
  - cbn [mbind outcome_bind Py.bind] in Hrun. injection Hrun as <-.
    unfold delete_anno_leaf in Hdel.
    destruct (decide _); [|injection Hdel as <-; eauto].
    destruct (decide _); [discriminate|injection Hdel as <-; eauto].
Qed.

(** X19. Loading the annotation tree of a meeting ends well or with a
    [KeyError] or a [ValueError]: a key without its colon, a speaker the
    meeting does not have, a path the index does not hold. Nothing else
    is raised, and in particular normalization is never the step that
    fails. *)
Theorem load_anno_tree_errors (index : meeting_index) (built : node) (e : exn) :
  load_anno_tree index built = Raise e ->
  e = ValueError \/ exists k, e = KeyError k.
Proof.
  unfold load_anno_tree. intros Hrun.
  destruct (proj1 (normalize_registers (normalize_fuel built)) "*" built ∅)
    as (n1 & idx1 & Hnorm & _).
  { unfold normalize_fuel. lia. }
  { intros q Hq. apply elem_of_empty in Hq. contradiction. }
  rewrite Hnorm in Hrun. cbn [mbind outcome_bind Py.bind] in Hrun.
  unfold attach_meeting_notes_tree, attach_meeting_notes in Hrun.
  destruct (attach_leaves index _ (Anno.discover_anno_leaves n1))
    as [[leaves' st]|e1] eqn:Hattach.
  - cbn [mbind outcome_bind Py.bind] in Hrun.
    unfold finalize_anno_tree in Hrun.
    right. apply (delete_empty_leaves_errors _ _ _ Hrun).
  - cbn [mbind outcome_bind Py.bind] in Hrun. injection Hrun as <-.
    apply (attach_leaves_errors _ _ _ _ Hattach).
Qed.

End LoadErrors.

Lemma load_anno_tree_errors_witness :
  ICSI.load_anno_tree Samples.icsi_index
    (Anno.mkNode "root" EmptyString [] [Samples.placeholder "k4"]
                 EmptyString false [] false)
  = Raise ValueError /\
  (ValueError = ValueError \/ exists k, ValueError = KeyError k).
Proof.
  assert (Hrun : ICSI.load_anno_tree Samples.icsi_index
                   (Anno.mkNode "root" EmptyString [] [Samples.placeholder "k4"]
                                EmptyString false [] false)
                 = Raise ValueError) by (vm_compute; reflexivity).
  split; [exact Hrun|].
  exact (load_anno_tree_errors _ _ _ Hrun).
Defined.

(** ** The keys of a loaded ICSI meeting *)

Section LoadedKeys.
Import ICSI.

Lemma leaf_keys_unfold (n : node) :
  Keys.leaf_keys n
  = (if Anno.is_leaf n then Anno.keys n else [])
    ++ flat_map Keys.leaf_keys (Anno.nn n).
Proof.
  unfold Keys.leaf_keys at 1. rewrite preorder_leaves_unfold, flat_map_app.
  rewrite leaf_keys_children. destruct (Anno.is_leaf n); cbn [flat_map];
    rewrite ?app_nil_r; reflexivity.
Qed.

(** *** Resolution keeps the keys that resolve, in order *)

Lemma attach_keys_filtered index leaf_path (ks : list string) :
  forall r st r' st',
  attach_keys index leaf_path (r, st) ks = Ok (r', st') ->
  filtered_keys r' = filtered_keys r ++ List.filter (resolves index) ks.
Proof.
  induction ks as [|key ks IH]; intros r st r' st' Hrun.
  - injection Hrun as <- <-. rewrite app_nil_r. reflexivity.
  - cbn [attach_keys] in Hrun.
    destruct (attach_key index leaf_path (r, st) key) as [[r1 st1]|e] eqn:Hkey;
      [|discriminate].
    cbn [mbind outcome_bind Py.bind] in Hrun.
    apply IH in Hrun. rewrite Hrun. clear Hrun.
    unfold attach_key in Hkey. cbn [List.filter]. unfold resolves at 2.
    destruct (Py.split ":" key) as [|speaker [|utt_key [|x l]]];
      try discriminate.
    destruct (index !! speaker) as [utts|]; [|discriminate].
    destruct (utts !! utt_key) as [utt|] eqn:Hutt.
    + injection Hkey as <- <-. cbn [filtered_keys].
      rewrite bool_decide_eq_true_2 by eauto.
      rewrite <- app_assoc. reflexivity.
    + injection Hkey as <- <-.
      rewrite bool_decide_eq_false_2; [reflexivity|].
      intros [u Hu]. discriminate.
Qed.

Lemma attach_leaves_keys index (anno_leaves : list node) :
  forall st leaves' st',
  attach_leaves index st anno_leaves = Ok (leaves', st') ->
  map Anno.keys leaves'
  = map (fun leaf => List.filter (resolves index) (Anno.keys leaf)) anno_leaves.
Proof.
  induction anno_leaves as [|leaf rest IH]; intros st leaves' st' Hrun.
  - injection Hrun as <- <-. reflexivity.
  - cbn [attach_leaves] in Hrun. unfold attach_leaf in Hrun.
    destruct (attach_keys index (Anno.path leaf) _ (Anno.keys leaf))
      as [[r st1]|e] eqn:Hkeys; [|discriminate].
    cbn [mbind outcome_bind Py.bind] in Hrun.
    destruct (attach_leaves index st1 rest) as [[rest' st2]|e] eqn:Hrest;
      [|discriminate].
    cbn [mbind outcome_bind Py.bind] in Hrun. injection Hrun as <- <-.
    apply attach_keys_filtered in Hkeys. cbn [filtered_keys app] in Hkeys.
    cbn [map Anno.keys Anno.set_convo Anno.set_keys].
    rewrite Hkeys, (IH _ _ _ Hrest). reflexivity.
Qed.

Lemma filter_flat_map {A B} (f : B -> bool) (g : A -> list B) (l : list A) :
  List.filter f (flat_map g l) = flat_map (fun x => List.filter f (g x)) l.
Proof.
  induction l as [|x l IH]; [reflexivity|].
  cbn [flat_map]. rewrite List.filter_app, IH. reflexivity.
Qed.

Lemma flat_map_keys (l : list node) :
  flat_map Anno.keys l = concat (map Anno.keys l).
Proof. apply flat_map_concat_map. Qed.

(** *** Writing back *)

Lemma write_children_keys (l : list node) :
  Forall (fun c => forall new,
            (length (Anno.preorder_leaves c) <= length new)%nat ->
            map Anno.keys (Anno.preorder_leaves (fst (write_back c new)))
            = map Anno.keys (take (length (Anno.preorder_leaves c)) new) /\
            snd (write_back c new)
            = drop (length (Anno.preorder_leaves c)) new) l ->
  forall new,
  (length (flat_map Anno.preorder_leaves l) <= length new)%nat ->
  map Anno.keys (flat_map Anno.preorder_leaves (fst (write_children l new)))
  = map Anno.keys (take (length (flat_map Anno.preorder_leaves l)) new) /\
  snd (write_children l new)
  = drop (length (flat_map Anno.preorder_leaves l)) new.
Proof.
  induction 1 as [|c l Hc _ IH]; intros new Hlen.
  - cbn. rewrite take_0, drop_0. auto.
  - cbn [flat_map] in Hlen |- *. rewrite length_app in Hlen |- *.
    cbn [write_children].
    destruct (Hc new ltac:(lia)) as [Hk Hrest].
    destruct (write_back c new) as [c' new1]. cbn [fst snd] in Hk, Hrest.
    subst new1.
    destruct (IH (drop (length (Anno.preorder_leaves c)) new)) as [Hk2 Hrest2].
    { rewrite length_drop. lia. }
    destruct (write_children l _) as [l' new2]. cbn [fst snd] in *.
    cbn [flat_map]. rewrite map_app, Hk, Hk2, <- map_app, take_take_drop.
    split; [reflexivity|]. rewrite Hrest2, drop_drop. reflexivity.
Qed.

Lemma write_back_keys (n : node) :
  forall new,
  (length (Anno.preorder_leaves n) <= length new)%nat ->
  map Anno.keys (Anno.preorder_leaves (fst (write_back n new)))
  = map Anno.keys (take (length (Anno.preorder_leaves n)) new) /\
  snd (write_back n new) = drop (length (Anno.preorder_leaves n)) new.
Proof.
  induction n as [n IH] using node_ind'. intros new Hlen.
  rewrite write_back_unfold.
  pose proof (write_children_keys (Anno.nn n) IH) as Hch.
  assert (Hcount : length (Anno.preorder_leaves n)
                   = ((if Anno.is_leaf n then 1 else 0)
                      + length (flat_map Anno.preorder_leaves (Anno.nn n)))%nat).
  { rewrite preorder_leaves_unfold, length_app.
    destruct (Anno.is_leaf n); reflexivity. }
  rewrite Hcount in Hlen |- *. clear Hcount.
  destruct (Anno.is_leaf n) eqn:Hlf.
  - destruct new as [|x new]; [cbn in Hlen; lia|].
    cbn [length] in Hlen.
    destruct (Hch new ltac:(lia)) as [Hk Hrest].
    destruct (write_children (Anno.nn n) new) as [l' r]. cbn [fst snd] in *.
    rewrite preorder_leaves_unfold.
    cbn [Anno.is_leaf Anno.set_nn Anno.set_convo Anno.set_keys Anno.nn].
    rewrite Hlf. cbn [app map Anno.keys Anno.set_nn Anno.set_convo
                      Anno.set_keys Nat.add take drop].
    rewrite Hk. auto.
  - cbn [Nat.add] in Hlen |- *.
    destruct (Hch new ltac:(lia)) as [Hk Hrest].
    destruct (write_children (Anno.nn n) new) as [l' r]. cbn [fst snd] in *.
    rewrite preorder_leaves_unfold.
    cbn [Anno.is_leaf Anno.set_nn Anno.nn]. rewrite Hlf. cbn [app].
    auto.
Qed.

Lemma write_children_childless (l : list node) :
  Forall (fun c => forall new,
            Forall (fun x => Anno.is_leaf x = true -> Anno.nn x = [])
                   (Anno.nodes c) ->
            Forall (fun x => Anno.is_leaf x = true -> Anno.nn x = [])
                   (Anno.nodes (fst (write_back c new)))) l ->
  forall new,
  Forall (fun x => Anno.is_leaf x = true -> Anno.nn x = [])
         (flat_map Anno.nodes l) ->
  Forall (fun x => Anno.is_leaf x = true -> Anno.nn x = [])
         (flat_map Anno.nodes (fst (write_children l new))).
Proof.
  induction 1 as [|c l Hc _ IH]; intros new Hall; [constructor|].
  cbn [flat_map] in Hall. apply Forall_app in Hall. destruct Hall as [H1 H2].
  cbn [write_children].
  specialize (Hc new H1). destruct (write_back c new) as [c' new1].
  specialize (IH new1 H2). destruct (write_children l new1) as [l' new2].
  cbn [fst flat_map] in *. apply Forall_app. auto.
Qed.

Lemma write_back_childless (n : node) :
  forall new,
  Forall (fun x => Anno.is_leaf x = true -> Anno.nn x = []) (Anno.nodes n) ->
  Forall (fun x => Anno.is_leaf x = true -> Anno.nn x = [])
         (Anno.nodes (fst (write_back n new))).
Proof.
  induction n as [n IH] using node_ind'. intros new Hall.
  rewrite nodes_unfold in Hall. apply Forall_cons in Hall.
  destruct Hall as [Hn Hbelow].
  rewrite write_back_unfold.
  pose proof (write_children_childless (Anno.nn n) IH) as Hch.
  assert (Hempty : forall new0, Anno.nn n = [] ->
            fst (write_children (Anno.nn n) new0) = []).
  { intros new0 ->. reflexivity. }
  destruct (Anno.is_leaf n) eqn:Hlf.
  - destruct new as [|x new].
    + specialize (Hch [] Hbelow). specialize (Hempty []).
      destruct (write_children (Anno.nn n) []) as [l' r]. cbn [fst] in *.
      rewrite nodes_unfold. cbn [Anno.nn Anno.set_nn].
      constructor; [|exact Hch].
      cbn [Anno.is_leaf Anno.nn Anno.set_nn]. intros _. apply Hempty, Hn. reflexivity.
    + specialize (Hch new Hbelow). specialize (Hempty new).
      destruct (write_children (Anno.nn n) new) as [l' r]. cbn [fst] in *.
      rewrite nodes_unfold. cbn [Anno.nn Anno.set_nn].
      constructor; [|exact Hch].
      cbn [Anno.is_leaf Anno.nn Anno.set_nn]. intros _. apply Hempty, Hn. reflexivity.
  - specialize (Hch new Hbelow).
    destruct (write_children (Anno.nn n) new) as [l' r]. cbn [fst] in *.
    rewrite nodes_unfold. cbn [Anno.nn Anno.set_nn].
    constructor; [|exact Hch].
    cbn [Anno.is_leaf Anno.set_nn]. congruence.
Qed.

(** *** Deleting the leaves without keys *)

Lemma prune_all_nodes (pp q : string) (n : node) :
  forall x', x' ∈ Anno.nodes (prune pp q n) ->
  exists x, x ∈ Anno.nodes n /\ x' = prune pp q x.
Proof.
  induction n as [n IH] using node_ind'. intros x' Hx'.
  apply nodes_elem in Hx'. destruct Hx' as [->|Hx'].
  - exists n. split; [apply nodes_elem; left; reflexivity|reflexivity].
  - apply inner_elem in Hx'. destruct Hx' as (c' & Hc' & Hx').
    apply prune_children in Hc'. destruct Hc' as (c & Hc & -> & _).
    rewrite Forall_forall in IH.
    destruct (IH c Hc x' Hx') as (x & Hx & ->).
    exists x. split; [|reflexivity].
    apply nodes_elem. right. apply inner_elem. exists c. auto.
Qed.

(** Pruning at a path under which no leaf holds a key leaves the keys of
    the leaves as they are. *)
Lemma prune_leaf_keys (pp q : string) (n : node) :
  (forall x, x ∈ Anno.nodes n -> Anno.path x = q -> Keys.leaf_keys x = []) ->
  Keys.leaf_keys (prune pp q n) = Keys.leaf_keys n.
Proof.
  induction n as [n IH] using node_ind'. intros Hq.
  rewrite prune_unfold, (leaf_keys_unfold n), leaf_keys_unfold.
  cbn [Anno.is_leaf Anno.keys Anno.nn Anno.set_nn]. f_equal.
  assert (Hsub : forall c, c ∈ Anno.nn n ->
            forall x, x ∈ Anno.nodes c -> Anno.path x = q ->
                      Keys.leaf_keys x = []).
  { intros c Hc x Hx. apply Hq. apply nodes_elem. right.
    apply inner_elem. exists c. auto. }
  assert (Hmap : flat_map Keys.leaf_keys (map (prune pp q) (Anno.nn n))
                 = flat_map Keys.leaf_keys (Anno.nn n)).
  { clear Hq. induction IH as [|c l Hc _ IHl]; [reflexivity|].
    cbn [map flat_map]. rewrite Hc, IHl; [reflexivity| |].
    - intros c0 Hc0. apply Hsub. right. exact Hc0.
    - apply Hsub. left. }
  destruct (String.eqb (Anno.path n) pp); [|exact Hmap].
  rewrite <- Hmap. clear Hmap.
  assert (Hgone : forall c, c ∈ Anno.nn n -> Anno.path c = q ->
                            Keys.leaf_keys (prune pp q c) = []).
  { intros c Hc Hp. rewrite Forall_forall in IH.
    rewrite (IH c Hc (Hsub c Hc)).
    apply (Hsub c Hc); [apply nodes_elem; left; reflexivity|exact Hp]. }
  clear IH Hq Hsub.
  induction (Anno.nn n) as [|c l IHl]; [reflexivity|].
  cbn [map List.filter flat_map].
  destruct (prune_payload pp q c) as (Hp & _).
  rewrite Hp.
  destruct (String.eqb_spec (Anno.path c) q) as [Heq|Hne]; cbn [negb].
  - rewrite (Hgone c ltac:(left) Heq). cbn [app].
    apply IHl. intros c0 Hc0. apply Hgone. right. exact Hc0.
  - cbn [flat_map]. f_equal.
    apply IHl. intros c0 Hc0. apply Hgone. right. exact Hc0.
Qed.

Lemma delete_empty_leaves_keys (E : string -> Prop) (anno_leaves : list node) :
  forall st st',
  delete_empty_leaves st anno_leaves = Ok st' ->
  (forall leaf, leaf ∈ anno_leaves -> Anno.keys leaf = [] ->
                E (Anno.path leaf)) ->
  Forall (fun x => (Anno.is_leaf x = true -> Anno.nn x = []) /\
                   (E (Anno.path x) ->
                    Anno.keys x = [] /\ Anno.is_leaf x = true))
         (Anno.nodes (ts_root st)) ->
  Keys.leaf_keys (ts_root st') = Keys.leaf_keys (ts_root st).
Proof.
  induction anno_leaves as [|leaf rest IH]; intros st st' Hrun HE Hinv.
  - injection Hrun as <-. reflexivity.
  - cbn [delete_empty_leaves] in Hrun.
    assert (HErest : forall l, l ∈ rest -> Anno.keys l = [] ->
                               E (Anno.path l)).
    { intros l Hl. apply HE. right. exact Hl. }
    destruct (Anno.keys leaf) eqn:Hkeys; [|apply (IH _ _ Hrun HErest Hinv)].
    destruct (delete_anno_leaf st (Anno.path leaf)) as [st1|e] eqn:Hdel;
      [|discriminate].
    cbn [mbind outcome_bind Py.bind] in Hrun.
    unfold delete_anno_leaf in Hdel.
    destruct (decide _); [|discriminate].
    destruct (decide _); [|discriminate].
    injection Hdel as <-.
    rewrite (IH _ _ Hrun HErest); cbn [ts_root].
    + apply prune_leaf_keys. intros x Hx Hp.
      rewrite Forall_forall in Hinv. destruct (Hinv x Hx) as [Hchildless HEx].
      destruct HEx as [Hk Hlf].
      { rewrite Hp. apply HE; [left|exact Hkeys]. }
      rewrite leaf_keys_unfold, Hlf, Hk, (Hchildless Hlf). reflexivity.
    + apply Forall_forall. intros x' Hx'.
      apply prune_all_nodes in Hx'. destruct Hx' as (x & Hx & ->).
      rewrite Forall_forall in Hinv. destruct (Hinv x Hx) as [Hchildless HEx].
      destruct (prune_payload (get_parent_path (Anno.path leaf))
                  (Anno.path leaf) x) as (Hp & Hl & Hk & _).
      rewrite Hp, Hl, Hk. split; [|exact HEx].
      intros Hlf. rewrite prune_unfold. cbn [Anno.nn Anno.set_nn].
      rewrite (Hchildless Hlf). destruct (String.eqb _ _); reflexivity.
Qed.

Lemma same_path_same_node (l : list node) (x y : node) :
  NoDup (map Anno.path l) -> x ∈ l -> y ∈ l ->
  Anno.path x = Anno.path y -> x = y.
Proof.
  induction l as [|z l IH]; intros Hnd Hx Hy Hp.
  - apply elem_of_nil in Hx. contradiction.
  - cbn [map] in Hnd. apply NoDup_cons in Hnd. destruct Hnd as [Hz Hnd].
    apply elem_of_cons in Hx. apply elem_of_cons in Hy.
    destruct Hx as [->|Hx], Hy as [->|Hy]; [reflexivity| | |auto].
    + exfalso. apply Hz. rewrite Hp. apply list_elem_of_fmap_2. exact Hy.
    + exfalso. apply Hz. rewrite <- Hp. apply list_elem_of_fmap_2. exact Hx.
Qed.

Lemma loaded_leaf_keys (index : meeting_index) (built : node)
    (st : tree_state) :
  Forall (fun m => Anno.keys m = []) (Anno.nodes built) ->
  load_anno_tree index built = Ok st ->
  flat_map Anno.keys (Anno.discover_anno_leaves (ts_root st))
  = List.filter (resolves index) (Keys.utterance_keys built).
Proof.
  intros Hbuilt Hrun. unfold load_anno_tree in Hrun.
  destruct (normalize_anno_tree (normalize_fuel built) "*" built ∅)
    as [[n1 idx1]|e] eqn:Hnorm; [|discriminate].
  cbn [mbind outcome_bind Py.bind] in Hrun.
  pose proof (proj1 (normalize_key_order _) _ _ _ _ _ Hnorm Hbuilt) as Hkeys1.
  destruct (proj1 (normalize_shape _) _ _ _ _ _ Hnorm) as (_ & Hroot1 & Hbelow1).
  destruct (proj1 (normalize_invariants _) _ _ _ _ _ Hnorm)
    as (_ & _ & Hnd1 & _ & _).
  unfold attach_meeting_notes_tree, attach_meeting_notes in Hrun.
  destruct (attach_leaves index _ (Anno.discover_anno_leaves n1))
    as [[leaves' ast]|e] eqn:Hattach; [|discriminate].
  cbn [mbind outcome_bind Py.bind] in Hrun.
  rewrite discover_preorder in Hattach.
  pose proof (attach_leaves_keys _ _ _ _ _ Hattach) as Hkeys'.
  destruct (attach_leaves_shape _ _ _ _ _ Hattach) as [Hlen' _].
  set (root2 := fst (write_back n1 leaves')) in *.
  assert (Hkeys2 : Keys.leaf_keys root2
                   = List.filter (resolves index) (Keys.utterance_keys built)).
  { unfold Keys.leaf_keys, root2.
    destruct (write_back_keys n1 leaves' ltac:(lia)) as [Hk _].
    rewrite flat_map_keys, Hk, <- Hlen', firstn_all, Hkeys'.
    rewrite <- Hkeys1. unfold Keys.leaf_keys.
    rewrite filter_flat_map, flat_map_concat_map. reflexivity. }
  assert (Hchildless1 : Forall (fun x : node =>
                                  Anno.is_leaf x = true -> Anno.nn x = [])
                               (Anno.nodes n1)).
  { rewrite nodes_unfold. constructor; [apply Hroot1|].
    eapply Forall_impl; [exact Hbelow1|]. intros x [_ Hx]. apply Hx. }
  pose proof (write_back_childless n1 leaves' Hchildless1) as Hchildless2.
  fold root2 in Hchildless2.
  assert (Hnd2 : NoDup (map Anno.path (Anno.nodes root2))).
  { unfold root2. rewrite write_back_paths. exact Hnd1. }
  unfold finalize_anno_tree in Hrun.
  rewrite discover_preorder in Hrun |- *.
  fold (Keys.leaf_keys (ts_root st)).
  rewrite <- Hkeys2.
  apply (delete_empty_leaves_keys
           (fun p => exists leaf, leaf ∈ Anno.preorder_leaves root2 /\
                                  Anno.keys leaf = [] /\ Anno.path leaf = p))
    in Hrun; [exact Hrun| |].
  - intros leaf Hleaf Hk. exists leaf. auto.
  - cbn [ts_root]. apply Forall_forall. intros x Hx.
    split; [rewrite Forall_forall in Hchildless2; apply Hchildless2, Hx|].
    intros (leaf & Hleaf & Hk & Hp).
    rewrite preorder_leaves_nodes in Hleaf.
    apply list_elem_of_In, filter_In in Hleaf. destruct Hleaf as [Hin Hlf].
    apply list_elem_of_In in Hin.
    assert (x = leaf) by (eapply same_path_same_node; eauto).
    subst x. auto.
Qed.

(** X20. Loading the annotation tree of an ICSI meeting loses and
    reorders nothing that resolves: when [load_anno_tree] returns for a
    built tree without keys of its own, the keys of the leaves of the
    final tree, read in discovery order, are the keys of the utterance
    nodes of the topic file that resolve in the index of the meeting, in
    document order. *)
Theorem load_anno_tree_keys (index : meeting_index) (built : node)
    (st : tree_state) :
  Forall (fun m => Anno.keys m = []) (Anno.nodes built) ->
  load_anno_tree index built = Ok st ->
  flat_map Anno.keys (Anno.discover_anno_leaves (ts_root st))
  = List.filter (resolves index) (Keys.utterance_keys built).
Proof. apply loaded_leaf_keys. Qed.

End LoadedKeys.

Lemma load_anno_tree_keys_witness :
  exists st,
    ICSI.load_anno_tree Samples.icsi_index Samples.icsi_built = Ok st /\
    flat_map Anno.keys (Anno.discover_anno_leaves (ICSI.ts_root st))
    = ["A:k1"; "A:k2"; "A:k3"].
Proof.
  destruct (ICSI.load_anno_tree Samples.icsi_index Samples.icsi_built)
    as [st|e] eqn:Hrun.
  - exists st. split; [reflexivity|].
    assert (Hkeys : Forall (fun m : ICSI.node => Anno.keys m = [])
                           (Anno.nodes Samples.icsi_built))
      by (cbn; repeat constructor).
    rewrite (load_anno_tree_keys _ _ _ Hkeys Hrun).
    vm_compute. reflexivity.
  - vm_compute in Hrun. discriminate.
Defined.

Section LoadedConvo.
Import ICSI.

Lemma attach_keys_convo index leaf_path (ks : list string) :
  forall r st r' st',
  attach_keys index leaf_path (r, st) ks = Ok (r', st') ->
  r_convo r' = r_convo r ++ omap (Keys.utterance_of index) ks.
Proof.
  induction ks as [|key ks IH]; intros r st r' st' Hrun.
  - injection Hrun as <- <-. cbn. rewrite app_nil_r. reflexivity.
  - cbn [attach_keys] in Hrun.
    destruct (attach_key index leaf_path (r, st) key) as [[r1 st1]|e] eqn:Hkey;
      [|discriminate].
    cbn [mbind outcome_bind Py.bind] in Hrun.
    apply IH in Hrun. rewrite Hrun. clear Hrun.
    unfold attach_key in Hkey. cbn [omap list_omap].
    unfold Keys.utterance_of at 2.
    destruct (Py.split ":" key) as [|speaker [|utt_key [|x l]]];
      try discriminate.
    destruct (index !! speaker) as [utts|]; [|discriminate].
    cbn [mbind option_bind].
    destruct (utts !! utt_key) as [utt|] eqn:Hutt.
    + injection Hkey as <- <-. cbn [r_convo].
      rewrite <- app_assoc. reflexivity.
    + injection Hkey as <- <-. reflexivity.
Qed.

Lemma omap_resolving index (ks : list string) :
  omap (Keys.utterance_of index) (List.filter (resolves index) ks)
  = omap (Keys.utterance_of index) ks.
Proof.
  induction ks as [|k ks IH]; [reflexivity|].
  cbn [List.filter]. destruct (resolves index k) eqn:Hk.
  - cbn [omap list_omap]. rewrite IH. reflexivity.
  - cbn [omap list_omap]. rewrite (unresolved_no_utterance _ _ Hk). exact IH.
Qed.

Lemma attach_leaves_convo index (anno_leaves : list node) :
  forall st leaves' st',
  attach_leaves index st anno_leaves = Ok (leaves', st') ->
  Forall (fun x => Anno.convo x
                   = omap (Keys.utterance_of index) (Anno.keys x)) leaves'.
Proof.
  induction anno_leaves as [|leaf rest IH]; intros st leaves' st' Hrun.
  - injection Hrun as <- <-. constructor.
  - cbn [attach_leaves] in Hrun. unfold attach_leaf in Hrun.
    destruct (attach_keys index (Anno.path leaf) _ (Anno.keys leaf))
      as [[r st1]|e] eqn:Hkeys; [|discriminate].
    cbn [mbind outcome_bind Py.bind] in Hrun.
    destruct (attach_leaves index st1 rest) as [[rest' st2]|e] eqn:Hrest;
      [|discriminate].
    cbn [mbind outcome_bind Py.bind] in Hrun. injection Hrun as <- <-.
    constructor; [|apply (IH _ _ _ Hrest)].
    cbn [Anno.convo Anno.keys Anno.set_convo Anno.set_keys].
    rewrite (attach_keys_convo _ _ _ _ _ _ _ Hkeys).
    rewrite (attach_keys_filtered _ _ _ _ _ _ _ Hkeys).
    cbn [r_convo filtered_keys app]. symmetry. apply omap_resolving.
Qed.

(** Writing back hands a leaf the keys and the utterances of one of the
    leaves written. *)
Lemma write_children_payload (Q : list string -> list entry -> Prop)
    (l : list node) :
  Forall (fun c => forall new,
            Forall (fun x => Q (Anno.keys x) (Anno.convo x)) new ->
            (length (Anno.preorder_leaves c) <= length new)%nat ->
            Forall (fun x => Anno.is_leaf x = true ->
                             Q (Anno.keys x) (Anno.convo x))
                   (Anno.nodes (fst (write_back c new)))) l ->
  forall new,
  Forall (fun x => Q (Anno.keys x) (Anno.convo x)) new ->
  (length (flat_map Anno.preorder_leaves l) <= length new)%nat ->
  Forall (fun x => Anno.is_leaf x = true -> Q (Anno.keys x) (Anno.convo x))
         (flat_map Anno.nodes (fst (write_children l new))).
Proof.
  induction 1 as [|c l Hc _ IH]; intros new Hnew Hlen; [constructor|].
  cbn [flat_map] in Hlen. rewrite length_app in Hlen.
  cbn [write_children].
  specialize (Hc new Hnew ltac:(lia)).
  destruct (write_back_keys c new ltac:(lia)) as [_ Hrest].
  destruct (write_back c new) as [c' new1]. cbn [fst snd] in Hc, Hrest.
  subst new1.
  specialize (IH (drop (length (Anno.preorder_leaves c)) new)).
  destruct (write_children l _) as [l' new2]. cbn [fst flat_map] in *.
  apply Forall_app. split; [exact Hc|].
  apply IH; [apply Forall_drop, Hnew|rewrite length_drop; lia].
Qed.

Lemma write_back_payload (Q : list string -> list entry -> Prop) (n : node) :
  forall new,
  Forall (fun x => Q (Anno.keys x) (Anno.convo x)) new ->
  (length (Anno.preorder_leaves n) <= length new)%nat ->
  Forall (fun x => Anno.is_leaf x = true -> Q (Anno.keys x) (Anno.convo x))
         (Anno.nodes (fst (write_back n new))).
Proof.
  induction n as [n IH] using node_ind'. intros new Hnew Hlen.
  rewrite write_back_unfold.
  pose proof (write_children_payload Q (Anno.nn n) IH) as Hch.
  assert (Hcount : length (Anno.preorder_leaves n)
                   = ((if Anno.is_leaf n then 1 else 0)
                      + length (flat_map Anno.preorder_leaves (Anno.nn n)))%nat).
  { rewrite preorder_leaves_unfold, length_app.
    destruct (Anno.is_leaf n); reflexivity. }
  rewrite Hcount in Hlen. clear Hcount.
  destruct (Anno.is_leaf n) eqn:Hlf.
  - destruct new as [|x new]; [cbn in Hlen; lia|].
    cbn [length] in Hlen.
    apply Forall_cons in Hnew. destruct Hnew as [Hx Hnew].
    specialize (Hch new Hnew ltac:(lia)).
    destruct (write_children (Anno.nn n) new) as [l' r]. cbn [fst] in *.
    rewrite nodes_unfold. cbn [Anno.nn Anno.set_nn].
    constructor; [|exact Hch]. intros _. exact Hx.
  - specialize (Hch new Hnew ltac:(lia)).
    destruct (write_children (Anno.nn n) new) as [l' r]. cbn [fst] in *.
    rewrite nodes_unfold. cbn [Anno.nn Anno.set_nn].
    constructor; [|exact Hch].
    cbn [Anno.is_leaf Anno.set_nn]. congruence.
Qed.

(** Deleting leaves changes the payload of no node that stays. *)
Lemma delete_empty_leaves_payload (P : node -> Prop) (anno_leaves : list node) :
  (forall x x', same_payload x' x -> P x -> P x') ->
  forall st st',
  delete_empty_leaves st anno_leaves = Ok st' ->
  Forall P (Anno.nodes (ts_root st)) ->
  Forall P (Anno.nodes (ts_root st')).
Proof.
  intros HP.
  induction anno_leaves as [|leaf rest IH]; intros st st' Hrun Hall.
  - injection Hrun as <-. exact Hall.
  - cbn [delete_empty_leaves] in Hrun.
    destruct (Anno.keys leaf); [|apply (IH _ _ Hrun Hall)].
    destruct (delete_anno_leaf st (Anno.path leaf)) as [st1|e] eqn:Hdel;
      [|discriminate].
    cbn [mbind outcome_bind Py.bind] in Hrun.
    unfold delete_anno_leaf in Hdel.
    destruct (decide _); [|discriminate].
    destruct (decide _); [|discriminate].
    injection Hdel as <-.
    apply (IH _ _ Hrun). cbn [ts_root].
    apply Forall_forall. intros x' Hx'.
    apply prune_all_nodes in Hx'. destruct Hx' as (x & Hx & ->).
    rewrite Forall_forall in Hall.
    apply (HP x); [apply prune_payload|apply Hall, Hx].
Qed.

Lemma loaded_leaf_convo (index : meeting_index) (built : node)
    (st : tree_state) :
  load_anno_tree index built = Ok st ->
  Forall (fun leaf => Anno.convo leaf
                      = omap (Keys.utterance_of index) (Anno.keys leaf) /\
                      length (Anno.convo leaf) = length (Anno.keys leaf))
         (Anno.discover_anno_leaves (ts_root st)).
Proof.
  intros Hrun. unfold load_anno_tree in Hrun.
  destruct (normalize_anno_tree (normalize_fuel built) "*" built ∅)
    as [[n1 idx1]|e] eqn:Hnorm; [|discriminate].
  cbn [mbind outcome_bind Py.bind] in Hrun.
  unfold attach_meeting_notes_tree, attach_meeting_notes in Hrun.
  destruct (attach_leaves index _ (Anno.discover_anno_leaves n1))
    as [[leaves' ast]|e] eqn:Hattach; [|discriminate].
  cbn [mbind outcome_bind Py.bind] in Hrun.
  rewrite discover_preorder in Hattach.
  pose proof (attach_leaves_convo _ _ _ _ _ Hattach) as Hconvo'.
  destruct (attach_leaves_shape _ _ _ _ _ Hattach) as [Hlen' Hmatch'].
  assert (Hnew : Forall (fun x : node =>
                   Anno.convo x = omap (Keys.utterance_of index) (Anno.keys x)
                   /\ length (Anno.convo x) = length (Anno.keys x)) leaves').
  { apply Forall_forall. intros x Hx.
    rewrite Forall_forall in Hconvo', Hmatch'.
    split; [apply Hconvo', Hx|]. symmetry. apply Hmatch', Hx. }
  pose proof (write_back_payload
                (fun ks convo => convo = omap (Keys.utterance_of index) ks /\
                                 length convo = length ks)
                n1 leaves' Hnew ltac:(lia)) as Hroot2.
  unfold finalize_anno_tree in Hrun.
  apply (delete_empty_leaves_payload
           (fun x => Anno.is_leaf x = true ->
                     Anno.convo x
                     = omap (Keys.utterance_of index) (Anno.keys x) /\
                     length (Anno.convo x) = length (Anno.keys x)))
    in Hrun; [| |exact Hroot2].
  - rewrite discover_preorder, preorder_leaves_nodes.
    apply Forall_forall. intros leaf Hleaf.
    apply list_elem_of_In, filter_In in Hleaf. destruct Hleaf as [Hin Hlf].
    rewrite Forall_forall in Hrun. apply Hrun; [apply list_elem_of_In, Hin|].
    exact Hlf.
  - intros x x' (_ & Hl & Hk & Hc) Hx. rewrite Hl, Hk, Hc. exact Hx.
Qed.

(** X21. In the tree a loaded ICSI meeting ends with, the utterances of
    every leaf are the utterances of the meeting that its keys name, one
    for each key and in the order of the keys. *)
Theorem load_anno_tree_convo (index : meeting_index) (built : node)
    (st : tree_state) :
  load_anno_tree index built = Ok st ->
  Forall (fun leaf => Anno.convo leaf
                      = omap (Keys.utterance_of index) (Anno.keys leaf) /\
                      length (Anno.convo leaf) = length (Anno.keys leaf))
         (Anno.discover_anno_leaves (ts_root st)).
Proof. apply loaded_leaf_convo. Qed.

Lemma omap_flat_map {A B C} (f : B -> option C) (g : A -> list B) (l : list A) :
  omap f (flat_map g l) = flat_map (fun x => omap f (g x)) l.
Proof.
  induction l as [|x l IH]; [reflexivity|].
  cbn [flat_map]. rewrite omap_app, IH. reflexivity.
Qed.

(** X22. The notes of a loaded ICSI meeting are the utterances that the
    topic file names, in document order: the utterance nodes of the built
    tree whose key resolves in the index of the meeting, each with its
    composite line set, and nothing else. *)
Theorem icsi_notes_in_document_order (M : Z) (index : meeting_index)
    (built : node) (st : tree_state) :
  Forall (fun m => Anno.keys m = []) (Anno.nodes built) ->
  load_anno_tree index built = Ok st ->
  Notes.m_notes (Notes.compose_meeting_notes M (ts_root st))
  = map (fun u => Notes.utt_set_composite (Notes.compose_utterance u) u)
        (omap (Keys.utterance_of index) (Keys.utterance_keys built)).
Proof.
  intros Hbuilt Hrun.
  destruct (meeting_vectors M (ts_root st)) as (Hnotes & _).
  rewrite Hnotes. f_equal. unfold Notes.flattened.
  pose proof (loaded_leaf_keys _ _ _ Hbuilt Hrun) as Hkeys.
  pose proof (loaded_leaf_convo _ _ _ Hrun) as Hconvo.
  rewrite <- (omap_resolving index (Keys.utterance_keys built)), <- Hkeys.
  rewrite omap_flat_map. clear Hnotes Hkeys.
  induction Hconvo as [|leaf leaves [Hleaf _] _ IH]; [reflexivity|].
  cbn [flat_map]. rewrite Hleaf, IH. reflexivity.
Qed.

End LoadedConvo.

Lemma load_anno_tree_convo_witness :
  exists st,
    ICSI.load_anno_tree Samples.icsi_index Samples.icsi_built = Ok st /\
    map (fun leaf => length (Anno.convo leaf))
        (Anno.discover_anno_leaves (ICSI.ts_root st)) = [1%nat; 2%nat] /\
    Forall (fun leaf => Anno.convo leaf
                        = omap (Keys.utterance_of Samples.icsi_index)
                               (Anno.keys leaf) /\
                        length (Anno.convo leaf) = length (Anno.keys leaf))
           (Anno.discover_anno_leaves (ICSI.ts_root st)).
Proof.
  destruct (ICSI.load_anno_tree Samples.icsi_index Samples.icsi_built)
    as [st|e] eqn:Hrun.
  - exists st. split; [reflexivity|].
    split; [|apply (load_anno_tree_convo _ _ _ Hrun)].
    vm_compute in Hrun. injection Hrun as <-. vm_compute. reflexivity.
  - vm_compute in Hrun. discriminate.
Defined.

Lemma icsi_notes_in_document_order_witness :
  exists st,
    ICSI.load_anno_tree Samples.icsi_index Samples.icsi_built = Ok st /\
    map ICSI.text
        (Notes.m_notes (Notes.compose_meeting_notes 10 (ICSI.ts_root st)))
    = [Some "one"; Some "two"; Some "three"].
Proof.
  destruct (ICSI.load_anno_tree Samples.icsi_index Samples.icsi_built)
    as [st|e] eqn:Hrun.
  - exists st. split; [reflexivity|].
    assert (Hkeys : Forall (fun m : ICSI.node => Anno.keys m = [])
                           (Anno.nodes Samples.icsi_built))
      by (cbn; repeat constructor).
    rewrite (icsi_notes_in_document_order 10 _ _ _ Hkeys Hrun).
    vm_compute. reflexivity.
  - vm_compute in Hrun. discriminate.
Defined.

(** ** AMI utterances and tree *)

Section MintFacts.
Import AMI.
Variable strip_key : string -> string.
Variable all_words : gmap string (gmap string word_index).

Lemma split_range_minted utt_content speaker meeting wi (ts : list nat) :
  forall utterances utt_words utterances' utt_words',
  split_range utt_content speaker meeting wi ts utterances utt_words
  = Ok (utterances', utt_words') ->
  exists new,
    utterances' = utterances ++ new /\
    Forall (fun u => u_key u = utt_content /\ u_speaker u = speaker /\
                     u_meeting u = meeting /\ u_composite u = None) new.
Proof.
  induction ts as [|i ts IH]; intros us ws us' ws' Hrun.
  - injection Hrun as <- <-. exists []. rewrite app_nil_r. auto.
  - cbn [split_range] in Hrun.
    destruct (words wi !! i) as [[w|]|]; [| |discriminate].
    + destruct (ends_sentence (text w)) as [[|]|e]; [| |discriminate];
        cbn [mbind outcome_bind Py.bind] in Hrun.
      * destruct (mint_utterance utt_content speaker meeting (ws ++ [w]))
          as [u|e] eqn:Hmint; [|discriminate].
        cbn [mbind outcome_bind Py.bind] in Hrun.
        apply IH in Hrun. destruct Hrun as (new & -> & Hnew).
        exists (u :: new). rewrite <- app_assoc. split; [reflexivity|].
        constructor; [|exact Hnew].
        unfold mint_utterance in Hmint.
        destruct (ws ++ [w]); [discriminate|].
        injection Hmint as <-. auto.
      * apply IH in Hrun. exact Hrun.
    + apply IH in Hrun. exact Hrun.
Qed.

Lemma segment_entry_minted utterances entry utterances' :
  segment_entry strip_key all_words utterances entry = Ok utterances' ->
  exists new,
    utterances' = utterances ++ new /\
    Forall (fun u => Minted.minted_from [entry] u /\ u_composite u = None) new.
Proof.
  unfold segment_entry. intros Hrun.
  destruct (attr entry "href") as [href|e] eqn:Hhref; [|discriminate].
  cbn [mbind outcome_bind Py.bind] in Hrun.
  destruct (Py.split "#" href) as [|meta [|utt_content [|x l]]] eqn:Hsplit;
    try discriminate.
  destruct (Py.split "." meta) as [|meeting [|speaker rest]] eqn:Hmeta;
    try discriminate.
  destruct (all_words !! meeting) as [by_speaker|]; [|discriminate].
  destruct (by_speaker !! speaker) as [wi|]; [|discriminate].
  assert (Hmint : forall u,
            u_key u = utt_content /\ u_speaker u = speaker /\
            u_meeting u = meeting /\ u_composite u = None ->
            Minted.minted_from [entry] u /\ u_composite u = None).
  { intros u (Hk & Hs & Hm & Hc). split; [|exact Hc].
    exists entry, href, meta, rest.
    split; [left|]. split; [exact Hhref|]. rewrite Hk, Hm, Hs. auto. }
  destruct (Py.contains ".." utt_content).
  - destruct (Py.split ".." utt_content) as [|sw [|ew [|y l]]];
      try discriminate.
    destruct (lookup_index wi (strip_key sw)) as [start_idx|e];
      [|discriminate].
    cbn [mbind outcome_bind Py.bind] in Hrun.
    destruct (lookup_index wi (strip_key ew)) as [end_idx|e]; [|discriminate].
    cbn [mbind outcome_bind Py.bind] in Hrun.
    destruct (split_range _ _ _ _ _ _ _) as [[us ws]|e] eqn:Hsplitr;
      [|discriminate].
    cbn [mbind outcome_bind Py.bind] in Hrun.
    apply split_range_minted in Hsplitr. destruct Hsplitr as (new & -> & Hnew).
    destruct ws as [|w ws].
    + injection Hrun as <-. exists new. split; [reflexivity|].
      eapply Forall_impl; [exact Hnew|]. exact Hmint.
    + cbn [mint_utterance mbind outcome_bind Py.bind] in Hrun.
      injection Hrun as <-. eexists (new ++ [_]).
      rewrite app_assoc. split; [reflexivity|].
      apply Forall_app. split.
      * eapply Forall_impl; [exact Hnew|]. exact Hmint.
      * constructor; [|constructor]. apply Hmint. auto.
  - destruct (lookup_index wi (strip_key utt_content)) as [word_idx|e];
      [|discriminate].
    cbn [mbind outcome_bind Py.bind] in Hrun.
    destruct (words wi !! word_idx) as [[w|]|]; [| |discriminate].
    + injection Hrun as <-. eexists [_]. split; [reflexivity|].
      constructor; [|constructor]. apply Hmint. auto.
    + injection Hrun as <-. exists []. rewrite app_nil_r. auto.
Qed.

Lemma minted_from_more (l1 l2 : list Element) (u : utterance) :
  (forall e, e ∈ l1 -> e ∈ l2) ->
  Minted.minted_from l1 u -> Minted.minted_from l2 u.
Proof.
  intros Hsub (entry & href & meta & rest & Hin & Hrest).
  exists entry, href, meta, rest. split; [apply Hsub, Hin|exact Hrest].
Qed.

Lemma segment_entries_minted (entries : list Element) :
  forall utterances utterances',
  segment_entries strip_key all_words utterances entries = Ok utterances' ->
  exists new,
    utterances' = utterances ++ new /\
    Forall (fun u => Minted.minted_from entries u /\ u_composite u = None) new.
Proof.
  induction entries as [|entry entries IH]; intros us us' Hrun.
  - injection Hrun as <-. exists []. rewrite app_nil_r. auto.
  - cbn [segment_entries] in Hrun.
    destruct (segment_entry strip_key all_words us entry) as [us1|e] eqn:Hentry;
      [|discriminate].
    cbn [mbind outcome_bind Py.bind] in Hrun.
    apply segment_entry_minted in Hentry. destruct Hentry as (new1 & -> & Hnew1).
    apply IH in Hrun. destruct Hrun as (new2 & -> & Hnew2).
    exists (new1 ++ new2). rewrite app_assoc. split; [reflexivity|].
    apply Forall_app. split.
    + eapply Forall_impl; [exact Hnew1|]. intros u [Hu Hc]. split; [|exact Hc].
      eapply minted_from_more; [|exact Hu].
      intros e He. apply list_elem_of_singleton in He. subst e. left.
    + eapply Forall_impl; [exact Hnew2|]. intros u [Hu Hc]. split; [|exact Hc].
      eapply minted_from_more; [|exact Hu]. intros e He. right. exact He.
Qed.

Lemma segment_to_utterances_minted entries keys convo :
  segment_to_utterances strip_key all_words entries = Ok (keys, convo) ->
  keys = map u_key convo /\
  Forall (Minted.minted_from entries) convo /\
  Forall Minted.composed_line convo.
Proof.
  unfold segment_to_utterances. intros Hrun.
  destruct (segment_entries strip_key all_words [] entries) as [us|e] eqn:Hus;
    [|discriminate].
  cbn [mbind outcome_bind Py.bind] in Hrun. injection Hrun as <- <-.
  apply segment_entries_minted in Hus. destruct Hus as (new & -> & Hnew).
  cbn [app]. split; [reflexivity|]. split.
  - apply Forall_map. eapply Forall_impl; [exact Hnew|].
    intros u [Hu _]. exact Hu.
  - apply Forall_map. eapply Forall_impl; [exact Hnew|].
    intros u _. reflexivity.
Qed.

(** X23. The utterances of a run of [child] entries are keyed by entry,
    not by utterance: each carries the fragment of the [href] of one of
    the entries as its key, whatever the number of sentences the entry was
    cut into, with the meeting and speaker named before the fragment and
    its composite line set; the keys returned are the keys of the
    utterances, in order. *)
Theorem segment_to_utterances_keyed_by_entry (entries : list Element)
    (keys : list string) (convo : list utterance) :
  segment_to_utterances strip_key all_words entries = Ok (keys, convo) ->
  keys = map u_key convo /\
  Forall (Minted.minted_from entries) convo /\
  Forall Minted.composed_line convo.
Proof. apply segment_to_utterances_minted. Qed.

Lemma build_keys (fuel : nat) :
  (forall idx p xml n' idx',
     build_anno strip_key all_words fuel idx p xml = Ok (n', idx') ->
     Forall Minted.carries_own_keys (Anno.nodes n')) /\
  (forall idx xml node0 b children n' idx',
     build_loop strip_key all_words fuel idx xml node0 b children
       = Ok (n', idx') ->
     Minted.carries_own_keys node0 ->
     Forall Minted.carries_own_keys (flat_map Anno.nodes (Anno.nn node0)) ->
     Forall Minted.carries_own_keys (Anno.nodes n')).
Proof.
  induction fuel as [|fuel [IHtree IHloop]]; [split; intros; discriminate|].
  split.
  - intros idx p xml n' idx' Hrun. rewrite build_anno_S in Hrun.
    cbv zeta in Hrun.
    destruct (Anno.register_anno_node idx (Anno.set_path p Anno.fresh))
      as [idx1|e]; [|discriminate].
    cbn [mbind outcome_bind Py.bind] in Hrun.
    match type of Hrun with
    | context [build_loop _ _ _ ?i ?x ?n ?b ?c] =>
        destruct (build_loop strip_key all_words fuel i x n b c)
          as [[n1 idx2]|e] eqn:Hloop; [|discriminate]
    end.
    cbn [mbind outcome_bind Py.bind] in Hrun.
    destruct (Anno.is_leaf n1 && _); [discriminate|].
    injection Hrun as <- <-.
    apply IHloop in Hloop; [exact Hloop| |constructor].
    repeat split; cbn; auto.
  - intros idx xml node0 b children n' idx' Hrun Hnode Hbelow.
    rewrite build_loop_S in Hrun.
    destruct children as [|first rest].
    + injection Hrun as <- <-. rewrite nodes_unfold.
      constructor; assumption.
    + destruct (Py.contains "pointer" (etag first)).
      { apply IHloop in Hrun; assumption. }
      destruct (Py.contains "topic" (etag first)).
      { destruct (build_anno strip_key all_words fuel idx
                    (Anno.path node0 +:+ "." +:+ Py.str b) first)
          as [[child idx1]|e] eqn:Hchild; [|discriminate].
        cbn [mbind outcome_bind Py.bind] in Hrun.
        apply IHtree in Hchild.
        apply IHloop in Hrun; [exact Hrun|exact Hnode|].
        cbn [Anno.nn Anno.set_nn]. rewrite flat_map_app.
        apply Forall_app. split; [exact Hbelow|].
        cbn [flat_map]. rewrite app_nil_r. exact Hchild. }
      destruct (Py.contains "child" (etag first)); [|discriminate].
      destruct (pop_segments (first :: rest)) as [segments children'].
      destruct (segment_to_utterances strip_key all_words segments)
        as [[keys convo]|e] eqn:Hseg; [|discriminate].
      cbn [mbind outcome_bind Py.bind] in Hrun.
      apply segment_to_utterances_minted in Hseg.
      destruct Hseg as (Hkeys & _ & Hlines).
      destruct keys as [|k keys]; [discriminate|].
      destruct Hnode as (Hk0 & Hl0 & Hin0 & Hc0).
      destruct (Anno.is_leaf node0) eqn:Hlf0; cbn [negb] in Hrun.
      * injection Hrun as <- <-. rewrite nodes_unfold.
        constructor; [|exact Hbelow].
        repeat split; cbn; try assumption. congruence.
      * match type of Hrun with
        | context [Anno.register_anno_node idx ?t] =>
            destruct (Anno.register_anno_node idx t) as [idx1|e];
              [|discriminate]
        end.
        cbn [mbind outcome_bind Py.bind] in Hrun.
        apply IHloop in Hrun; [exact Hrun| |].
        -- unfold Minted.carries_own_keys.
           cbn [Anno.keys Anno.convo Anno.is_leaf Anno.composed Anno.set_nn].
           auto.
        -- cbn [Anno.nn Anno.set_nn]. rewrite flat_map_app.
           apply Forall_app. split; [exact Hbelow|].
           cbn. constructor; [|constructor].
           repeat split; cbn; try assumption. discriminate.
Qed.

(** X24. In the tree [build_anno] returns, the keys of every node are the
    keys of its utterances, in order; every utterance has its composite
    line; only leaves hold keys; and no node is marked as composed, the
    synthetic leaves included. *)
Theorem build_anno_carries_own_keys (fuel : nat) (idx : gset string)
    (p : string) (xml : Element) (n' : node) (idx' : gset string) :
  build_anno strip_key all_words fuel idx p xml = Ok (n', idx') ->
  Forall Minted.carries_own_keys (Anno.nodes n').
Proof. apply (proj1 (build_keys fuel)). Qed.

End MintFacts.

Lemma segment_to_utterances_keyed_by_entry_witness :
  exists keys convo,
    AMI.segment_to_utterances Samples.keep_key Samples.ami_words
      [Samples.child_ref "ES2002a.A.words.xml#w0..w3"] = Ok (keys, convo) /\
    keys = ["w0..w3"; "w0..w3"] /\
    Forall Minted.composed_line convo.
Proof.
  destruct (AMI.segment_to_utterances Samples.keep_key Samples.ami_words
              [Samples.child_ref "ES2002a.A.words.xml#w0..w3"])
    as [[keys convo]|e] eqn:Hrun.
  - exists keys, convo. split; [reflexivity|].
    destruct (segment_to_utterances_keyed_by_entry _ _ _ _ _ Hrun)
      as (_ & _ & Hlines).
    split; [|exact Hlines].
    vm_compute in Hrun. congruence.
  - vm_compute in Hrun. discriminate.
Defined.

Lemma build_anno_carries_own_keys_witness :
  exists n' idx',
    AMI.build_anno Samples.keep_key Samples.ami_words
      (AMI.build_fuel Samples.ami_topics) ∅ "*" Samples.ami_topics
    = Ok (n', idx') /\
    Forall Minted.carries_own_keys (Anno.nodes n').
Proof.
  destruct (AMI.build_anno Samples.keep_key Samples.ami_words
              (AMI.build_fuel Samples.ami_topics) ∅ "*" Samples.ami_topics)
    as [[n' idx']|e] eqn:Hrun.
  - exists n', idx'. split; [reflexivity|].
    apply (build_anno_carries_own_keys _ _ _ _ _ _ _ _ Hrun).
  - vm_compute in Hrun. discriminate.
Defined.

Section SentenceFacts.
Import AMI.

Lemma list_ascii_app (a b : string) :
  list_ascii_of_string (a +:+ b)
  = list_ascii_of_string a ++ list_ascii_of_string b.
Proof.
  induction a as [|c a IH]; [reflexivity|].
  change (String c a +:+ b) with (String c (a +:+ b)).
  cbn [list_ascii_of_string app]. rewrite IH. reflexivity.
Qed.

(** Whether a text ends a sentence is decided by its last piece. *)
Lemma ends_sentence_app (pre t : string) (b : bool) :
  ends_sentence t = Ok b -> ends_sentence (pre +:+ t) = Ok b.
Proof.
  unfold ends_sentence. rewrite list_ascii_app, rev_app_distr.
  destruct (rev (list_ascii_of_string t)) as [|c l]; [discriminate|].
  cbn [app]. auto.
Qed.

(** The text minted for a list of words ends with the text of the last
    word. *)
Lemma mint_text_last (utt_words : list word) (w : word) :
  forall utt_text rspace0,
  exists pre, mint_text utt_text rspace0 (utt_words ++ [w]) = pre +:+ text w.
Proof.
  induction utt_words as [|v utt_words IH]; intros utt_text rspace0.
  - cbn [app mint_text]. eauto.
  - cbn [app mint_text]. apply IH.
Qed.

Lemma split_range_sentences_from utt_content speaker meeting wi (ts : list nat) :
  forall utterances utt_words utterances' utt_words',
  Forall (fun w => ends_sentence (text w) = Ok false) utt_words ->
  split_range utt_content speaker meeting wi ts utterances utt_words
  = Ok (utterances', utt_words') ->
  exists new,
    utterances' = utterances ++ new /\
    Forall (fun u => ends_sentence (u_text u) = Ok true) new /\
    Forall (fun w => ends_sentence (text w) = Ok false) utt_words'.
Proof.
  induction ts as [|i ts IH]; intros us ws us' ws' Hopen Hrun.
  - injection Hrun as <- <-. exists []. rewrite app_nil_r. auto.
  - cbn [split_range] in Hrun.
    destruct (words wi !! i) as [[w|]|]; [| |discriminate].
    + destruct (ends_sentence (text w)) as [[|]|e] eqn:Hmark; [| |discriminate];
        cbn [mbind outcome_bind Py.bind] in Hrun.
      * destruct (mint_utterance utt_content speaker meeting (ws ++ [w]))
          as [u|e] eqn:Hmint; [|discriminate].
        cbn [mbind outcome_bind Py.bind] in Hrun.
        apply IH in Hrun; [|constructor].
        destruct Hrun as (new & -> & Hnew & Hopen').
        exists (u :: new). rewrite <- app_assoc. split; [reflexivity|].
        split; [|exact Hopen']. constructor; [|exact Hnew].
        unfold mint_utterance in Hmint. cbv zeta in Hmint.
        destruct (mint_text_last ws w EmptyString false) as [pre Hpre].
        rewrite Hpre in Hmint.
        destruct (ws ++ [w]); [discriminate|].
        injection Hmint as <-. cbn [u_text].
        apply ends_sentence_app, Hmark.
      * apply IH in Hrun; [exact Hrun|].
        apply Forall_app. split; [exact Hopen|]. constructor; [exact Hmark|constructor].
    + apply IH in Hrun; assumption.
Qed.

(** X25. Inside a range every utterance is cut at a sentence mark: each
    utterance minted by the loop ends in [.], [!] or [?], and the words
    left open when the loop ends hold no such mark, so that only the
    last utterance of a range can be an unfinished sentence. *)
Theorem split_range_sentences (utt_content speaker meeting : string)
    (wi : word_index) (ts : list nat)
    (utterances : list utterance) (utt_words : list word) :
  split_range utt_content speaker meeting wi ts [] []
  = Ok (utterances, utt_words) ->
  Forall (fun u => ends_sentence (u_text u) = Ok true) utterances /\
  Forall (fun w => ends_sentence (text w) = Ok false) utt_words.
Proof.
  intros Hrun.
  apply split_range_sentences_from in Hrun; [|constructor].
  destruct Hrun as (new & -> & Hnew & Hopen). auto.
Qed.

End SentenceFacts.

Lemma split_range_sentences_witness :
  exists utterances utt_words,
    AMI.split_range "w0..w3" "A" "ES2002a"
      (AMI.mk_word_index
         [Some (AMI.mk_word "Hello" true true);
          Some (AMI.mk_word "there." true true);
          None;
          Some (AMI.mk_word "Bye" true true)] ∅)
      (seq 0 4) [] []
    = Ok (utterances, utt_words) /\
    map AMI.u_text utterances = ["Hello there."] /\
    map AMI.text utt_words = ["Bye"] /\
    Forall (fun u => AMI.ends_sentence (AMI.u_text u) = Ok true) utterances.
Proof.
  assert (Hrun :
    AMI.split_range "w0..w3" "A" "ES2002a"
      (AMI.mk_word_index
         [Some (AMI.mk_word "Hello" true true);
          Some (AMI.mk_word "there." true true);
          None;
          Some (AMI.mk_word "Bye" true true)] ∅)
      (seq 0 4) [] []
    = Ok ([AMI.mk_utterance "w0..w3" "A" "ES2002a" "Hello there." None],
          [AMI.mk_word "Bye" true true])) by (vm_compute; reflexivity).
  eexists _, _. split; [exact Hrun|].
  split; [reflexivity|]. split; [reflexivity|].
  exact (proj1 (split_range_sentences _ _ _ _ _ _ _ Hrun)).
Defined.

Section BuildErrors.
Import AMI.
Variable strip_key : string -> string.
Variable all_words : gmap string (gmap string word_index).







End BuildErrors.

